(** * The [sort] pipe of the log storage: a shallow embedding of
    [lib/logstorage/pipe_sort.go] and the properties of its comparator,
    budget controller, k-way merge and output batcher. *)

From Stdlib Require Import ZArith String Ascii Bool Lia List Permutation.
From Stdlib Require Import Floats.SpecFloat.
From Stdlib Require DecimalString.
Import ListNotations.

(** ** Outcomes of a Go computation *)

(** A call either returns, panics (index out of range) or, for the loops that
    are run on fuel, exhausts the fuel it was given. *)
Inductive res (A : Type) : Type :=
| Ok (a : A)
| Panic
| OutOfFuel.

Arguments Ok {A} a.
Arguments Panic {A}.
Arguments OutOfFuel {A}.

Definition bind {A B : Type} (m : res A) (f : A -> res B) : res B :=
  match m with
  | Ok a => f a
  | Panic => Panic
  | OutOfFuel => OutOfFuel
  end.

Notation "x <- m ;; k" := (bind m (fun x => k))
  (at level 61, m at next level, right associativity).
Notation "' p <- m ;; k" := (bind m (fun x => let 'p := x in k))
  (at level 61, p pattern, m at next level, right associativity).

(** [l[i]] of Go: a panic when [i] is out of range. *)
Definition index {A : Type} (l : list A) (i : nat) : res A :=
  match nth_error l i with
  | Some a => Ok a
  | None => Panic
  end.

(** [l[i] = x] of Go. *)
Fixpoint set_nth {A : Type} (l : list A) (i : nat) (x : A) : list A :=
  match l, i with
  | [], _ => []
  | _ :: t, O => x :: t
  | h :: t, S i' => h :: set_nth t i' x
  end.

Definition store {A : Type} (l : list A) (i : nat) (x : A) : res (list A) :=
  if Nat.ltb i (length l) then Ok (set_nth l i x) else Panic.

(** [l[i], l[j] = l[j], l[i]] of Go. *)
Definition swap {A : Type} (l : list A) (i j : nat) : res (list A) :=
  a <- index l i ;;
  b <- index l j ;;
  Ok (set_nth (set_nth l i b) j a).

(** ** Machine integers and floats *)

(** [int] and [int64] are 64-bit two's complement integers; [wrap64] is the
    wrap-around of their arithmetic. *)
Definition wrap64 (z : Z) : Z := ((z + 2 ^ 63) mod 2 ^ 64 - 2 ^ 63)%Z.

Definition add64 (a b : Z) : Z := wrap64 (a + b).
Definition sub64 (a b : Z) : Z := wrap64 (a - b).
Definition mul64 (a b : Z) : Z := wrap64 (a * b).
Definition neg64 (a : Z) : Z := wrap64 (- a).

Definition MaxInt64 : Z := (2 ^ 63 - 1)%Z.
Definition MinInt64 : Z := (- 2 ^ 63)%Z.
Definition MaxUint64 : Z := (2 ^ 64 - 1)%Z.

(** [float64] values are the binary64 numbers of IEEE 754. *)
Definition float64 : Type := spec_float.
Definition nan : float64 := S754_nan.
Definition IsNaN (f : float64) : bool :=
  match f with
  | S754_nan => true
  | _ => false
  end.
Definition f64_eqb (x y : float64) : bool := SFeqb x y.
Definition f64_ltb (x y : float64) : bool := SFltb x y.
Definition f64_mul (x y : float64) : float64 := SFmul 53 1024 x y.
Definition f64_of_int (z : Z) : float64 := binary_normalize 53 1024 z 0 false.

(** [int64(f)] for a float [f]: truncation toward zero (the result for NaN and
    the infinities is the one of amd64). *)
Definition int64_of_f64 (f : float64) : Z :=
  match f with
  | S754_zero _ => 0%Z
  | S754_finite s m e =>
      let v := (if (0 <=? e)%Z then Z.pos m * 2 ^ e else Z.pos m / 2 ^ (- e))%Z in
      wrap64 (if s then - v else v)
  | _ => MinInt64
  end.

(** ** The data model *)

(** [bySortField]: a field of the [by (...)] clause. *)
Record bySortField : Type := {
  bf_name : string;
  bf_isDesc : bool
}.

(** [pipeSort]: the parsed [sort] pipe. *)
Record pipeSort : Type := {
  byFields : list bySortField;
  isDesc : bool
}.

(** Modelled from the spec: [blockResultColumn] is declared outside
    [pipe_sort.go]. A column exposes its name, the flags [isTime] and
    [isConst], the [encodedValues] array and the value at every row; [values]
    holds the latter, one string per row of the block. *)
Record blockResultColumn : Type := {
  name : string;
  isConst : bool;
  isTime : bool;
  encodedValues : list string;
  values : list string
}.

(** Modelled from the spec: [blockResult] is declared outside [pipe_sort.go].
    A block is a timestamp vector and a list of named columns. *)
Record blockResult : Type := {
  timestamps : list Z;
  columns : list blockResultColumn
}.

(** Modelled from the spec: [blockResultColumn.getValueAtRow] and
    [blockResultColumn.getValues], the accessors of a column's values. *)
Definition getValueAtRow (col : blockResultColumn) (b : blockResult) (rowIdx : nat)
  : res string :=
  index (values col) rowIdx.

Definition getValues (col : blockResultColumn) (b : blockResult) : list string :=
  values col.

Definition getColumns (b : blockResult) : list blockResultColumn := columns b.

(** [sortBlockByColumn]: the data of one [by (...)] column of a block. *)
Record sortBlockByColumn : Type := {
  c : blockResultColumn;
  i64Values : list Z;
  f64Values : list float64
}.

(** [sortBlock]: a block of logs held for sorting. *)
Record sortBlock : Type := {
  br : blockResult;
  byColumns : list sortBlockByColumn;
  otherColumns : list blockResultColumn
}.

(** [sortRowRef]: the reference to one log entry. *)
Record sortRowRef : Type := {
  blockIdx : nat;
  rowIdx : nat
}.

(** [pipeSortProcessorShard] (its padding left out). *)
Record pipeSortProcessorShard : Type := {
  ps : pipeSort;
  blocks : list sortBlock;
  rowRefs : list sortRowRef;
  rowRefNext : nat;
  stateSizeBudget : Z
}.

(** ** The comparator *)

Definition getI64ValueAtRow (bc : sortBlockByColumn) (row : nat) : res Z :=
  if isConst (c bc) then index (i64Values bc) 0 else index (i64Values bc) row.

Definition getF64ValueAtRow (bc : sortBlockByColumn) (row : nat) : res float64 :=
  if isConst (c bc) then index (f64Values bc) 0 else index (f64Values bc) row.

(** The body of the loop of [sortBlockLess] for one key: [None] stands for
    [continue], [Some b] for [return b]. *)
Definition lessAtKey (desc : bool)
  (bA : sortBlock) (cA : sortBlockByColumn) (rrA : sortRowRef)
  (bB : sortBlock) (cB : sortBlockByColumn) (rrB : sortRowRef)
  : res (option bool) :=
  if isConst (c cA) && isConst (c cB) then
    ccA <- index (encodedValues (c cA)) 0 ;;
    ccB <- index (encodedValues (c cB)) 0 ;;
    if (ccA =? ccB)%string then Ok None
    else Ok (Some (String.ltb ccA ccB))
  else if isTime (c cA) && isTime (c cB) then
    tA <- index (timestamps (br bA)) (rowIdx rrA) ;;
    tB <- index (timestamps (br bB)) (rowIdx rrB) ;;
    if (tA =? tB)%Z then Ok None
    else if desc then Ok (Some (tB <? tA)%Z)
    else Ok (Some (tA <? tB)%Z)
  else if isTime (c cA) then Ok (Some true)
  else if isTime (c cB) then Ok (Some false)
  else
    uA <- getI64ValueAtRow cA (rowIdx rrA) ;;
    uB <- getI64ValueAtRow cB (rowIdx rrB) ;;
    if negb (uA =? 0)%Z && negb (uB =? 0)%Z then
      if (uA =? uB)%Z then Ok None
      else if desc then Ok (Some (uB <? uA)%Z)
      else Ok (Some (uA <? uB)%Z)
    else
      fA <- getF64ValueAtRow cA (rowIdx rrA) ;;
      fB <- getF64ValueAtRow cB (rowIdx rrB) ;;
      if negb (IsNaN fA) && negb (IsNaN fB) then
        if f64_eqb fA fB then Ok None
        else if desc then Ok (Some (f64_ltb fB fA))
        else Ok (Some (f64_ltb fA fB))
      else
        sA <- getValueAtRow (c cA) (br bA) (rowIdx rrA) ;;
        sB <- getValueAtRow (c cB) (br bB) (rowIdx rrB) ;;
        if (sA =? sB)%string then Ok None
        else if desc then Ok (Some (String.ltb sB sA))
        else Ok (Some (String.ltb sA sB)).

(** The effective direction of key [idx]: the key's own flag, flipped by the
    flag of the pipe. *)
Definition keyDesc (p : pipeSort) (idx : nat) : res bool :=
  d <- (if Nat.ltb 0 (length (byFields p))
        then bf <- index (byFields p) idx ;; Ok (bf_isDesc bf)
        else Ok false) ;;
  Ok (if isDesc p then negb d else d).

(** [for idx := range bA.byColumns { ... }] of [sortBlockLess], entered at
    key [idx] with [cols] the columns of [bA] from [idx] on. *)
Fixpoint lessLoop (p : pipeSort)
  (bA : sortBlock) (rrA : sortRowRef) (bB : sortBlock) (rrB : sortRowRef)
  (cols : list sortBlockByColumn) (idx : nat) : res bool :=
  match cols with
  | [] => Ok false
  | cA :: rest =>
      cB <- index (byColumns bB) idx ;;
      desc <- keyDesc p idx ;;
      d <- lessAtKey desc bA cA rrA bB cB rrB ;;
      match d with
      | Some b => Ok b
      | None => lessLoop p bA rrA bB rrB rest (S idx)
      end
  end.

(** The comparator on two row references, each with the shard that holds its
    block. *)
Definition lessRowRefs (shardA : pipeSortProcessorShard) (rrA : sortRowRef)
  (shardB : pipeSortProcessorShard) (rrB : sortRowRef) : res bool :=
  bA <- index (blocks shardA) (blockIdx rrA) ;;
  bB <- index (blocks shardB) (blockIdx rrB) ;;
  lessLoop (ps shardA) bA rrA bB rrB (byColumns bA) 0.

Definition sortBlockLess (shardA : pipeSortProcessorShard) (rowIdxA : nat)
  (shardB : pipeSortProcessorShard) (rowIdxB : nat) : res bool :=
  rrA <- index (rowRefs shardA) rowIdxA ;;
  rrB <- index (rowRefs shardB) rowIdxB ;;
  lessRowRefs shardA rrA shardB rrB.

(** ** Value coercion *)

(** Modelled from the spec: the parsers [tryParseUint64], [tryParseIPv4] and
    [tryParseFloat64] are declared outside [pipe_sort.go]. The development
    below takes them as parameters; this module gives the instances used to
    evaluate the code on concrete inputs: an unsigned decimal number that fits
    64 bits, a dotted quad of four decimal octets, and an optionally signed
    decimal number with an optional fraction rounded to the nearest binary64
    number. Each fails on every other string. *)
Module SpecModel.

Definition digitValue (ch : ascii) : option Z :=
  let n := Z.of_N (N_of_ascii ch) in
  if ((48 <=? n) && (n <=? 57))%Z then Some (n - 48)%Z else None.

Fixpoint parseDigits (s : string) (acc : Z) : option Z :=
  match s with
  | EmptyString => Some acc
  | String ch rest =>
      match digitValue ch with
      | None => None
      | Some d => parseDigits rest (acc * 10 + d)%Z
      end
  end.

Definition tryParseUint64 (s : string) : Z * bool :=
  match s with
  | EmptyString => (0%Z, false)
  | _ =>
      match parseDigits s 0 with
      | Some n => if (n <=? MaxUint64)%Z then (n, true) else (0%Z, false)
      | None => (0%Z, false)
      end
  end.

(** The part of [s] before the first [sep] and, when there is one, the part
    after it. *)
Fixpoint cut (sep : ascii) (s : string) : string * option string :=
  match s with
  | EmptyString => (EmptyString, None)
  | String ch rest =>
      if Ascii.eqb ch sep then (EmptyString, Some rest)
      else let '(h, t) := cut sep rest in (String ch h, t)
  end.

Definition parseOctet (s : string) : option Z :=
  match s with
  | EmptyString => None
  | _ =>
      if Nat.ltb 3 (String.length s) then None
      else match parseDigits s 0 with
           | Some n => if (n <=? 255)%Z then Some n else None
           | None => None
           end
  end.

Definition tryParseIPv4 (s : string) : Z * bool :=
  match cut "." s with
  | (s1, Some r1) =>
      match cut "." r1 with
      | (s2, Some r2) =>
          match cut "." r2 with
          | (s3, Some s4) =>
              match parseOctet s1, parseOctet s2, parseOctet s3, parseOctet s4 with
              | Some a, Some b, Some c3, Some d =>
                  ((((a * 256 + b) * 256 + c3) * 256 + d)%Z, true)
              | _, _, _, _ => (0%Z, false)
              end
          | _ => (0%Z, false)
          end
      | _ => (0%Z, false)
      end
  | _ => (0%Z, false)
  end.

(** [num / den] rounded to the nearest binary64 number, ties to even: the
    quotient is taken with 64 bits at least and a sticky bit, then rounded. *)
Definition roundRatio (neg : bool) (num den : Z) : float64 :=
  if (num =? 0)%Z then S754_zero neg
  else
    let e := (Z.log2 num - Z.log2 den - 64)%Z in
    let n := (if (e <? 0) then num * 2 ^ (- e) else num)%Z in
    let d := (if (e <? 0) then den else den * 2 ^ e)%Z in
    let q := (n / d)%Z in
    let sticky := (if (n mod d =? 0) then 0 else 1)%Z in
    let m := (2 * q + sticky)%Z in
    binary_normalize 53 1024 (if neg then - m else m)%Z (e - 1)%Z neg.

Definition tryParseFloat64 (s : string) : float64 * bool :=
  match s with
  | EmptyString => (nan, false)
  | String ch rest =>
      let neg := Ascii.eqb ch "-" in
      let body := if neg then rest else s in
      match cut "." body with
      | (ip, None) =>
          match ip, parseDigits ip 0 with
          | String _ _, Some n => (roundRatio neg n 1, true)
          | _, _ => (nan, false)
          end
      | (ip, Some fp) =>
          match ip, fp, parseDigits ip 0, parseDigits fp 0 with
          | String _ _, String _ _, Some n, Some f =>
              let k := Z.of_nat (String.length fp) in
              (roundRatio neg (n * 10 ^ k + f) (10 ^ k), true)
          | _, _, _, _ => (nan, false)
          end
      end
  end.

(** Modelled from the spec: [strconv.AppendQuote] is Go's quoting of a string;
    the instance used on concrete inputs wraps a string that needs no escape in
    double quotes. *)
Definition quote (s : string) : string :=
  (String (ascii_of_nat 34) s ++ String (ascii_of_nat 34) EmptyString)%string.

(** Modelled from the spec: the budget chunk is "implementation-defined
    (typical: tens of kilobytes)". *)
Definition stateSizeBudgetChunk : Z := 65536.

End SpecModel.

(** ** Helpers on lists and records *)

Fixpoint mapM {A B : Type} (f : A -> res B) (l : list A) : res (list B) :=
  match l with
  | [] => Ok []
  | x :: t => y <- f x ;; r <- mapM f t ;; Ok (y :: r)
  end.

Definition lenZ {A : Type} (l : list A) : Z := Z.of_nat (length l).

Definition strlenZ (s : string) : Z := Z.of_nat (String.length s).

Definition with_stateSizeBudget (shard : pipeSortProcessorShard) (b : Z)
  : pipeSortProcessorShard :=
  {| ps := ps shard; blocks := blocks shard; rowRefs := rowRefs shard;
     rowRefNext := rowRefNext shard; stateSizeBudget := b |}.

Definition with_blocks (shard : pipeSortProcessorShard) (bs : list sortBlock)
  : pipeSortProcessorShard :=
  {| ps := ps shard; blocks := bs; rowRefs := rowRefs shard;
     rowRefNext := rowRefNext shard; stateSizeBudget := stateSizeBudget shard |}.

Definition with_rowRefs (shard : pipeSortProcessorShard) (rrs : list sortRowRef)
  : pipeSortProcessorShard :=
  {| ps := ps shard; blocks := blocks shard; rowRefs := rrs;
     rowRefNext := rowRefNext shard; stateSizeBudget := stateSizeBudget shard |}.

Definition with_rowRefNext (shard : pipeSortProcessorShard) (n : nat)
  : pipeSortProcessorShard :=
  {| ps := ps shard; blocks := blocks shard; rowRefs := rowRefs shard;
     rowRefNext := n; stateSizeBudget := stateSizeBudget shard |}.

(** [unsafe.Sizeof] of the types of [pipe_sort.go] on a 64-bit platform: a
    pointer and two slice headers for [sortBlockByColumn] and [sortBlock], two
    [int]s for [sortRowRef]. *)
Definition sizeof_sortBlockByColumn : Z := 56.
Definition sizeof_sortBlock : Z := 56.
Definition sizeof_sortRowRef : Z := 16.
Definition sizeof_pointer : Z := 8.
Definition sizeof_int64 : Z := 8.
Definition sizeof_float64 : Z := 8.

(** The constant [0.2] as a [float64]. *)
Definition f64_0_2 : float64 := S754_finite false 7205759403792794 (-55).

(** [resultColumn]: a name and the values added to it. *)
Record resultColumn : Type := {
  rc_name : string;
  rc_values : list string
}.

Definition addValue (rc : resultColumn) (v : string) : resultColumn :=
  {| rc_name := rc_name rc; rc_values := rc_values rc ++ [v] |}.

Definition resetKeepName (rc : resultColumn) : resultColumn :=
  {| rc_name := rc_name rc; rc_values := [] |}.

(** [len(rc.buf)]: the bytes of the values added to a column. *)
Definition bufLen (vals : list string) : Z :=
  fold_right (fun v acc => (strlenZ v + acc)%Z) 0%Z vals.

(** Modelled from the spec: [blockResult.getColumnByName] is declared outside
    [pipe_sort.go]; it resolves a column by its name. A name that no column
    carries resolves to a const column holding the empty string. *)
Definition getColumnByName (b : blockResult) (columnName : string)
  : blockResultColumn :=
  match find (fun col => (name col =? columnName)%string) (columns b) with
  | Some col => col
  | None =>
      {| name := columnName; isConst := true; isTime := false;
         encodedValues := [EmptyString];
         values := repeat EmptyString (length (timestamps b)) |}
  end.

Section PipeSort.

(** The parts of the package that [pipe_sort.go] uses and does not define. *)
Variable tryParseUint64 : string -> Z * bool.
Variable tryParseIPv4 : string -> Z * bool.
Variable tryParseFloat64 : string -> float64 * bool.
(** [strconv.AppendQuote], as the string it appends. *)
Variable quote : string -> string.
(** [blockResult.sizeBytes] and [unsafe.Sizeof(blockResultColumn{})]. *)
Variable sizeBytes : blockResult -> Z.
Variable sizeof_blockResultColumn : Z.
(** The constant [stateSizeBudgetChunk]. *)
Variable stateSizeBudgetChunk : Z.

Definition tryParseInt64 (s : string) : Z * bool :=
  match s with
  | EmptyString => (0%Z, false)
  | String ch rest =>
      let isMinus := Ascii.eqb ch "-" in
      let s' := if isMinus then rest else s in
      let '(u64, ok) := tryParseUint64 s' in
      if negb ok then (0%Z, false)
      else if negb isMinus then
        if (u64 >? MaxInt64)%Z then (0%Z, false)
        else (wrap64 u64, true)
      else
        if (u64 >? - MinInt64)%Z then (0%Z, false)
        else (neg64 (wrap64 u64), true)
  end.

Definition parseInt64Value (v : string) : Z :=
  let '(i64, ok) := tryParseInt64 v in
  if ok then i64
  else let '(u32, _) := tryParseIPv4 v in u32.

Definition parseFloat64Value (v : string) : float64 :=
  let '(f, ok) := tryParseFloat64 v in
  if negb ok then nan else f.

Definition createInt64Values (shard : pipeSortProcessorShard) (vals : list string)
  : list Z * pipeSortProcessorShard :=
  let a := map parseInt64Value vals in
  (a, with_stateSizeBudget shard
        (sub64 (stateSizeBudget shard) (mul64 (lenZ a) sizeof_int64))).

Definition createFloat64Values (shard : pipeSortProcessorShard) (vals : list string)
  : list float64 * pipeSortProcessorShard :=
  let a := map parseFloat64Value vals in
  (a, with_stateSizeBudget shard
        (sub64 (stateSizeBudget shard) (mul64 (lenZ a) sizeof_float64))).

Definition marshalJSONKeyValue (k v : string) : string :=
  (quote k ++ ":" ++ quote v)%string.

(** The JSON-like string of row [i]: every column's key and value, each
    followed by a comma. *)
Fixpoint jsonRow (cs : list blockResultColumn) (b : blockResult) (i : nat)
  : res string :=
  match cs with
  | [] => Ok EmptyString
  | col :: rest =>
      v <- getValueAtRow col b i ;;
      r <- jsonRow rest b i ;;
      Ok (marshalJSONKeyValue (name col) v ++ "," ++ r)%string
  end.

(** The loop over [byFields] of [shard.writeBlock]. *)
Fixpoint collectByColumns (shard : pipeSortProcessorShard) (b : blockResult)
  (bfs : list bySortField) : list sortBlockByColumn * pipeSortProcessorShard :=
  match bfs with
  | [] => ([], shard)
  | bf :: rest =>
      let col := getColumnByName b (bf_name bf) in
      let '(bc, shard1) :=
        if isTime col then
          ({| c := col; i64Values := []; f64Values := [] |}, shard)
        else if isConst col then
          let '(i64, s1) := createInt64Values shard (encodedValues col) in
          let '(f64, s2) := createFloat64Values s1 (encodedValues col) in
          ({| c := col; i64Values := i64; f64Values := f64 |}, s2)
        else
          let vals := getValues col b in
          let '(i64, s1) := createInt64Values shard vals in
          let '(f64, s2) := createFloat64Values s1 vals in
          ({| c := col; i64Values := i64; f64Values := f64 |}, s2) in
      let '(bcs, shard2) := collectByColumns shard1 b rest in
      (bc :: bcs, shard2)
  end.

Definition isByField (bfs : list bySortField) (col : blockResultColumn) : bool :=
  existsb (fun bf => (bf_name bf =? name col)%string) bfs.

(** [shard.writeBlock]: the block is cloned (a value here), its [by] columns
    are pre-parsed, and one row reference per row is appended. *)
Definition shard_writeBlock (shard : pipeSortProcessorShard) (b : blockResult)
  : res pipeSortProcessorShard :=
  let cs := getColumns b in
  let bfs := byFields (ps shard) in
  let n := length (timestamps b) in
  shard1 <-
    (if Nat.eqb (length bfs) 0 then
       rcValues <- mapM (jsonRow cs b) (seq 0 n) ;;
       let byCols :=
         [ {| c := {| name := EmptyString; isConst := false; isTime := false;
                      encodedValues := rcValues; values := rcValues |};
              i64Values := repeat 0%Z n;
              f64Values := repeat nan n |} ] in
       let s1 := with_stateSizeBudget shard
                   (sub64 (stateSizeBudget shard)
                      (add64 (bufLen rcValues)
                         (add64 sizeof_sortBlockByColumn sizeof_blockResultColumn))) in
       Ok (with_blocks s1
             (blocks s1 ++ [ {| br := b; byColumns := byCols; otherColumns := cs |} ]))
     else
       let '(byCols, s1) := collectByColumns shard b bfs in
       let s2 := with_stateSizeBudget s1
                   (sub64 (stateSizeBudget s1)
                      (mul64 (lenZ byCols) sizeof_sortBlockByColumn)) in
       let others := filter (fun col => negb (isByField bfs col)) cs in
       let s3 := with_stateSizeBudget s2
                   (sub64 (stateSizeBudget s2) (mul64 (lenZ others) sizeof_pointer)) in
       Ok (with_blocks s3
             (blocks s3 ++ [ {| br := b; byColumns := byCols; otherColumns := others |} ]))) ;;
  let s4 := with_stateSizeBudget shard1 (sub64 (stateSizeBudget shard1) (sizeBytes b)) in
  let s5 := with_stateSizeBudget s4 (sub64 (stateSizeBudget s4) sizeof_sortBlock) in
  let bIdx := length (blocks s5) - 1 in
  let refs := rowRefs s5 ++ map (fun i => {| blockIdx := bIdx; rowIdx := i |}) (seq 0 n) in
  let s6 := with_rowRefs s5 refs in
  Ok (with_stateSizeBudget s6
        (sub64 (stateSizeBudget s6)
           (mul64 (Z.of_nat (length refs - length (rowRefs s5))) sizeof_sortRowRef))).

(** ** The processor and its budget controller *)

(** [pipeSortProcessor]. [stopCh] is read through the oracle given to [flush];
    the two outgoing interfaces are recorded by what was sent to them:
    [cancelCalls] counts the calls of [psp.cancel], [ppBase] lists the blocks
    written to [psp.ppBase], each with the worker id of the call. *)
Record pipeSortProcessor : Type := {
  psp_ps : pipeSort;
  shards : list pipeSortProcessorShard;
  maxStateSize : Z;
  psp_stateSizeBudget : Z;
  cancelCalls : nat;
  ppBase : list (nat * list resultColumn)
}.

Definition with_shards (psp : pipeSortProcessor) (ss : list pipeSortProcessorShard)
  : pipeSortProcessor :=
  {| psp_ps := psp_ps psp; shards := ss; maxStateSize := maxStateSize psp;
     psp_stateSizeBudget := psp_stateSizeBudget psp;
     cancelCalls := cancelCalls psp; ppBase := ppBase psp |}.

Definition with_budget (psp : pipeSortProcessor) (g : Z) (cancels : nat)
  : pipeSortProcessor :=
  {| psp_ps := psp_ps psp; shards := shards psp; maxStateSize := maxStateSize psp;
     psp_stateSizeBudget := g; cancelCalls := cancels; ppBase := ppBase psp |}.

Definition with_ppBase (psp : pipeSortProcessor) (out : list (nat * list resultColumn))
  : pipeSortProcessor :=
  {| psp_ps := psp_ps psp; shards := shards psp; maxStateSize := maxStateSize psp;
     psp_stateSizeBudget := psp_stateSizeBudget psp;
     cancelCalls := cancelCalls psp; ppBase := out |}.

(** [newPipeProcessor], with the value of [memory.Allowed()] as [allowed]. *)
Definition newPipeProcessor (p : pipeSort) (workersCount : nat) (allowed : Z)
  : pipeSortProcessor :=
  let maxStateSize0 := int64_of_f64 (f64_mul (f64_of_int allowed) f64_0_2) in
  let shard0 := {| ps := p; blocks := []; rowRefs := []; rowRefNext := 0;
                   stateSizeBudget := stateSizeBudgetChunk |} in
  let maxSize := fold_left (fun m _ => sub64 m stateSizeBudgetChunk)
                   (seq 0 workersCount) maxStateSize0 in
  {| psp_ps := p; shards := repeat shard0 workersCount;
     maxStateSize := maxSize; psp_stateSizeBudget := maxSize;
     cancelCalls := 0; ppBase := [] |}.

(** The loop [for shard.stateSizeBudget < 0 { ... }] of [writeBlock] on the
    global budget [g], the calls of [cancel] so far and the budget [sb] of the
    shard; the boolean tells whether the loop was left by its condition
    ([true]) or by the [return] ([false]). *)
Fixpoint stealBudget (fuel : nat) (g : Z) (cancels : nat) (sb : Z)
  : res (Z * nat * Z * bool) :=
  if (sb <? 0)%Z then
    match fuel with
    | O => OutOfFuel
    | S fuel' =>
        let remaining := add64 g (- stateSizeBudgetChunk) in
        if (remaining <? 0)%Z then
          if (add64 remaining stateSizeBudgetChunk >=? 0)%Z
          then Ok (remaining, S cancels, sb, false)
          else Ok (remaining, cancels, sb, false)
        else stealBudget fuel' remaining cancels (add64 sb stateSizeBudgetChunk)
    end
  else Ok (g, cancels, sb, true).

(** Iterations that the loop of [writeBlock] can take from budget [sb]. *)
Definition stealFuel (sb : Z) : nat :=
  S (Z.to_nat ((- sb) / stateSizeBudgetChunk)).

Definition writeBlock (psp : pipeSortProcessor) (workerID : nat) (b : blockResult)
  : res pipeSortProcessor :=
  if Nat.eqb (length (timestamps b)) 0 then Ok psp
  else
    shard <- index (shards psp) workerID ;;
    '(g, cancels, sb, go) <-
       stealBudget (stealFuel (stateSizeBudget shard))
         (psp_stateSizeBudget psp) (cancelCalls psp) (stateSizeBudget shard) ;;
    let shard1 := with_stateSizeBudget shard sb in
    let psp1 := with_budget psp g cancels in
    if go then
      shard2 <- shard_writeBlock shard1 b ;;
      Ok (with_shards psp1 (set_nth (shards psp1) workerID shard2))
    else
      Ok (with_shards psp1 (set_nth (shards psp1) workerID shard1)).

(** ** The output batcher *)

(** [pipeSortWriteContext]: the result columns under construction and the
    bytes appended to them since the last flush. Its block [br] is scratch
    space of [flush] and [psp] is the processor whose [ppBase] is written to;
    the blocks written there are threaded next to the context. *)
Record pipeSortWriteContext : Type := {
  rcs : list resultColumn;
  valuesLen : Z
}.

Definition ppBaseLog : Type := list (nat * list resultColumn).

(** [wctx.flush]: a context with columns writes them as one block to
    [ppBase], as worker 0, and keeps their names. *)
Definition wctx_flush (wctx : pipeSortWriteContext) (out : ppBaseLog)
  : pipeSortWriteContext * ppBaseLog :=
  if Nat.eqb (length (rcs wctx)) 0 then
    ({| rcs := rcs wctx; valuesLen := 0 |}, out)
  else
    ({| rcs := map resetKeepName (rcs wctx); valuesLen := 0 |},
     out ++ [(0, rcs wctx)]).

(** The comparison of the names of [otherColumns] with the columns that follow
    the keys. *)
Fixpoint namesMatch (rs : list resultColumn) (others : list blockResultColumn)
  : bool :=
  match others, rs with
  | [], _ => true
  | col :: t, rc :: r =>
      if (rc_name rc =? name col)%string then namesMatch r t else false
  | _ :: _, [] => false
  end.

Definition areEqualColumns (rs : list resultColumn) (bfs : list bySortField)
  (b : sortBlock) : bool :=
  Nat.eqb (length rs) (length bfs + length (otherColumns b))
  && namesMatch (skipn (length bfs) rs) (otherColumns b).

(** [rcs[i].addValue(v)] together with [wctx.valuesLen += len(v)]. *)
Definition addAt (acc : list resultColumn * Z) (i : nat) (v : string)
  : res (list resultColumn * Z) :=
  rc <- index (fst acc) i ;;
  Ok (set_nth (fst acc) i (addValue rc v), add64 (snd acc) (strlenZ v)).

(** [for i := range byFields { ... }] of [writeRow], over the indices [idxs]. *)
Fixpoint appendKeys (b : sortBlock) (row : nat) (idxs : list nat)
  (acc : list resultColumn * Z) : res (list resultColumn * Z) :=
  match idxs with
  | [] => Ok acc
  | i :: rest =>
      bc <- index (byColumns b) i ;;
      v <- getValueAtRow (c bc) (br b) row ;;
      acc' <- addAt acc i v ;;
      appendKeys b row rest acc'
  end.

(** [for i, c := range b.otherColumns { ... }] of [writeRow], entered at
    index [i] with [cols] the columns from [i] on. *)
Fixpoint appendOthers (b : sortBlock) (row : nat) (nkeys : nat)
  (cols : list blockResultColumn) (i : nat)
  (acc : list resultColumn * Z) : res (list resultColumn * Z) :=
  match cols with
  | [] => Ok acc
  | col :: rest =>
      v <- getValueAtRow col (br b) row ;;
      acc' <- addAt acc (nkeys + i) v ;;
      appendOthers b row nkeys rest (S i) acc'
  end.

Definition freshColumns (bfs : list bySortField) (b : sortBlock)
  : list resultColumn :=
  map (fun bf => {| rc_name := bf_name bf; rc_values := [] |}) bfs
  ++ map (fun col => {| rc_name := name col; rc_values := [] |}) (otherColumns b).

Definition writeRow (wctx : pipeSortWriteContext) (out : ppBaseLog)
  (shard : pipeSortProcessorShard) (rowIdx0 : nat)
  : res (pipeSortWriteContext * ppBaseLog) :=
  rr <- index (rowRefs shard) rowIdx0 ;;
  b <- index (blocks shard) (blockIdx rr) ;;
  let bfs := byFields (ps shard) in
  let '(wctx1, out1) :=
    if areEqualColumns (rcs wctx) bfs b then (wctx, out)
    else
      let '(w, o) := wctx_flush wctx out in
      ({| rcs := freshColumns bfs b; valuesLen := valuesLen w |}, o) in
  acc1 <- appendKeys b (rowIdx rr) (seq 0 (length bfs)) (rcs wctx1, valuesLen wctx1) ;;
  acc2 <- appendOthers b (rowIdx rr) (length bfs) (otherColumns b) 0 acc1 ;;
  let wctx2 := {| rcs := fst acc2; valuesLen := snd acc2 |} in
  if (valuesLen wctx2 >=? 1000000)%Z then Ok (wctx_flush wctx2 out1)
  else Ok (wctx2, out1).

(** ** Sorting a shard: [sort.Sort] of Go on the shard's [Len], [Less] and
    [Swap] *)

Definition shard_Len (shard : pipeSortProcessorShard) : nat :=
  length (rowRefs shard).

Definition shard_Swap (shard : pipeSortProcessorShard) (i j : nat)
  : res pipeSortProcessorShard :=
  rrs <- swap (rowRefs shard) i j ;;
  Ok (with_rowRefs shard rrs).

Definition shard_Less (shard : pipeSortProcessorShard) (i j : nat) : res bool :=
  sortBlockLess shard i shard j.

(** The inner loop of [insertionSort] of package [sort]:
    [for j := i; j > a && data.Less(j, j-1); j-- { data.Swap(j, j-1) }],
    with [a = 0]. *)
Fixpoint insertDown (shard : pipeSortProcessorShard) (j : nat)
  : res pipeSortProcessorShard :=
  match j with
  | O => Ok shard
  | S j' =>
      lt <- shard_Less shard j j' ;;
      if lt then
        shard' <- shard_Swap shard j j' ;;
        insertDown shard' j'
      else Ok shard
  end.

Fixpoint insertionSortLoop (shard : pipeSortProcessorShard) (idxs : list nat)
  : res pipeSortProcessorShard :=
  match idxs with
  | [] => Ok shard
  | i :: rest =>
      shard' <- insertDown shard i ;;
      insertionSortLoop shard' rest
  end.

(** [insertionSort(data, 0, n)]. *)
Definition insertionSort (shard : pipeSortProcessorShard)
  : res pipeSortProcessorShard :=
  insertionSortLoop shard (seq 1 (shard_Len shard - 1)).

(** [pdqsort] of package [sort] on more than twelve elements; on twelve or
    fewer it is [insertionSort]. *)
Variable pdqsort_large : pipeSortProcessorShard -> res pipeSortProcessorShard.

(** [sort.Sort(shard)]. *)
Definition sort_Sort (shard : pipeSortProcessorShard)
  : res pipeSortProcessorShard :=
  let n := shard_Len shard in
  if Nat.leb n 1 then Ok shard
  else if Nat.leb n 12 then insertionSort shard
  else pdqsort_large shard.

(** ** The heap of shards: [container/heap] of Go on
    [pipeSortProcessorShardsHeap] *)

(** The heap [sh] holds pointers to shards: indices into the shards [ss] of
    the processor. *)
Definition heap_Less (ss : list pipeSortProcessorShard) (sh : list nat) (i j : nat)
  : res bool :=
  pA <- index sh i ;;
  pB <- index sh j ;;
  shardA <- index ss pA ;;
  shardB <- index ss pB ;;
  sortBlockLess shardA (rowRefNext shardA) shardB (rowRefNext shardB).

(** [down(h, i0, n)] of [container/heap], at node [i]; the boolean is its
    result [i > i0]. *)
Fixpoint down (fuel : nat) (ss : list pipeSortProcessorShard) (sh : list nat)
  (i0 i n : nat) : res (list nat * bool) :=
  let j1 := 2 * i + 1 in
  if Nat.leb n j1 then Ok (sh, Nat.ltb i0 i)
  else
    match fuel with
    | O => OutOfFuel
    | S fuel' =>
        lt21 <- (if Nat.ltb (j1 + 1) n then heap_Less ss sh (j1 + 1) j1
                 else Ok false) ;;
        let j := if lt21 then j1 + 1 else j1 in
        lt <- heap_Less ss sh j i ;;
        if negb lt then Ok (sh, Nat.ltb i0 i)
        else
          sh' <- swap sh i j ;;
          down fuel' ss sh' i0 j n
    end.

(** [up(h, j)] of [container/heap]. *)
Fixpoint up (fuel : nat) (ss : list pipeSortProcessorShard) (sh : list nat)
  (j : nat) : res (list nat) :=
  let i := (j - 1) / 2 in
  if Nat.eqb i j then Ok sh
  else
    match fuel with
    | O => OutOfFuel
    | S fuel' =>
        lt <- heap_Less ss sh j i ;;
        if negb lt then Ok sh
        else
          sh' <- swap sh i j ;;
          up fuel' ss sh' i
    end.

(** [heap.Init]: [for i := n/2 - 1; i >= 0; i-- { down(h, i, n) }]. *)
Fixpoint heap_Init_loop (ss : list pipeSortProcessorShard) (sh : list nat)
  (idxs : list nat) : res (list nat) :=
  match idxs with
  | [] => Ok sh
  | i :: rest =>
      '(sh', _) <- down (length sh) ss sh i i (length sh) ;;
      heap_Init_loop ss sh' rest
  end.

Definition heap_Init (ss : list pipeSortProcessorShard) (sh : list nat)
  : res (list nat) :=
  heap_Init_loop ss sh (rev (seq 0 (length sh / 2))).

(** [heap.Pop], without the shard it returns: the root is swapped with the last
    element, the new root is sifted down and the last element is removed. *)
Definition heap_Pop (ss : list pipeSortProcessorShard) (sh : list nat)
  : res (list nat) :=
  match length sh with
  | O => Panic
  | S n =>
      sh1 <- swap sh 0 n ;;
      '(sh2, _) <- down n ss sh1 0 0 n ;;
      Ok (removelast sh2)
  end.

(** [heap.Fix(h, i)]. *)
Definition heap_Fix (ss : list pipeSortProcessorShard) (sh : list nat) (i : nat)
  : res (list nat) :=
  '(sh1, moved) <- down (length sh) ss sh i i (length sh) ;;
  if negb moved then up (length sh) ss sh1 i else Ok sh1.

(** ** [flush]: sort, merge, write *)

(** [quoteTokenIfNeeded] is declared outside [pipe_sort.go]. *)
Variable quoteTokenIfNeeded : string -> string.

Definition bySortField_String (bf : bySortField) : string :=
  (quoteTokenIfNeeded (bf_name bf) ++ (if bf_isDesc bf then " desc" else ""))%string.

Definition pipeSort_String (p : pipeSort) : string :=
  ("sort"
   ++ (if Nat.ltb 0 (length (byFields p))
       then " by (" ++ String.concat ", " (map bySortField_String (byFields p)) ++ ")"
       else "")
   ++ (if isDesc p then " desc" else ""))%string.

(** [%d] of package [fmt] on an integer. *)
Definition formatInt (z : Z) : string :=
  DecimalString.NilZero.string_of_int (Z.to_int z).

(** The error of [flush]. *)
Definition flushError (psp : pipeSortProcessor) : string :=
  ("cannot calculate [" ++ pipeSort_String (psp_ps psp)
   ++ "], since it requires more than "
   ++ formatInt (Z.quot (maxStateSize psp) (2 ^ 20))
   ++ "MB of memory")%string.

(** The state of the merge loop of [flush]: the shards, the heap [sh] of
    pointers to them, [shardNext], the write context and the blocks written to
    [ppBase], the number of polls of [stopCh] so far, and the history of the
    calls of [writeRow]: the shard pointer and row index of each. *)
Record mergeState : Type := {
  m_shards : list pipeSortProcessorShard;
  m_sh : list nat;
  m_shardNext : option nat;
  m_wctx : pipeSortWriteContext;
  m_out : ppBaseLog;
  m_polls : nat;
  m_written : list (nat * nat)
}.

(** How a loop of [flush] ends: by [return nil] after [stopCh] was seen closed,
    or by running to its end. *)
Inductive loopExit : Type := Stopped | Finished.

(** [shardNext = sh[1]], or [sh[2]] when it is less. *)
Definition pickShardNext (ss : list pipeSortProcessorShard) (sh : list nat)
  : res nat :=
  q1 <- index sh 1 ;;
  if Nat.ltb 2 (length sh) then
    q2 <- index sh 2 ;;
    s2 <- index ss q2 ;;
    s1 <- index ss q1 ;;
    lt <- sortBlockLess s2 (rowRefNext s2) s1 (rowRefNext s1) ;;
    Ok (if lt then q2 else q1)
  else Ok q1.

(** [for len(sh) > 1 { ... }] of [flush]; [stopCh k] tells whether the poll
    number [k] of the channel finds it closed. *)
Fixpoint mergeLoop (fuel : nat) (stopCh : nat -> bool) (st : mergeState)
  : res (mergeState * loopExit) :=
  if Nat.leb (length (m_sh st)) 1 then Ok (st, Finished)
  else
    match fuel with
    | O => OutOfFuel
    | S fuel' =>
        p <- index (m_sh st) 0 ;;
        shard <- index (m_shards st) p ;;
        '(wctx, out) <- writeRow (m_wctx st) (m_out st) shard (rowRefNext shard) ;;
        let written := m_written st ++ [(p, rowRefNext shard)] in
        let shard' := with_rowRefNext shard (S (rowRefNext shard)) in
        let ss := set_nth (m_shards st) p shard' in
        if Nat.leb (length (rowRefs shard')) (rowRefNext shard') then
          sh <- heap_Pop ss (m_sh st) ;;
          let st' := {| m_shards := ss; m_sh := sh; m_shardNext := None;
                        m_wctx := wctx; m_out := out;
                        m_polls := S (m_polls st); m_written := written |} in
          if stopCh (m_polls st) then Ok (st', Stopped)
          else mergeLoop fuel' stopCh st'
        else
          q <- match m_shardNext st with
               | Some q => Ok q
               | None => pickShardNext ss (m_sh st)
               end ;;
          sN <- index ss q ;;
          lt <- sortBlockLess sN (rowRefNext sN) shard' (rowRefNext shard') ;;
          if lt then
            sh <- heap_Fix ss (m_sh st) 0 ;;
            let st' := {| m_shards := ss; m_sh := sh; m_shardNext := None;
                          m_wctx := wctx; m_out := out;
                          m_polls := S (m_polls st); m_written := written |} in
            if stopCh (m_polls st) then Ok (st', Stopped)
            else mergeLoop fuel' stopCh st'
          else
            mergeLoop fuel' stopCh
              {| m_shards := ss; m_sh := m_sh st; m_shardNext := Some q;
                 m_wctx := wctx; m_out := out;
                 m_polls := m_polls st; m_written := written |}
    end.

(** [for shard.rowRefNext < len(shard.rowRefs) { ... }] on the last shard [p]
    of the heap, for the [k] rows that remain in it. *)
Fixpoint drainLoop (k : nat) (p : nat) (st : mergeState) : res mergeState :=
  match k with
  | O => Ok st
  | S k' =>
      shard <- index (m_shards st) p ;;
      '(wctx, out) <- writeRow (m_wctx st) (m_out st) shard (rowRefNext shard) ;;
      drainLoop k' p
        {| m_shards := set_nth (m_shards st) p
                         (with_rowRefNext shard (S (rowRefNext shard)));
           m_sh := m_sh st; m_shardNext := m_shardNext st;
           m_wctx := wctx; m_out := out; m_polls := m_polls st;
           m_written := m_written st ++ [(p, rowRefNext shard)] |}
  end.

(** The rows that the shards still hold past their [rowRefNext]. *)
Definition remainingRows (ss : list pipeSortProcessorShard) : nat :=
  fold_right (fun s acc => (length (rowRefs s) - rowRefNext s) + acc) 0 ss.

(** The pointers to the shards that hold rows, in the order of the shards. *)
Definition nonEmptyShards (ss : list pipeSortProcessorShard) : list nat :=
  filter (fun i => match nth_error ss i with
                   | Some s => Nat.ltb 0 (shard_Len s)
                   | None => false
                   end) (seq 0 (length ss)).

(** The result of [flush]: the error, if any, the processor, and the history
    of the calls of [writeRow]. *)
Record flushResult : Type := {
  f_err : option string;
  f_psp : pipeSortProcessor;
  f_written : list (nat * nat)
}.

Definition flush (stopCh : nat -> bool) (psp : pipeSortProcessor) : res flushResult :=
  if (psp_stateSizeBudget psp <=? 0)%Z then
    Ok {| f_err := Some (flushError psp); f_psp := psp; f_written := [] |}
  else if stopCh 0 then
    Ok {| f_err := None; f_psp := psp; f_written := [] |}
  else
    ss <- mapM sort_Sort (shards psp) ;;
    let psp1 := with_shards psp ss in
    if stopCh 1 then
      Ok {| f_err := None; f_psp := psp1; f_written := [] |}
    else
      let sh0 := nonEmptyShards ss in
      if Nat.eqb (length sh0) 0 then
        Ok {| f_err := None; f_psp := psp1; f_written := [] |}
      else
        sh <- heap_Init ss sh0 ;;
        '(st, exit) <-
          mergeLoop (remainingRows ss) stopCh
            {| m_shards := ss; m_sh := sh; m_shardNext := None;
               m_wctx := {| rcs := []; valuesLen := 0 |}; m_out := ppBase psp;
               m_polls := 2; m_written := [] |} ;;
        match exit with
        | Stopped =>
            Ok {| f_err := None;
                  f_psp := with_ppBase (with_shards psp (m_shards st)) (m_out st);
                  f_written := m_written st |}
        | Finished =>
            st1 <- (if Nat.eqb (length (m_sh st)) 1 then
                      p <- index (m_sh st) 0 ;;
                      shard <- index (m_shards st) p ;;
                      drainLoop (length (rowRefs shard) - rowRefNext shard) p st
                    else Ok st) ;;
            let '(_, out) := wctx_flush (m_wctx st1) (m_out st1) in
            Ok {| f_err := None;
                  f_psp := with_ppBase (with_shards psp (m_shards st1)) out;
                  f_written := m_written st1 |}
        end.

(** ** Well-formed blocks, shards and processors *)

(** Modelled from the spec: the invariants of the blocks that upstream
    produces. Every column holds one value per row, and a const column holds
    one encoded value. *)
Definition wf_column (n : nat) (col : blockResultColumn) : Prop :=
  length (values col) = n
  /\ (isConst col = true -> length (encodedValues col) = 1).

Definition wf_block (b : blockResult) : Prop :=
  Forall (wf_column (length (timestamps b))) (columns b).

(** The number of [by] columns of every block of a shard. *)
Definition nkeys (p : pipeSort) : nat :=
  match byFields p with
  | [] => 1
  | _ :: _ => length (byFields p)
  end.

(** The invariant of the spec on the side arrays of a [by] column: none is
    needed for a time column, one element for a const column, one per row
    otherwise. *)
Definition wf_byColumn (n : nat) (bc : sortBlockByColumn) : Prop :=
  length (values (c bc)) = n
  /\ (isConst (c bc) = true -> encodedValues (c bc) <> [])
  /\ (isTime (c bc) = false ->
      if isConst (c bc)
      then i64Values bc <> [] /\ f64Values bc <> []
      else length (i64Values bc) = n /\ length (f64Values bc) = n).

Definition wf_sortBlock (p : pipeSort) (sb : sortBlock) : Prop :=
  length (byColumns sb) = nkeys p
  /\ Forall (wf_byColumn (length (timestamps (br sb)))) (byColumns sb)
  /\ Forall (fun col => length (values col) = length (timestamps (br sb)))
       (otherColumns sb).

(** A row reference that points to a row of a block of the shard. *)
Definition validRef (bs : list sortBlock) (rr : sortRowRef) : Prop :=
  exists sb, nth_error bs (blockIdx rr) = Some sb
             /\ rowIdx rr < length (timestamps (br sb)).

Definition wf_shard (shard : pipeSortProcessorShard) : Prop :=
  Forall (wf_sortBlock (ps shard)) (blocks shard)
  /\ Forall (validRef (blocks shard)) (rowRefs shard).

(** The side arrays of the time columns are left [nil]. *)
Definition timeColumnsNil (shard : pipeSortProcessorShard) : Prop :=
  Forall (fun sb =>
            Forall (fun bc => isTime (c bc) = true ->
                              i64Values bc = [] /\ f64Values bc = [])
              (byColumns sb))
    (blocks shard).

(** The rows of the blocks of a shard, in the order of their ingestion. *)
Fixpoint blockRows (bs : list sortBlock) (bIdx : nat) : list sortRowRef :=
  match bs with
  | [] => []
  | sb :: rest =>
      map (fun i => {| blockIdx := bIdx; rowIdx := i |})
        (seq 0 (length (timestamps (br sb))))
      ++ blockRows rest (S bIdx)
  end.

Definition wf_processor (psp : pipeSortProcessor) : Prop :=
  Forall (fun shard =>
            ps shard = psp_ps psp /\ wf_shard shard
            /\ Permutation (rowRefs shard) (blockRows (blocks shard) 0))
    (shards psp).

(** The processors that [newPipeProcessor] and [writeBlock] build out of
    well-formed blocks. *)
Inductive reachable (p : pipeSort) : pipeSortProcessor -> Prop :=
| reach_new : forall workersCount allowed,
    reachable p (newPipeProcessor p workersCount allowed)
| reach_writeBlock : forall psp workerID b psp',
    reachable p psp ->
    wf_block b ->
    writeBlock psp workerID b = Ok psp' ->
    reachable p psp'.

(** ** The comparator, key by key *)

(** [sortBlockLess] from key [idx] on. *)
Definition lessFrom (p : pipeSort)
  (bA : sortBlock) (rrA : sortRowRef) (bB : sortBlock) (rrB : sortRowRef)
  (idx : nat) : res bool :=
  lessLoop p bA rrA bB rrB (skipn idx (byColumns bA)) idx.

(** The decision of one key as the spec words it for a column that is neither
    const nor time on either side: the integer tier when both integers are
    non-zero, else the float tier when neither float is NaN, else the string
    tier; [None] when the tier finds the two equal. *)
Definition directed (desc : bool) (ltAB ltBA : bool) : bool :=
  if desc then ltBA else ltAB.

Definition tierDecision (desc : bool) (uA uB : Z) (fA fB : float64) (sA sB : string)
  : option bool :=
  if negb (uA =? 0)%Z && negb (uB =? 0)%Z then
    if (uA =? uB)%Z then None
    else Some (directed desc (uA <? uB)%Z (uB <? uA)%Z)
  else if negb (IsNaN fA) && negb (IsNaN fB) then
    if f64_eqb fA fB then None
    else Some (directed desc (f64_ltb fA fB) (f64_ltb fB fA))
  else
    if (sA =? sB)%string then None
    else Some (directed desc (String.ltb sA sB) (String.ltb sB sA)).

(** Two outcomes of comparisons in the two orders that do not both say
    "less". *)
Definition opposed (r1 r2 : res (option bool)) : Prop :=
  match r1, r2 with
  | Ok None, Ok None => True
  | Ok (Some b1), Ok (Some b2) => b1 && b2 = false
  | Panic, Panic => True
  | _, _ => False
  end.

(** * Properties *)

(** ** Lists, lookups and the outcome monad *)

Lemma index_Ok : forall (A : Type) (l : list A) i a,
  index l i = Ok a <-> nth_error l i = Some a.
Proof.
  intros A l i a. unfold index.
  destruct (nth_error l i); split; intro H; inversion H; reflexivity.
Qed.

Lemma index_lt : forall (A : Type) (l : list A) i,
  i < length l -> exists a, index l i = Ok a.
Proof.
  intros A l i H. unfold index.
  destruct (nth_error l i) eqn:E; [eauto|].
  apply nth_error_None in E. lia.
Qed.

Lemma index_not_fuel : forall (A : Type) (l : list A) i, index l i <> OutOfFuel.
Proof. intros A l i. unfold index. destruct (nth_error l i); discriminate. Qed.

Lemma bind_Ok : forall (A B : Type) (m : res A) (f : A -> res B) b,
  bind m f = Ok b -> exists a, m = Ok a /\ f a = Ok b.
Proof. intros A B [a| |] f b H; simpl in H; try discriminate. eauto. Qed.

Lemma skipn_nth_error : forall (A : Type) (l : list A) i x rest,
  skipn i l = x :: rest -> nth_error l i = Some x /\ skipn (S i) l = rest.
Proof.
  intros A l. induction l as [|h t IH]; intros i x rest H.
  - destruct i; discriminate.
  - destruct i as [|i]; simpl in H.
    + inversion H; subst. split; reflexivity.
    + apply IH in H. exact H.
Qed.

Lemma nth_error_skipn_cons : forall (A : Type) (l : list A) i x,
  nth_error l i = Some x -> skipn i l = x :: skipn (S i) l.
Proof.
  intros A l. induction l as [|h t IH]; intros i x H.
  - destruct i; discriminate.
  - destruct i as [|i]; simpl in H.
    + inversion H; reflexivity.
    + apply IH in H. exact H.
Qed.

Lemma set_nth_length : forall (A : Type) (l : list A) i x,
  length (set_nth l i x) = length l.
Proof.
  intros A l. induction l as [|h t IH]; intros [|i] x; simpl; auto.
Qed.

Lemma nth_error_set_nth_eq : forall (A : Type) (l : list A) i x,
  i < length l -> nth_error (set_nth l i x) i = Some x.
Proof.
  intros A l. induction l as [|h t IH]; intros [|i] x H; simpl in *; try lia; auto.
  apply IH. lia.
Qed.

Lemma nth_error_set_nth_neq : forall (A : Type) (l : list A) i j x,
  i <> j -> nth_error (set_nth l i x) j = nth_error l j.
Proof.
  intros A l. induction l as [|h t IH]; intros [|i] [|j] x H; simpl; auto; try lia.
Qed.

Lemma set_nth_same : forall (A : Type) (l : list A) i x,
  nth_error l i = Some x -> set_nth l i x = l.
Proof.
  intros A l. induction l as [|h t IH]; intros [|i] x H; simpl in *; try discriminate.
  - inversion H; reflexivity.
  - f_equal. auto.
Qed.

(** ** Orders on integers, floats and strings *)

Lemma SFcompare_antisym : forall x y : float64,
  SFcompare x y = option_map CompOpp (SFcompare y x).
Proof.
  intros [[]|[]| |[] m1 e1] [[]|[]| |[] m2 e2]; simpl; try reflexivity;
    rewrite (Z.compare_antisym e1 e2); destruct (e1 ?= e2)%Z; simpl; try reflexivity;
    rewrite (Pos.compare_cont_antisym m2 m1 Eq); reflexivity.
Qed.

Lemma f64_eqb_sym : forall x y, f64_eqb x y = f64_eqb y x.
Proof.
  intros x y. unfold f64_eqb, SFeqb. rewrite (SFcompare_antisym x y).
  destruct (SFcompare y x) as [[]|]; reflexivity.
Qed.

Lemma f64_ltb_asym : forall x y, f64_ltb x y && f64_ltb y x = false.
Proof.
  intros x y. unfold f64_ltb, SFltb. rewrite (SFcompare_antisym x y).
  destruct (SFcompare y x) as [[]|]; reflexivity.
Qed.

Lemma String_ltb_asym : forall s t, String.ltb s t && String.ltb t s = false.
Proof.
  intros s t. unfold String.ltb. rewrite (String.compare_antisym s t).
  destruct (String.compare t s); reflexivity.
Qed.

Lemma Z_ltb_asym : forall x y : Z, ((x <? y) && (y <? x))%Z = false.
Proof.
  intros x y. destruct (Z.ltb_spec x y), (Z.ltb_spec y x); simpl; auto; lia.
Qed.

Lemma andb_asym_comm : forall b1 b2, b1 && b2 = false -> b2 && b1 = false.
Proof. intros [] []; simpl; auto. Qed.

(** ** The comparator in the two orders *)

Ltac case_index :=
  match goal with
  | |- context [index ?l ?i] =>
      let E := fresh "E" in
      destruct (index l i) eqn:E;
      [ | | exfalso; exact (index_not_fuel _ _ _ E) ];
      cbn [bind]
  end.

Lemma lessAtKey_opposed : forall desc bA cA rrA bB cB rrB,
  opposed (lessAtKey desc bA cA rrA bB cB rrB) (lessAtKey desc bB cB rrB bA cA rrA).
Proof.
  intros desc bA cA rrA bB cB rrB.
  unfold lessAtKey, getI64ValueAtRow, getF64ValueAtRow, getValueAtRow.
  destruct (isConst (c cA)), (isConst (c cB)), (isTime (c cA)), (isTime (c cB));
    cbn [andb negb];
    repeat case_index;
    try exact I;
    repeat match goal with
      | |- context [(?a =? ?b)%string] =>
          rewrite (String.eqb_sym b a); destruct (a =? b)%string; cbn [andb negb opposed]
      | |- context [(?a =? ?b)%Z] =>
          first [ is_var b; rewrite (Z.eqb_sym b a) | idtac ];
          destruct (a =? b)%Z eqn:?; cbn [andb negb opposed]
      | |- context [IsNaN ?f] => destruct (IsNaN f); cbn [andb negb opposed]
      | |- context [f64_eqb ?a ?b] =>
          rewrite (f64_eqb_sym b a); destruct (f64_eqb a b); cbn [andb negb opposed]
      end;
    try exact I;
    destruct desc; cbn [opposed];
    auto using Z_ltb_asym, f64_ltb_asym, String_ltb_asym, andb_asym_comm.
Qed.

Lemma lessLoop_asym : forall p bA rrA bB rrB colsA colsB idx,
  colsA = skipn idx (byColumns bA) ->
  colsB = skipn idx (byColumns bB) ->
  lessLoop p bA rrA bB rrB colsA idx = Ok true ->
  lessLoop p bB rrB bA rrA colsB idx = Ok true ->
  False.
Proof.
  intros p bA rrA bB rrB colsA.
  induction colsA as [|cA rest IH]; intros colsB idx HA HB H1 H2.
  - simpl in H1. discriminate.
  - symmetry in HA. apply skipn_nth_error in HA. destruct HA as [HcA Hrest].
    simpl in H1.
    destruct (index (byColumns bB) idx) as [cB| |] eqn:EB; simpl in H1; try discriminate.
    apply index_Ok in EB.
    rewrite (nth_error_skipn_cons _ _ _ _ EB) in HB. subst colsB. simpl in H2.
    apply index_Ok in HcA. rewrite HcA in H2. simpl in H2.
    destruct (keyDesc p idx) as [desc| |]; simpl in H1, H2; try discriminate.
    pose proof (lessAtKey_opposed desc bA cA rrA bB cB rrB) as Hop.
    destruct (lessAtKey desc bA cA rrA bB cB rrB) as [[b1|]| |];
      destruct (lessAtKey desc bB cB rrB bA cA rrA) as [[b2|]| |];
      simpl in H1, H2, Hop; try discriminate; try contradiction.
    + inversion H1; inversion H2; subst. discriminate.
    + eapply IH; eauto.
Qed.

Lemma lessRowRefs_asym : forall shardA rrA shardB rrB,
  ps shardA = ps shardB ->
  lessRowRefs shardA rrA shardB rrB = Ok true ->
  lessRowRefs shardB rrB shardA rrA = Ok true ->
  False.
Proof.
  intros shardA rrA shardB rrB Hps H1 H2. unfold lessRowRefs in *.
  destruct (index (blocks shardA) (blockIdx rrA)) as [bA| |]; simpl in *; try discriminate.
  destruct (index (blocks shardB) (blockIdx rrB)) as [bB| |]; simpl in *; try discriminate.
  rewrite <- Hps in H2.
  eapply (lessLoop_asym (ps shardA) bA rrA bB rrB _ _ 0); eauto.
Qed.

(** ** The comparator does not panic on well-formed shards *)

Lemma getI64ValueAtRow_ok : forall n bc row,
  wf_byColumn n bc -> isTime (c bc) = false -> row < n ->
  exists u, getI64ValueAtRow bc row = Ok u.
Proof.
  intros n bc row (_ & _ & H) Ht Hrow. specialize (H Ht).
  unfold getI64ValueAtRow. destruct (isConst (c bc)).
  - destruct H as [H _]. apply index_lt. destruct (i64Values bc); [congruence|simpl; lia].
  - destruct H as [H _]. apply index_lt. lia.
Qed.

Lemma getF64ValueAtRow_ok : forall n bc row,
  wf_byColumn n bc -> isTime (c bc) = false -> row < n ->
  exists f, getF64ValueAtRow bc row = Ok f.
Proof.
  intros n bc row (_ & _ & H) Ht Hrow. specialize (H Ht).
  unfold getF64ValueAtRow. destruct (isConst (c bc)).
  - destruct H as [_ H]. apply index_lt. destruct (f64Values bc); [congruence|simpl; lia].
  - destruct H as [_ H]. apply index_lt. lia.
Qed.

Lemma getValueAtRow_ok : forall col b row,
  row < length (values col) -> exists v, getValueAtRow col b row = Ok v.
Proof. intros col b row H. unfold getValueAtRow. apply index_lt. exact H. Qed.

Lemma lessAtKey_total : forall desc bA cA rrA bB cB rrB,
  wf_byColumn (length (timestamps (br bA))) cA ->
  wf_byColumn (length (timestamps (br bB))) cB ->
  rowIdx rrA < length (timestamps (br bA)) ->
  rowIdx rrB < length (timestamps (br bB)) ->
  exists d, lessAtKey desc bA cA rrA bB cB rrB = Ok d.
Proof.
  intros desc bA cA rrA bB cB rrB HA HB HrA HrB.
  unfold lessAtKey.
  destruct (isConst (c cA) && isConst (c cB)) eqn:Ec.
  - apply andb_true_iff in Ec. destruct Ec as [EcA EcB].
    destruct HA as (_ & HA & _), HB as (_ & HB & _).
    specialize (HA EcA). specialize (HB EcB).
    destruct (encodedValues (c cA)) as [|vA ?]; [congruence|].
    destruct (encodedValues (c cB)) as [|vB ?]; [congruence|].
    simpl. destruct (vA =? vB)%string; eauto.
  - destruct (isTime (c cA)) eqn:EtA, (isTime (c cB)) eqn:EtB; cbn [andb]; eauto.
    + destruct (index_lt _ (timestamps (br bA)) _ HrA) as [tA ->].
      destruct (index_lt _ (timestamps (br bB)) _ HrB) as [tB ->].
      simpl. destruct (tA =? tB)%Z, desc; eauto.
    + destruct (getI64ValueAtRow_ok _ _ _ HA EtA HrA) as [uA ->].
      destruct (getI64ValueAtRow_ok _ _ _ HB EtB HrB) as [uB ->].
      destruct (getF64ValueAtRow_ok _ _ _ HA EtA HrA) as [fA ->].
      destruct (getF64ValueAtRow_ok _ _ _ HB EtB HrB) as [fB ->].
      destruct HA as (HvA & _), HB as (HvB & _).
      destruct (getValueAtRow_ok (c cA) (br bA) (rowIdx rrA)) as [sA ->]; [lia|].
      destruct (getValueAtRow_ok (c cB) (br bB) (rowIdx rrB)) as [sB ->]; [lia|].
      cbn [bind].
      repeat match goal with
        | |- context [if ?b then _ else _] => destruct b
        end; eauto.
Qed.

Lemma keyDesc_total : forall p idx, idx < nkeys p -> exists d, keyDesc p idx = Ok d.
Proof.
  intros p idx H. unfold keyDesc, nkeys in *.
  destruct (byFields p) as [|bf bfs] eqn:E.
  - simpl. eauto.
  - cbn [length Nat.ltb Nat.leb].
    destruct (index_lt _ (bf :: bfs) _ H) as [x ->]. simpl. eauto.
Qed.

Lemma lessLoop_total : forall p bA rrA bB rrB cols idx,
  cols = skipn idx (byColumns bA) ->
  wf_sortBlock p bA -> wf_sortBlock p bB ->
  rowIdx rrA < length (timestamps (br bA)) ->
  rowIdx rrB < length (timestamps (br bB)) ->
  exists b, lessLoop p bA rrA bB rrB cols idx = Ok b.
Proof.
  intros p bA rrA bB rrB cols.
  induction cols as [|cA rest IH]; intros idx Hc HA HB HrA HrB.
  - simpl. eauto.
  - symmetry in Hc. apply skipn_nth_error in Hc. destruct Hc as [HcA Hrest].
    assert (Hidx : idx < nkeys p).
    { destruct HA as (HlA & _). rewrite <- HlA.
      apply nth_error_Some. congruence. }
    simpl.
    destruct (index_lt _ (byColumns bB) idx) as [cB EB].
    { destruct HB as (HlB & _). lia. }
    rewrite EB. cbn [bind].
    destruct (keyDesc_total p _ Hidx) as [desc ->]. cbn [bind].
    assert (HwA : wf_byColumn (length (timestamps (br bA))) cA).
    { destruct HA as (_ & HfA & _). rewrite Forall_forall in HfA.
      apply HfA. eapply nth_error_In; eauto. }
    assert (HwB : wf_byColumn (length (timestamps (br bB))) cB).
    { destruct HB as (_ & HfB & _). rewrite Forall_forall in HfB.
      apply HfB. apply index_Ok in EB. eapply nth_error_In; eauto. }
    destruct (lessAtKey_total desc bA cA rrA bB cB rrB HwA HwB HrA HrB) as [[b|] ->];
      cbn [bind]; eauto.
Qed.

Lemma lessRowRefs_total : forall shardA rrA shardB rrB,
  Forall (wf_sortBlock (ps shardA)) (blocks shardA) ->
  Forall (wf_sortBlock (ps shardB)) (blocks shardB) ->
  ps shardA = ps shardB ->
  validRef (blocks shardA) rrA -> validRef (blocks shardB) rrB ->
  exists b, lessRowRefs shardA rrA shardB rrB = Ok b.
Proof.
  intros shardA rrA shardB rrB HbA HbB Hps (bA & EA & HrA) (bB & EB & HrB).
  unfold lessRowRefs.
  apply index_Ok in EA, EB. rewrite EA, EB. cbn [bind].
  apply index_Ok in EA, EB.
  rewrite Forall_forall in HbA, HbB.
  eapply lessLoop_total; eauto.
  - apply HbA. eapply nth_error_In; eauto.
  - rewrite Hps. apply HbB. eapply nth_error_In; eauto.
Qed.

Lemma wf_shard_validRef : forall shard i rr,
  wf_shard shard -> nth_error (rowRefs shard) i = Some rr ->
  validRef (blocks shard) rr.
Proof.
  intros shard i rr [_ H] E. rewrite Forall_forall in H.
  apply H. eapply nth_error_In; eauto.
Qed.

Lemma sortBlockLess_total : forall shardA iA shardB iB,
  wf_shard shardA -> wf_shard shardB -> ps shardA = ps shardB ->
  iA < length (rowRefs shardA) -> iB < length (rowRefs shardB) ->
  exists b, sortBlockLess shardA iA shardB iB = Ok b.
Proof.
  intros shardA iA shardB iB HA HB Hps HiA HiB. unfold sortBlockLess.
  destruct (index_lt _ _ _ HiA) as [rrA EA]. destruct (index_lt _ _ _ HiB) as [rrB EB].
  rewrite EA, EB. cbn [bind]. apply index_Ok in EA, EB.
  eapply lessRowRefs_total; eauto using wf_shard_validRef;
    [apply HA|apply HB].
Qed.

(** C10. [sortBlockLess] is asymmetric: over two shards of one sort
    configuration it never answers "less" in both orders; it never answers
    "less" for a row against itself, and on a row of a well-formed shard
    against itself it answers "not less". *)
Theorem sortBlockLess_asymmetric : forall shardA iA shardB iB,
  ps shardA = ps shardB ->
  (sortBlockLess shardA iA shardB iB = Ok true ->
   sortBlockLess shardB iB shardA iA = Ok true -> False)
  /\ sortBlockLess shardA iA shardA iA <> Ok true
  /\ (wf_shard shardA -> iA < length (rowRefs shardA) ->
      sortBlockLess shardA iA shardA iA = Ok false).
Proof.
  intros shardA iA shardB iB Hps.
  assert (Hasym : forall sA a sB b, ps sA = ps sB ->
            sortBlockLess sA a sB b = Ok true ->
            sortBlockLess sB b sA a = Ok true -> False).
  { intros sA a sB b Hp H1 H2. unfold sortBlockLess in *.
    destruct (index (rowRefs sA) a) as [rrA| |]; simpl in *; try discriminate.
    destruct (index (rowRefs sB) b) as [rrB| |]; simpl in *; try discriminate.
    eapply lessRowRefs_asym; eauto. }
  split; [|split].
  - apply Hasym. exact Hps.
  - intro H. exact (Hasym shardA iA shardA iA eq_refl H H).
  - intros Hwf Hi.
    destruct (sortBlockLess_total _ iA _ iA Hwf Hwf eq_refl Hi Hi) as [[|] E]; [|exact E].
    exfalso. exact (Hasym shardA iA shardA iA eq_refl E E).
Qed.

(** ** The comparator, one key at a time *)

Lemma lessFrom_step : forall p bA rrA bB rrB idx cA,
  nth_error (byColumns bA) idx = Some cA ->
  lessFrom p bA rrA bB rrB idx =
    (cB <- index (byColumns bB) idx ;;
     desc <- keyDesc p idx ;;
     d <- lessAtKey desc bA cA rrA bB cB rrB ;;
     match d with
     | Some b => Ok b
     | None => lessFrom p bA rrA bB rrB (S idx)
     end).
Proof.
  intros p bA rrA bB rrB idx cA H. unfold lessFrom.
  rewrite (nth_error_skipn_cons _ _ _ _ H). reflexivity.
Qed.

Lemma sortBlockLess_lessFrom : forall shardA iA shardB iB rrA rrB bA bB,
  nth_error (rowRefs shardA) iA = Some rrA ->
  nth_error (rowRefs shardB) iB = Some rrB ->
  nth_error (blocks shardA) (blockIdx rrA) = Some bA ->
  nth_error (blocks shardB) (blockIdx rrB) = Some bB ->
  sortBlockLess shardA iA shardB iB = lessFrom (ps shardA) bA rrA bB rrB 0.
Proof.
  intros shardA iA shardB iB rrA rrB bA bB H1 H2 H3 H4.
  unfold sortBlockLess, lessRowRefs.
  apply index_Ok in H1, H2, H3, H4. rewrite H1, H2. cbn [bind].
  rewrite H3, H4. reflexivity.
Qed.

Lemma lessAtKey_const : forall desc bA cA rrA bB cB rrB ccA ccB,
  isConst (c cA) = true -> isConst (c cB) = true ->
  nth_error (encodedValues (c cA)) 0 = Some ccA ->
  nth_error (encodedValues (c cB)) 0 = Some ccB ->
  lessAtKey desc bA cA rrA bB cB rrB =
    Ok (if (ccA =? ccB)%string then None else Some (String.ltb ccA ccB)).
Proof.
  intros desc bA cA rrA bB cB rrB ccA ccB HA HB EA EB.
  unfold lessAtKey. rewrite HA, HB. cbn [andb].
  apply index_Ok in EA, EB. rewrite EA, EB. cbn [bind].
  destruct (ccA =? ccB)%string; reflexivity.
Qed.

Lemma lessAtKey_tiers : forall desc bA cA rrA bB cB rrB uA uB fA fB sA sB,
  isConst (c cA) = false -> isConst (c cB) = false ->
  isTime (c cA) = false -> isTime (c cB) = false ->
  nth_error (i64Values cA) (rowIdx rrA) = Some uA ->
  nth_error (i64Values cB) (rowIdx rrB) = Some uB ->
  nth_error (f64Values cA) (rowIdx rrA) = Some fA ->
  nth_error (f64Values cB) (rowIdx rrB) = Some fB ->
  nth_error (values (c cA)) (rowIdx rrA) = Some sA ->
  nth_error (values (c cB)) (rowIdx rrB) = Some sB ->
  lessAtKey desc bA cA rrA bB cB rrB = Ok (tierDecision desc uA uB fA fB sA sB).
Proof.
  intros desc bA cA rrA bB cB rrB uA uB fA fB sA sB
    HcA HcB HtA HtB EuA EuB EfA EfB EsA EsB.
  unfold lessAtKey, getI64ValueAtRow, getF64ValueAtRow, getValueAtRow, tierDecision.
  rewrite HcA, HcB, HtA, HtB. cbn [andb].
  apply index_Ok in EuA, EuB, EfA, EfB, EsA, EsB.
  rewrite EuA, EuB, EfA, EfB, EsA, EsB. cbn [bind].
  unfold directed.
  repeat match goal with
    | |- context [if ?b then _ else _] => destruct b
    end; reflexivity.
Qed.

(** C3. When a key column is const on both sides, the comparator compares the
    two [encodedValues[0]] as strings in ascending order, whatever the
    direction [desc] of the key is, and goes on to the next key only when they
    are equal. *)
Theorem constColumns_compare_ascending :
  forall shardA iA shardB iB rrA rrB bA bB,
  nth_error (rowRefs shardA) iA = Some rrA ->
  nth_error (rowRefs shardB) iB = Some rrB ->
  nth_error (blocks shardA) (blockIdx rrA) = Some bA ->
  nth_error (blocks shardB) (blockIdx rrB) = Some bB ->
  sortBlockLess shardA iA shardB iB = lessFrom (ps shardA) bA rrA bB rrB 0
  /\ forall idx cA cB ccA ccB desc,
       nth_error (byColumns bA) idx = Some cA ->
       nth_error (byColumns bB) idx = Some cB ->
       isConst (c cA) = true -> isConst (c cB) = true ->
       nth_error (encodedValues (c cA)) 0 = Some ccA ->
       nth_error (encodedValues (c cB)) 0 = Some ccB ->
       keyDesc (ps shardA) idx = Ok desc ->
       lessFrom (ps shardA) bA rrA bB rrB idx =
         if (ccA =? ccB)%string
         then lessFrom (ps shardA) bA rrA bB rrB (S idx)
         else Ok (String.ltb ccA ccB).
Proof.
  intros shardA iA shardB iB rrA rrB bA bB H1 H2 H3 H4. split.
  - apply sortBlockLess_lessFrom; assumption.
  - intros idx cA cB ccA ccB desc EA EB HcA HcB EvA EvB Hd.
    rewrite (lessFrom_step _ _ _ _ _ _ _ EA).
    apply index_Ok in EB. rewrite EB, Hd. cbn [bind].
    rewrite (lessAtKey_const desc bA cA rrA bB cB rrB ccA ccB HcA HcB EvA EvB).
    cbn [bind]. destruct (ccA =? ccB)%string; reflexivity.
Qed.

(** ** Machine arithmetic *)

Lemma two63 : (2 ^ 63 = 9223372036854775808)%Z.
Proof. reflexivity. Qed.

Lemma two64 : (2 ^ 64 = 18446744073709551616)%Z.
Proof. reflexivity. Qed.

Lemma wrap64_small : forall z,
  (- 9223372036854775808 <= z < 9223372036854775808)%Z -> wrap64 z = z.
Proof.
  intros z H. unfold wrap64. rewrite two63, two64.
  rewrite Z.mod_small; lia.
Qed.

Lemma wrap64_range : forall z,
  (- 9223372036854775808 <= wrap64 z < 9223372036854775808)%Z.
Proof.
  intros z. unfold wrap64. rewrite two63, two64.
  pose proof (Z.mod_pos_bound (z + 9223372036854775808) 18446744073709551616).
  lia.
Qed.

Lemma wrap64_min : wrap64 9223372036854775808 = (- 9223372036854775808)%Z.
Proof. reflexivity. Qed.

(** ** [tryParseInt64] over any unsigned parser *)

Lemma tryParseInt64_cases : forall ch rest u ok,
  tryParseUint64 (if Ascii.eqb ch "-" then rest else String ch rest) = (u, ok) ->
  (0 <= u)%Z ->
  tryParseInt64 (String ch rest) =
    if ok && (u <=? (if Ascii.eqb ch "-" then 9223372036854775808
                     else 9223372036854775807))%Z
    then ((if Ascii.eqb ch "-" then - u else u)%Z, true)
    else (0%Z, false).
Proof.
  intros ch rest u ok E Hu. unfold tryParseInt64. rewrite E.
  destruct ok; cbn [negb andb]; [|reflexivity].
  change (- MinInt64)%Z with 9223372036854775808%Z.
  change MaxInt64 with 9223372036854775807%Z.
  rewrite !Z.gtb_ltb. unfold neg64.
  destruct (Ascii.eqb ch "-"); cbn [negb].
  - destruct (Z.leb_spec u 9223372036854775808);
      destruct (Z.ltb_spec 9223372036854775808 u); try lia; [|reflexivity].
    f_equal.
    destruct (Z.eq_dec u 9223372036854775808) as [->|Hne].
    + reflexivity.
    + rewrite (wrap64_small u) by lia. apply wrap64_small. lia.
  - destruct (Z.leb_spec u 9223372036854775807);
      destruct (Z.ltb_spec 9223372036854775807 u); try lia; [|reflexivity].
    f_equal. apply wrap64_small. lia.
Qed.

(** ** Ingestion keeps a shard well formed *)

Lemma getColumnByName_wf : forall b nm,
  wf_block b -> wf_column (length (timestamps b)) (getColumnByName b nm).
Proof.
  intros b nm Hb. unfold getColumnByName.
  destruct (find _ (columns b)) as [col|] eqn:E.
  - apply find_some in E. destruct E as [Hin _].
    unfold wf_block in Hb. rewrite Forall_forall in Hb. auto.
  - split; simpl; [apply repeat_length | reflexivity].
Qed.

(** What [shard.writeBlock] and its helpers leave alone. *)
Definition sameRows (s s' : pipeSortProcessorShard) : Prop :=
  ps s' = ps s /\ blocks s' = blocks s /\ rowRefs s' = rowRefs s
  /\ rowRefNext s' = rowRefNext s.

Lemma sameRows_refl : forall s, sameRows s s.
Proof. intros s. repeat split. Qed.

Lemma sameRows_trans : forall s1 s2 s3,
  sameRows s1 s2 -> sameRows s2 s3 -> sameRows s1 s3.
Proof.
  intros s1 s2 s3 (A1 & A2 & A3 & A4) (B1 & B2 & B3 & B4).
  repeat split; congruence.
Qed.

Lemma sameRows_budget : forall s z, sameRows s (with_stateSizeBudget s z).
Proof. intros s z. repeat split. Qed.

Definition timeNil (bc : sortBlockByColumn) : Prop :=
  isTime (c bc) = true -> i64Values bc = [] /\ f64Values bc = [].

Lemma collectByColumns_spec : forall b bfs shard bcs shard',
  wf_block b ->
  collectByColumns shard b bfs = (bcs, shard') ->
  length bcs = length bfs
  /\ Forall (wf_byColumn (length (timestamps b))) bcs
  /\ Forall timeNil bcs
  /\ sameRows shard shard'.
Proof.
  intros b bfs. induction bfs as [|bf rest IH]; intros shard bcs shard' Hb H.
  - simpl in H. inversion H; subst. repeat split; constructor.
  - simpl in H.
    pose proof (getColumnByName_wf b (bf_name bf) Hb) as [Hv He].
    set (col := getColumnByName b (bf_name bf)) in *.
    match type of H with
    | (let '(bc, shard1) := ?X in _) = _ => destruct X as [bc shard1] eqn:E1
    end.
    destruct (collectByColumns shard1 b rest) as [bcs1 shard2] eqn:E2.
    inversion H; subst bcs shard'. clear H.
    apply IH in E2; [|exact Hb]. destruct E2 as (Hl & Hw & Ht & Hs).
    assert (Hbc : wf_byColumn (length (timestamps b)) bc /\ timeNil bc
                  /\ sameRows shard shard1).
    { destruct (isTime col) eqn:Etime.
      - inversion E1; subst bc shard1.
        repeat split; simpl; auto; try congruence.
        intro Hc. apply He in Hc. destruct (encodedValues col); simpl in *; congruence.
      - destruct (isConst col) eqn:Econst;
          unfold createInt64Values, createFloat64Values, getValues in E1;
          inversion E1; subst bc shard1; clear E1.
        + specialize (He eq_refl).
          assert (Hne : encodedValues col <> []).
          { destruct (encodedValues col); simpl in *; congruence. }
          unfold wf_byColumn, timeNil; simpl. rewrite Etime, Econst.
          repeat split; auto; try congruence;
            destruct (encodedValues col); simpl in *; congruence.
        + unfold wf_byColumn, timeNil; simpl. rewrite Etime, Econst.
          repeat split; auto; try congruence; rewrite length_map; auto. }
    destruct Hbc as (Hw1 & Ht1 & Hs1).
    repeat split; simpl; auto; try (destruct Hs as (A1 & A2 & A3 & A4);
      destruct Hs1 as (B1 & B2 & B3 & B4); congruence).
Qed.

Lemma jsonRow_ok : forall b i cs,
  Forall (wf_column (length (timestamps b))) cs ->
  i < length (timestamps b) ->
  exists s, jsonRow cs b i = Ok s.
Proof.
  intros b i cs. induction cs as [|col rest IH]; intros Hcs Hi.
  - simpl. eauto.
  - inversion Hcs as [|? ? [Hv _] Hrest]; subst. simpl.
    destruct (getValueAtRow_ok col b i) as [v ->]; [lia|]. cbn [bind].
    destruct (IH Hrest Hi) as [s ->]. cbn [bind]. eauto.
Qed.

Lemma mapM_ok : forall (A B : Type) (f : A -> res B) l,
  (forall x, In x l -> exists y, f x = Ok y) ->
  exists r, mapM f l = Ok r /\ length r = length l.
Proof.
  intros A B f l. induction l as [|x t IH]; intros H.
  - simpl. eauto.
  - simpl. destruct (H x) as [y ->]; [left; reflexivity|]. cbn [bind].
    destruct IH as (r & -> & Hl); [intros; apply H; right; assumption|].
    cbn [bind]. exists (y :: r). simpl. auto.
Qed.

Lemma blockRows_app : forall bs sb k,
  blockRows (bs ++ [sb]) k =
    blockRows bs k
    ++ map (fun i => {| blockIdx := k + length bs; rowIdx := i |})
         (seq 0 (length (timestamps (br sb)))).
Proof.
  intros bs sb. induction bs as [|h t IH]; intros k; simpl.
  - rewrite app_nil_r, Nat.add_0_r. reflexivity.
  - rewrite IH, <- app_assoc.
    replace (k + S (length t)) with (S k + length t) by lia. reflexivity.
Qed.

Lemma validRef_app : forall bs sb rr, validRef bs rr -> validRef (bs ++ [sb]) rr.
Proof.
  intros bs sb rr (x & E & H). exists x. split; [|exact H].
  rewrite nth_error_app1; [exact E|]. apply nth_error_Some. congruence.
Qed.

(** The block that [shard.writeBlock] appends and the row references that
    come with it. *)
Definition appended (shard shard' : pipeSortProcessorShard) (b : blockResult)
  (sb : sortBlock) : Prop :=
  ps shard' = ps shard
  /\ rowRefNext shard' = rowRefNext shard
  /\ blocks shard' = blocks shard ++ [sb]
  /\ br sb = b
  /\ rowRefs shard' =
       rowRefs shard
       ++ map (fun i => {| blockIdx := length (blocks shard); rowIdx := i |})
            (seq 0 (length (timestamps b)))
  /\ wf_sortBlock (ps shard) sb
  /\ Forall timeNil (byColumns sb).

Lemma shard_writeBlock_spec : forall shard b,
  wf_block b ->
  exists shard' sb, shard_writeBlock shard b = Ok shard' /\ appended shard shard' b sb.
Proof.
  intros shard b Hb. unfold shard_writeBlock, getColumns.
  destruct (length (byFields (ps shard)) =? 0) eqn:Ebf.
  - apply Nat.eqb_eq in Ebf.
    destruct (mapM_ok _ _ (jsonRow (columns b) b) (seq 0 (length (timestamps b))))
      as (rcv & -> & Hlen).
    { intros i Hi. apply in_seq in Hi. apply jsonRow_ok; [exact Hb|lia]. }
    rewrite length_seq in Hlen. cbn [bind]. eexists. eexists. split; [reflexivity|].
    unfold appended; simpl.
    rewrite length_app, Nat.add_sub. cbn [length].
    repeat split; auto; simpl.
    + unfold nkeys. destruct (byFields (ps shard)); [reflexivity|discriminate].
    + repeat constructor; simpl; auto; try congruence;
        rewrite ?repeat_length; auto.
    + unfold wf_block in Hb. rewrite Forall_forall in Hb |- *.
      intros col Hin. apply Hb in Hin. destruct Hin; assumption.
    + constructor; [|constructor]. intro H. simpl in H. discriminate.
  - apply Nat.eqb_neq in Ebf.
    destruct (collectByColumns shard b (byFields (ps shard))) as [bcs s1] eqn:Ec.
    apply collectByColumns_spec in Ec; [|exact Hb].
    destruct Ec as (Hl & Hw & Ht & (S1 & S2 & S3 & S4)).
    cbn [bind]. eexists. eexists. split; [reflexivity|].
    unfold appended; simpl.
    rewrite length_app, Nat.add_sub. cbn [length].
    rewrite S1, S2, S3, S4.
    repeat split; auto; simpl.
    + unfold nkeys. destruct (byFields (ps shard)); simpl in *; [lia|exact Hl].
    + unfold wf_block in Hb. rewrite Forall_forall in Hb |- *.
      intros col Hin. apply filter_In in Hin. destruct Hin as [Hin _].
      apply Hb in Hin. destruct Hin; assumption.
Qed.

Lemma appended_wf : forall shard shard' b sb,
  appended shard shard' b sb ->
  wf_shard shard -> wf_shard shard'.
Proof.
  intros shard shard' b sb (Hps & _ & Hbl & Hbr & Hrr & Hsb & _) [Hw Hv].
  split.
  - rewrite Hbl, Hps. apply Forall_app. split; [exact Hw|].
    constructor; [exact Hsb|constructor].
  - rewrite Hrr, Hbl. apply Forall_app. split.
    + eapply Forall_impl; [|exact Hv]. intros rr. apply validRef_app.
    + apply Forall_forall. intros rr Hin. apply in_map_iff in Hin.
      destruct Hin as (i & <- & Hi). apply in_seq in Hi.
      exists sb. simpl. split.
      * rewrite nth_error_app2 by lia. rewrite Nat.sub_diag. reflexivity.
      * rewrite Hbr. lia.
Qed.

Lemma appended_rows : forall shard shard' b sb,
  appended shard shard' b sb ->
  Permutation (rowRefs shard) (blockRows (blocks shard) 0) ->
  Permutation (rowRefs shard') (blockRows (blocks shard') 0).
Proof.
  intros shard shard' b sb (_ & _ & Hbl & Hbr & Hrr & _) Hp.
  rewrite Hrr, Hbl, blockRows_app, Hbr. simpl.
  apply Permutation_app; [exact Hp|]. apply Permutation_refl.
Qed.

Lemma appended_timeNil : forall shard shard' b sb,
  appended shard shard' b sb ->
  timeColumnsNil shard -> timeColumnsNil shard'.
Proof.
  intros shard shard' b sb (_ & _ & Hbl & _ & _ & _ & Ht) H.
  unfold timeColumnsNil in *. rewrite Hbl. apply Forall_app. split; [exact H|].
  constructor; [exact Ht|constructor].
Qed.

(** ** The budget controller *)

(** The loop of [writeBlock] as the spec words it: while the budget of the
    shard is negative, one chunk is subtracted from the global budget; a
    negative result refuses the block, and [cancel] is called when this
    subtraction took the global budget from non-negative to negative;
    otherwise the chunk is credited to the shard and the check repeats. The
    outcome is the global budget, the calls of [cancel], the budget of the
    shard and whether the block is ingested. *)
Inductive stealSpec : Z -> nat -> Z -> Z * nat * Z * bool -> Prop :=
| steal_enough : forall g cancels sb,
    (0 <= sb)%Z ->
    stealSpec g cancels sb (g, cancels, sb, true)
| steal_refuse_cancel : forall g cancels sb,
    (sb < 0)%Z ->
    (wrap64 (g - stateSizeBudgetChunk) < 0)%Z ->
    (0 <= g)%Z ->
    stealSpec g cancels sb (wrap64 (g - stateSizeBudgetChunk), S cancels, sb, false)
| steal_refuse : forall g cancels sb,
    (sb < 0)%Z ->
    (wrap64 (g - stateSizeBudgetChunk) < 0)%Z ->
    (g < 0)%Z ->
    stealSpec g cancels sb (wrap64 (g - stateSizeBudgetChunk), cancels, sb, false)
| steal_credit : forall g cancels sb r,
    (sb < 0)%Z ->
    (0 <= wrap64 (g - stateSizeBudgetChunk))%Z ->
    stealSpec (wrap64 (g - stateSizeBudgetChunk)) cancels (sb + stateSizeBudgetChunk)%Z r ->
    stealSpec g cancels sb r.

Definition int64_range (z : Z) : Prop :=
  (- 9223372036854775808 <= z < 9223372036854775808)%Z.

Definition chunk_ok : Prop :=
  (0 < stateSizeBudgetChunk < 9223372036854775808)%Z.

Lemma cancel_condition : forall g,
  chunk_ok -> int64_range g ->
  (wrap64 (g - stateSizeBudgetChunk) < 0)%Z ->
  (add64 (wrap64 (g - stateSizeBudgetChunk)) stateSizeBudgetChunk >=? 0)%Z
  = (0 <=? g)%Z.
Proof.
  intros g Hc Hg Hneg. unfold chunk_ok, int64_range in *.
  destruct (Z_lt_le_dec (g - stateSizeBudgetChunk) (- 9223372036854775808)) as [Hlow|Hlow].
  - exfalso. unfold wrap64 in Hneg. rewrite two63, two64 in Hneg.
    replace (g - stateSizeBudgetChunk + 9223372036854775808)%Z
      with ((g - stateSizeBudgetChunk + 9223372036854775808 + 18446744073709551616)
            + (-1) * 18446744073709551616)%Z in Hneg by lia.
    rewrite Z.mod_add in Hneg by lia.
    rewrite Z.mod_small in Hneg; lia.
  - rewrite (wrap64_small (g - stateSizeBudgetChunk)) in * by lia.
    unfold add64.
    replace (g - stateSizeBudgetChunk + stateSizeBudgetChunk)%Z with g by lia.
    rewrite wrap64_small by lia.
    rewrite Z.geb_leb. reflexivity.
Qed.

Lemma stealBudget_spec : forall fuel g cancels sb r,
  chunk_ok -> int64_range g -> int64_range sb ->
  stealBudget fuel g cancels sb = Ok r ->
  stealSpec g cancels sb r.
Proof.
  intros fuel. induction fuel as [|fuel IH]; intros g cancels sb r Hc Hg Hsb H;
    simpl in H; destruct (Z.ltb_spec sb 0) as [Hneg|Hpos]; try discriminate.
  - inversion H; subst. apply steal_enough. exact Hpos.
  - assert (Hrem : add64 g (- stateSizeBudgetChunk) = wrap64 (g - stateSizeBudgetChunk)).
    { reflexivity. }
    rewrite Hrem in H.
    destruct (Z.ltb_spec (wrap64 (g - stateSizeBudgetChunk)) 0) as [Hr|Hr].
    + rewrite (cancel_condition g Hc Hg Hr) in H.
      destruct (Z.leb_spec 0 g); inversion H; subst.
      * apply steal_refuse_cancel; assumption.
      * apply steal_refuse; assumption.
    + apply steal_credit; try assumption.
      unfold chunk_ok, int64_range in *.
      apply IH; try assumption.
      * apply wrap64_range.
      * lia.
      * unfold add64 in H. rewrite (wrap64_small (sb + stateSizeBudgetChunk)) in H by lia.
        exact H.
  - inversion H; subst. apply steal_enough. exact Hpos.
Qed.

Lemma stealBudget_terminates : forall fuel g cancels sb,
  chunk_ok -> int64_range sb ->
  ((sb < 0)%Z -> ((- sb - 1) / stateSizeBudgetChunk < Z.of_nat fuel)%Z) ->
  exists r, stealBudget fuel g cancels sb = Ok r.
Proof.
  intros fuel. induction fuel as [|fuel IH]; intros g cancels sb Hc Hsb Hfuel;
    simpl; destruct (Z.ltb_spec sb 0) as [Hneg|Hpos]; eauto.
  - exfalso. specialize (Hfuel Hneg). unfold chunk_ok in Hc.
    assert (0 <= (- sb - 1) / stateSizeBudgetChunk)%Z by (apply Z.div_pos; lia).
    simpl in Hfuel. lia.
  - destruct (add64 g (- stateSizeBudgetChunk) <? 0)%Z.
    + destruct (add64 (add64 g (- stateSizeBudgetChunk)) stateSizeBudgetChunk >=? 0)%Z;
        eauto.
    + unfold chunk_ok, int64_range in *.
      unfold add64 at 2. rewrite (wrap64_small (sb + stateSizeBudgetChunk)) by lia.
      apply IH; try assumption; try (unfold int64_range; lia).
      intros Hneg'. specialize (Hfuel Hneg).
      replace (- (sb + stateSizeBudgetChunk) - 1)%Z
        with ((- sb - 1) + (-1) * stateSizeBudgetChunk)%Z by lia.
      rewrite Z.div_add by lia. lia.
Qed.

Lemma stealFuel_enough : forall sb,
  chunk_ok -> (sb < 0)%Z ->
  ((- sb - 1) / stateSizeBudgetChunk < Z.of_nat (stealFuel sb))%Z.
Proof.
  intros sb Hc Hneg. unfold stealFuel, chunk_ok in *.
  rewrite Nat2Z.inj_succ, Z2Nat.id by (apply Z.div_pos; lia).
  assert ((- sb - 1) / stateSizeBudgetChunk <= (- sb) / stateSizeBudgetChunk)%Z.
  { apply Z.div_le_mono; lia. }
  lia.
Qed.

Lemma Forall_set_nth : forall (A : Type) (P : A -> Prop) l i x,
  Forall P l -> P x -> Forall P (set_nth l i x).
Proof.
  intros A P l. induction l as [|h t IH]; intros i x Hl Hx; simpl.
  - destruct i; constructor.
  - inversion Hl; subst. destruct i; constructor; auto.
Qed.

(** The invariant of the processors that are reachable. *)
Definition inv_processor (psp : pipeSortProcessor) : Prop :=
  wf_processor psp /\ Forall timeColumnsNil (shards psp).

Lemma writeBlock_inv : forall psp workerID b psp',
  wf_block b ->
  writeBlock psp workerID b = Ok psp' ->
  inv_processor psp ->
  psp_ps psp' = psp_ps psp /\ inv_processor psp'.
Proof.
  intros psp workerID b psp' Hb H [Hwf Htn]. unfold writeBlock in H.
  destruct (length (timestamps b) =? 0).
  { inversion H; subst. split; [reflexivity|split; assumption]. }
  apply bind_Ok in H. destruct H as (shard & Es & H).
  apply bind_Ok in H. destruct H as ([[[g cancels] sb] go] & _ & H).
  apply index_Ok in Es.
  assert (Hin : In shard (shards psp)) by (eapply nth_error_In; eauto).
  unfold wf_processor in Hwf.
  destruct (proj1 (Forall_forall _ _) Hwf shard Hin) as (Hps & Hws & Hperm).
  pose proof (proj1 (Forall_forall _ _) Htn shard Hin) as Hts.
  destruct go.
  - destruct (shard_writeBlock_spec (with_stateSizeBudget shard sb) b Hb)
      as (shard2 & sblk & E2 & Happ).
    rewrite E2 in H. cbn [bind] in H. inversion H; subst psp'. clear H.
    split; [reflexivity|]. split.
    + unfold wf_processor. simpl. apply Forall_set_nth; [exact Hwf|].
      split; [|split].
      * destruct Happ as (A1 & _). simpl in A1. congruence.
      * eapply appended_wf; [exact Happ|]. exact Hws.
      * eapply appended_rows; [exact Happ|]. exact Hperm.
    + simpl. apply Forall_set_nth; [exact Htn|].
      eapply appended_timeNil; [exact Happ|]. exact Hts.
  - inversion H; subst psp'. clear H.
    split; [reflexivity|]. split.
    + unfold wf_processor. simpl. apply Forall_set_nth; [exact Hwf|].
      split; [|split]; assumption.
    + simpl. apply Forall_set_nth; [exact Htn|]. exact Hts.
Qed.

Lemma newPipeProcessor_inv : forall p workersCount allowed,
  inv_processor (newPipeProcessor p workersCount allowed)
  /\ psp_ps (newPipeProcessor p workersCount allowed) = p.
Proof.
  intros p workersCount allowed. split; [|reflexivity]. split.
  - unfold wf_processor. simpl. apply Forall_forall. intros s Hs.
    apply repeat_spec in Hs. subst s. simpl.
    repeat split; constructor.
  - simpl. apply Forall_forall. intros s Hs.
    apply repeat_spec in Hs. subst s. constructor.
Qed.

Lemma reachable_inv : forall p psp,
  reachable p psp -> inv_processor psp /\ psp_ps psp = p.
Proof.
  intros p psp H. induction H as [w a | psp w b psp' Hr [IH1 IH2] Hb Hw].
  - apply newPipeProcessor_inv.
  - destruct (writeBlock_inv psp w b psp' Hb Hw IH1) as [E Hinv].
    split; [exact Hinv|congruence].
Qed.

(** C9. In every processor built by [newPipeProcessor] and [writeBlock] from
    well-formed blocks, the side arrays of the time columns are [nil]; a
    comparison in which either column is a time column does not depend on the
    side arrays of the two columns, so it reads none of them; and no
    comparison of two rows of the processor panics: every array access it
    makes is in range. *)
Theorem timeColumns_never_indexed : forall p psp,
  reachable p psp ->
  Forall timeColumnsNil (shards psp)
  /\ (forall desc bA cA rrA bB cB rrB i64A f64A i64B f64B,
        isTime (c cA) || isTime (c cB) = true ->
        lessAtKey desc bA cA rrA bB cB rrB =
        lessAtKey desc
          bA {| c := c cA; i64Values := i64A; f64Values := f64A |} rrA
          bB {| c := c cB; i64Values := i64B; f64Values := f64B |} rrB)
  /\ (forall a b shardA shardB iA iB,
        nth_error (shards psp) a = Some shardA ->
        nth_error (shards psp) b = Some shardB ->
        iA < length (rowRefs shardA) -> iB < length (rowRefs shardB) ->
        exists r, sortBlockLess shardA iA shardB iB = Ok r).
Proof.
  intros p psp Hr. apply reachable_inv in Hr. destruct Hr as [[Hwf Htn] Hps].
  split; [exact Htn|]. split.
  - intros desc bA cA rrA bB cB rrB i64A f64A i64B f64B Ht.
    unfold lessAtKey. cbn [c].
    destruct (isConst (c cA) && isConst (c cB)); [reflexivity|].
    destruct (isTime (c cA)), (isTime (c cB)); cbn [andb orb] in *;
      try reflexivity; discriminate.
  - intros a b shardA shardB iA iB EA EB HiA HiB.
    unfold wf_processor in Hwf. rewrite Forall_forall in Hwf.
    destruct (Hwf shardA (nth_error_In _ _ EA)) as (PA & WA & _).
    destruct (Hwf shardB (nth_error_In _ _ EB)) as (PB & WB & _).
    apply sortBlockLess_total; try assumption. congruence.
Qed.

(** C4, amended. On a [writeBlock] call with a block that has rows, for a
    shard whose budget is negative, the loop of the budget controller runs as
    the spec words it ([stealSpec]) and ends; when it refuses the block, the
    shard keeps its blocks and row references and only its budget has the
    chunks credited before the refusal; otherwise the block is ingested into
    the shard with the credited budget. *)
Theorem writeBlock_steals_budget : forall psp workerID b shard,
  chunk_ok ->
  int64_range (psp_stateSizeBudget psp) ->
  int64_range (stateSizeBudget shard) ->
  timestamps b <> [] ->
  nth_error (shards psp) workerID = Some shard ->
  (stateSizeBudget shard < 0)%Z ->
  exists g cancels sb go,
    stealSpec (psp_stateSizeBudget psp) (cancelCalls psp) (stateSizeBudget shard)
      (g, cancels, sb, go)
    /\ (go = false ->
        writeBlock psp workerID b =
          Ok (with_shards (with_budget psp g cancels)
                (set_nth (shards psp) workerID (with_stateSizeBudget shard sb))))
    /\ (go = true ->
        writeBlock psp workerID b =
          (shard2 <- shard_writeBlock (with_stateSizeBudget shard sb) b ;;
           Ok (with_shards (with_budget psp g cancels)
                 (set_nth (shards psp) workerID shard2)))).
Proof.
  intros psp workerID b shard Hc Hg Hsb Hb Es Hneg.
  destruct (stealBudget_terminates (stealFuel (stateSizeBudget shard))
              (psp_stateSizeBudget psp) (cancelCalls psp) (stateSizeBudget shard)
              Hc Hsb) as ([[[g cancels] sb] go] & E).
  { intros _. apply stealFuel_enough; assumption. }
  exists g, cancels, sb, go. split.
  - eapply stealBudget_spec; eauto.
  - assert (Hw : writeBlock psp workerID b =
                 if go then
                   shard2 <- shard_writeBlock (with_stateSizeBudget shard sb) b ;;
                   Ok (with_shards (with_budget psp g cancels)
                         (set_nth (shards psp) workerID shard2))
                 else
                   Ok (with_shards (with_budget psp g cancels)
                         (set_nth (shards psp) workerID
                            (with_stateSizeBudget shard sb)))).
    { unfold writeBlock.
      destruct (timestamps b) as [|t ts]; [congruence|]. cbn [length Nat.eqb].
      apply index_Ok in Es. rewrite Es. cbn [bind]. rewrite E. cbn [bind].
      reflexivity. }
    split; intros ->; exact Hw.
Qed.

Lemma mapM_id : forall (A : Type) (f : A -> res A) l,
  (forall x, In x l -> f x = Ok x) -> mapM f l = Ok l.
Proof.
  intros A f l. induction l as [|x t IH]; intros H; simpl; [reflexivity|].
  rewrite (H x) by (left; reflexivity). cbn [bind].
  rewrite IH by (intros; apply H; right; assumption). reflexivity.
Qed.

Lemma nonEmptyShards_nil : forall ss,
  Forall (fun s => rowRefs s = []) ss -> nonEmptyShards ss = [].
Proof.
  intros ss H. unfold nonEmptyShards.
  assert (G : forall l, filter (fun i => match nth_error ss i with
                                         | Some s => Nat.ltb 0 (shard_Len s)
                                         | None => false
                                         end) l = []).
  { induction l as [|i l IH]; simpl; [reflexivity|].
    destruct (nth_error ss i) as [s|] eqn:E; [|exact IH].
    rewrite Forall_forall in H. unfold shard_Len.
    rewrite (H s (nth_error_In _ _ E)). simpl. exact IH. }
  apply G.
Qed.

(** C8, amended. A [writeBlock] call with a block of zero timestamps leaves the
    processor as it is; and when the shards hold no row and the global budget
    is positive, [flush] returns nil, writes no block to [ppBase] and no
    row. *)
Theorem emptyBlock_dropped_emptyFlush_nil :
  (forall psp workerID b,
     timestamps b = [] -> writeBlock psp workerID b = Ok psp)
  /\ (forall stopCh psp,
        Forall (fun s => rowRefs s = []) (shards psp) ->
        (0 < psp_stateSizeBudget psp)%Z ->
        exists r, flush stopCh psp = Ok r
                  /\ f_err r = None
                  /\ ppBase (f_psp r) = ppBase psp
                  /\ f_written r = []).
Proof.
  split.
  - intros psp workerID b Hb. unfold writeBlock. rewrite Hb. reflexivity.
  - intros stopCh psp Hs Hg. unfold flush.
    destruct (Z.leb_spec (psp_stateSizeBudget psp) 0); [lia|].
    destruct (stopCh 0); [eexists; repeat split|].
    rewrite mapM_id.
    + cbn [bind]. destruct (stopCh 1); [eexists; repeat split|].
      rewrite (nonEmptyShards_nil _ Hs). cbn [length Nat.eqb].
      eexists; repeat split.
    + intros s Hin. rewrite Forall_forall in Hs. unfold sort_Sort, shard_Len.
      rewrite (Hs s Hin). reflexivity.
Qed.

(** The result of [flush] by the global budget at its entry: the error, with
    its one sentence, when the budget is not positive, whatever [stopCh] says;
    no error otherwise; and nil at once when [stopCh] is closed at the
    entry. *)
Lemma flush_error_cases : forall stopCh psp,
  ((psp_stateSizeBudget psp <= 0)%Z ->
   flush stopCh psp =
     Ok {| f_err := Some (flushError psp); f_psp := psp; f_written := [] |})
  /\ (forall r, flush stopCh psp = Ok r ->
        (f_err r <> None <-> (psp_stateSizeBudget psp <= 0)%Z)
        /\ (f_err r <> None -> f_err r = Some (flushError psp)))
  /\ ((0 < psp_stateSizeBudget psp)%Z -> stopCh 0 = true ->
      flush stopCh psp = Ok {| f_err := None; f_psp := psp; f_written := [] |})
  /\ flushError psp =
       ("cannot calculate [" ++ pipeSort_String (psp_ps psp)
        ++ "], since it requires more than "
        ++ formatInt (Z.quot (maxStateSize psp) 1048576)
        ++ "MB of memory")%string.
Proof.
  intros stopCh psp. split; [|split; [|split]].
  - intros H. unfold flush.
    destruct (Z.leb_spec (psp_stateSizeBudget psp) 0); [reflexivity|lia].
  - intros r H. unfold flush in H.
    destruct (Z.leb_spec (psp_stateSizeBudget psp) 0) as [Hle|Hgt].
    + inversion H; subst r. simpl. split; [split; [auto|discriminate]|auto].
    + assert (Hnone : f_err r = None).
      { destruct (stopCh 0); [inversion H; reflexivity|].
        apply bind_Ok in H. destruct H as (ss & _ & H).
        destruct (stopCh 1); [inversion H; reflexivity|].
        destruct (length (nonEmptyShards ss) =? 0); [inversion H; reflexivity|].
        apply bind_Ok in H. destruct H as (sh & _ & H).
        apply bind_Ok in H. destruct H as ([st ex] & _ & H).
        destruct ex; [inversion H; reflexivity|].
        apply bind_Ok in H. destruct H as (st1 & _ & H).
        destruct (wctx_flush (m_wctx st1) (m_out st1)).
        inversion H; reflexivity. }
      rewrite Hnone. split; [split; [congruence|lia]|congruence].
  - intros Hg Hs. unfold flush.
    destruct (Z.leb_spec (psp_stateSizeBudget psp) 0); [lia|].
    rewrite Hs. reflexivity.
  - reflexivity.
Qed.

(** ** The output batcher *)

(** The values of a row in the order of the output columns: the [by] columns,
    then the other columns. *)
Definition keyValueAt (b : sortBlock) (row : nat) (i : nat) : res string :=
  bc <- index (byColumns b) i ;;
  getValueAtRow (c bc) (br b) row.

Definition rowValues (b : sortBlock) (row : nat) (bfs : list bySortField)
  : res (list string) :=
  ks <- mapM (keyValueAt b row) (seq 0 (length bfs)) ;;
  os <- mapM (fun col => getValueAtRow col (br b) row) (otherColumns b) ;;
  Ok (ks ++ os).

(** The values [vs] added to the columns [k], [k + 1], ... *)
Fixpoint addFrom (k : nat) (rs : list resultColumn) (vs : list string)
  : list resultColumn :=
  match vs with
  | [] => rs
  | v :: t =>
      match nth_error rs k with
      | Some rc => addFrom (S k) (set_nth rs k (addValue rc v)) t
      | None => rs
      end
  end.

Definition addBytes (z : Z) (vs : list string) : Z :=
  fold_left (fun acc v => add64 acc (strlenZ v)) vs z.

(** The shape of the batch under construction is the one of block [b]: as many
    columns, and the names of the other columns in order. *)
Definition sameShape (rs : list resultColumn) (bfs : list bySortField)
  (b : sortBlock) : Prop :=
  length rs = length bfs + length (otherColumns b)
  /\ map rc_name (skipn (length bfs) rs) = map name (otherColumns b).



Lemma appendKeys_spec : forall b row n k acc acc',
  appendKeys b row (seq k n) acc = Ok acc' ->
  exists vs, mapM (keyValueAt b row) (seq k n) = Ok vs
             /\ acc' = (addFrom k (fst acc) vs, addBytes (snd acc) vs).
Proof.
  intros b row n. induction n as [|n IH]; intros k acc acc' H; simpl in H.
  - inversion H; subst. exists []. destruct acc'; split; reflexivity.
  - apply bind_Ok in H. destruct H as (bc & Ebc & H).
    apply bind_Ok in H. destruct H as (v & Ev & H).
    apply bind_Ok in H. destruct H as (acc1 & Ea & H).
    unfold addAt in Ea. apply bind_Ok in Ea. destruct Ea as (rc & Erc & Ea).
    inversion Ea; subst acc1. clear Ea.
    apply IH in H. destruct H as (vs & Evs & ->).
    exists (v :: vs). split.
    + simpl. unfold keyValueAt at 1. rewrite Ebc. cbn [bind]. rewrite Ev.
      cbn [bind]. rewrite Evs. reflexivity.
    + simpl. apply index_Ok in Erc. rewrite Erc. reflexivity.
Qed.

Lemma appendOthers_spec : forall b row nk cols i acc acc',
  appendOthers b row nk cols i acc = Ok acc' ->
  exists vs, mapM (fun col => getValueAtRow col (br b) row) cols = Ok vs
             /\ acc' = (addFrom (nk + i) (fst acc) vs, addBytes (snd acc) vs).
Proof.
  intros b row nk cols. induction cols as [|col rest IH]; intros i acc acc' H;
    simpl in H.
  - inversion H; subst. exists []. destruct acc'; split; reflexivity.
  - apply bind_Ok in H. destruct H as (v & Ev & H).
    apply bind_Ok in H. destruct H as (acc1 & Ea & H).
    unfold addAt in Ea. apply bind_Ok in Ea. destruct Ea as (rc & Erc & Ea).
    inversion Ea; subst acc1. clear Ea.
    apply IH in H. destruct H as (vs & Evs & ->).
    exists (v :: vs). split.
    + simpl. rewrite Ev. cbn [bind]. rewrite Evs. reflexivity.
    + simpl. apply index_Ok in Erc. rewrite Erc.
      replace (nk + S i) with (S (nk + i)) by lia. reflexivity.
Qed.


Lemma namesMatch_spec : forall others rs,
  length rs = length others ->
  (namesMatch rs others = true <-> map rc_name rs = map name others).
Proof.
  intros others. induction others as [|col t IH]; intros rs Hl.
  - destruct rs; [|discriminate]. simpl. split; reflexivity.
  - destruct rs as [|rc r]; [discriminate|]. simpl in *.
    destruct (String.eqb_spec (rc_name rc) (name col)) as [E|E].
    + rewrite IH by lia. split; intro H; [congruence|inversion H; reflexivity].
    + split; intro H; [discriminate|inversion H; contradiction].
Qed.

Lemma areEqualColumns_spec : forall rs bfs b,
  areEqualColumns rs bfs b = true <-> sameShape rs bfs b.
Proof.
  intros rs bfs b. unfold areEqualColumns, sameShape.
  rewrite andb_true_iff, Nat.eqb_eq. split; intros [Hl Hn]; split; try exact Hl.
  - apply namesMatch_spec; [rewrite length_skipn; lia|exact Hn].
  - apply namesMatch_spec; [rewrite length_skipn; lia|exact Hn].
Qed.

Lemma freshColumns_names : forall bfs b,
  map rc_name (freshColumns bfs b) = map bf_name bfs ++ map name (otherColumns b).
Proof.
  intros bfs b. unfold freshColumns. rewrite map_app, !map_map. reflexivity.
Qed.

Lemma firstn_skipn_names : forall (rs : list resultColumn) n,
  map rc_name rs = map rc_name (firstn n rs) ++ map rc_name (skipn n rs).
Proof. intros rs n. rewrite <- map_app, firstn_skipn. reflexivity. Qed.


(** ** Swaps *)

Lemma swap_spec : forall (A : Type) (l : list A) i j a b,
  nth_error l i = Some a -> nth_error l j = Some b ->
  swap l i j = Ok (set_nth (set_nth l i b) j a).
Proof.
  intros A l i j a b Ha Hb. unfold swap.
  apply index_Ok in Ha, Hb. rewrite Ha. cbn [bind]. rewrite Hb. reflexivity.
Qed.

Lemma swap_inv : forall (A : Type) (l l' : list A) i j,
  swap l i j = Ok l' ->
  exists a b, nth_error l i = Some a /\ nth_error l j = Some b
              /\ l' = set_nth (set_nth l i b) j a.
Proof.
  intros A l l' i j H. unfold swap in H.
  apply bind_Ok in H. destruct H as (a & Ha & H).
  apply bind_Ok in H. destruct H as (b & Hb & H).
  apply index_Ok in Ha, Hb. inversion H. eauto.
Qed.

Lemma perm_cons_set_nth : forall (A : Type) (t : list A) j a b,
  nth_error t j = Some b -> Permutation (a :: t) (b :: set_nth t j a).
Proof.
  intros A t. induction t as [|h t IH]; intros [|j] a b H; simpl in H;
    try discriminate.
  - inversion H; subst. simpl. apply perm_swap.
  - simpl. eapply perm_trans; [apply perm_swap|].
    eapply perm_trans; [apply perm_skip; apply (IH j a b H)|]. apply perm_swap.
Qed.

Lemma set_nth_swap_perm : forall (A : Type) (l : list A) i j a b,
  nth_error l i = Some a -> nth_error l j = Some b ->
  Permutation l (set_nth (set_nth l i b) j a).
Proof.
  intros A l. induction l as [|h t IH]; intros [|i] [|j] a b Ha Hb;
    simpl in Ha, Hb; try discriminate; simpl.
  - inversion Ha; inversion Hb; subst. apply Permutation_refl.
  - inversion Ha; subst. apply perm_cons_set_nth. exact Hb.
  - inversion Hb; subst. apply perm_cons_set_nth. exact Ha.
  - apply perm_skip. apply IH; assumption.
Qed.

Lemma swap_perm : forall (A : Type) (l l' : list A) i j,
  swap l i j = Ok l' -> Permutation l l'.
Proof.
  intros A l l' i j H. apply swap_inv in H.
  destruct H as (a & b & Ha & Hb & ->). apply set_nth_swap_perm; assumption.
Qed.

Lemma swap_length : forall (A : Type) (l l' : list A) i j,
  swap l i j = Ok l' -> length l' = length l.
Proof.
  intros A l l' i j H. apply swap_perm in H.
  symmetry. apply Permutation_length. exact H.
Qed.

Lemma swap_nth : forall (A : Type) (l l' : list A) i j,
  swap l i j = Ok l' ->
  nth_error l' i = nth_error l j
  /\ nth_error l' j = nth_error l i
  /\ (forall k, k <> i -> k <> j -> nth_error l' k = nth_error l k).
Proof.
  intros A l l' i j H. apply swap_inv in H.
  destruct H as (a & b & Ha & Hb & ->).
  assert (Hi : i < length l) by (apply nth_error_Some; congruence).
  assert (Hj : j < length l) by (apply nth_error_Some; congruence).
  destruct (Nat.eq_dec i j) as [->|Hne].
  - rewrite nth_error_set_nth_eq by (rewrite set_nth_length; exact Hj).
    repeat split; try congruence.
    intros k Hk _. rewrite !nth_error_set_nth_neq by congruence. reflexivity.
  - repeat split.
    + rewrite nth_error_set_nth_neq by congruence.
      rewrite nth_error_set_nth_eq by exact Hi. congruence.
    + rewrite nth_error_set_nth_eq by (rewrite set_nth_length; exact Hj). congruence.
    + intros k Hki Hkj. rewrite !nth_error_set_nth_neq by congruence. reflexivity.
Qed.

(** ** Sorting a shard *)

(** [a] does not come after [b] in the order of the comparator, for two rows of
    one shard. *)
Definition leRef (s : pipeSortProcessorShard) (a b : sortRowRef) : Prop :=
  lessRowRefs s b s a = Ok false.

(** Adjacent row references of [l] are in order. *)
Definition chainRefs (s : pipeSortProcessorShard) (l : list sortRowRef) : Prop :=
  forall k x y, nth_error l k = Some x -> nth_error l (S k) = Some y -> leRef s x y.

Definition sortable (s : pipeSortProcessorShard) (l : list sortRowRef) : Prop :=
  Forall (wf_sortBlock (ps s)) (blocks s) /\ Forall (validRef (blocks s)) l.

Lemma with_rowRefs_id : forall s, with_rowRefs s (rowRefs s) = s.
Proof. intros []. reflexivity. Qed.

Lemma shard_Less_refs : forall s l i j x y,
  nth_error l i = Some x -> nth_error l j = Some y ->
  shard_Less (with_rowRefs s l) i j = lessRowRefs s x s y.
Proof.
  intros s l i j x y Hx Hy. unfold shard_Less, sortBlockLess. cbn [rowRefs with_rowRefs].
  apply index_Ok in Hx, Hy. rewrite Hx. cbn [bind]. rewrite Hy. reflexivity.
Qed.

Lemma sortable_total : forall s l x y,
  sortable s l -> In x l -> In y l ->
  exists b, lessRowRefs s x s y = Ok b.
Proof.
  intros s l x y [Hb Hv] Hx Hy. rewrite Forall_forall in Hv.
  apply lessRowRefs_total; auto.
Qed.

Lemma sortable_perm : forall s l l',
  Permutation l l' -> sortable s l -> sortable s l'.
Proof.
  intros s l l' Hp [Hb Hv]. split; [exact Hb|].
  eapply Permutation_Forall; eauto.
Qed.

Lemma leRef_of_less : forall s l x y,
  sortable s l -> In x l -> In y l ->
  lessRowRefs s x s y = Ok true -> leRef s x y.
Proof.
  intros s l x y Hs Hx Hy H. unfold leRef.
  destruct (sortable_total s l y x Hs Hy Hx) as [[|] E]; [|exact E].
  exfalso. eapply lessRowRefs_asym; eauto.
Qed.

(** The invariant of the inner loop of [insertionSort]: the element that moves
    down is at [j]; up to [i], adjacent elements are in order but for the pair
    that ends at [j], and the neighbours of [j] are in order. *)
Definition insertInv (s : pipeSortProcessorShard) (l : list sortRowRef) (j i : nat)
  : Prop :=
  (forall k x y, S k <= i -> k <> j -> S k <> j ->
     nth_error l k = Some x -> nth_error l (S k) = Some y -> leRef s x y)
  /\ (forall x y, S j <= i ->
        nth_error l j = Some x -> nth_error l (S j) = Some y -> leRef s x y)
  /\ (forall j' x y, j = S j' -> S j <= i ->
        nth_error l j' = Some x -> nth_error l (S j) = Some y -> leRef s x y).

Definition sortedUpTo (s : pipeSortProcessorShard) (l : list sortRowRef) (i : nat)
  : Prop :=
  forall k x y, S k <= i ->
    nth_error l k = Some x -> nth_error l (S k) = Some y -> leRef s x y.

Lemma insertDown_spec : forall s j l i,
  sortable s l -> j <= i -> i < length l ->
  insertInv s l j i ->
  exists l', insertDown (with_rowRefs s l) j = Ok (with_rowRefs s l')
             /\ Permutation l l' /\ sortedUpTo s l' i.
Proof.
  intros s j. induction j as [|j IH]; intros l i Hs Hji Hi (Ha & Hb & Hc).
  - exists l. simpl. split; [reflexivity|]. split; [apply Permutation_refl|].
    intros k x y Hk Hx Hy.
    destruct (Nat.eq_dec k 0) as [->|Hk0].
    + apply Hb; assumption.
    + eapply Ha; eauto.
  - simpl.
    destruct (nth_error l (S j)) as [x|] eqn:Ex;
      [|apply nth_error_None in Ex; lia].
    destruct (nth_error l j) as [y|] eqn:Ey;
      [|apply nth_error_None in Ey; lia].
    rewrite (shard_Less_refs s l (S j) j x y Ex Ey).
    assert (Hinx : In x l) by (eapply nth_error_In; eauto).
    assert (Hiny : In y l) by (eapply nth_error_In; eauto).
    destruct (sortable_total s l x y Hs Hinx Hiny) as [[|] Elt]; rewrite Elt; cbn [bind].
    + (* the element moves down *)
      unfold shard_Swap. cbn [rowRefs with_rowRefs].
      rewrite (swap_spec _ l (S j) j x y Ex Ey). cbn [bind].
      set (l1 := set_nth (set_nth l (S j) y) j x).
      assert (Hsw : swap l (S j) j = Ok l1) by (apply swap_spec; assumption).
      pose proof (swap_perm _ _ _ _ _ Hsw) as Hp.
      destruct (swap_nth _ _ _ _ _ Hsw) as (N1 & N2 & N3).
      replace (with_rowRefs (with_rowRefs s l) l1) with (with_rowRefs s l1)
        by reflexivity.
      destruct (IH l1 i) as (l' & E' & Hp' & Hsorted).
      * eapply sortable_perm; eauto.
      * lia.
      * rewrite (swap_length _ _ _ _ _ Hsw). exact Hi.
      * split; [|split].
        -- intros k a b Hk Hkj HSk Ea Eb.
           destruct (Nat.eq_dec k (S j)) as [->|Hk1].
           ++ rewrite N1, Ey in Ea. inversion Ea; subst a.
              rewrite N3 in Eb by lia.
              eapply (Hc j); eauto.
           ++ rewrite N3 in Ea by lia. rewrite N3 in Eb by lia.
              eapply Ha; eauto; lia.
        -- intros a b _ Ea Eb. rewrite N2, Ex in Ea. rewrite N1, Ey in Eb.
           inversion Ea; inversion Eb; subst.
           eapply leRef_of_less; eauto.
        -- intros j' a b -> _ Ea Eb.
           rewrite N3 in Ea by lia. rewrite N1, Ey in Eb. inversion Eb; subst b.
           eapply (Ha j'); eauto; lia.
      * exists l'. split; [exact E'|]. split; [|exact Hsorted].
        eapply perm_trans; eauto.
    + (* the element stays *)
      exists l. split; [reflexivity|]. split; [apply Permutation_refl|].
      intros k a b Hk Ea Eb.
      destruct (Nat.eq_dec (S k) (S j)) as [E|Hne].
      * inversion E; subst k. rewrite Ey in Ea. rewrite Ex in Eb.
        inversion Ea; inversion Eb; subst. exact Elt.
      * destruct (Nat.eq_dec k (S j)) as [->|Hk1].
        -- rewrite Ex in Ea. apply (Hb a b); auto.
        -- eapply Ha; eauto.
Qed.

Lemma insertionSortLoop_spec : forall s n i l,
  sortable s l -> 1 <= i -> i + n = length l -> sortedUpTo s l (i - 1) ->
  exists l', insertionSortLoop (with_rowRefs s l) (seq i n) = Ok (with_rowRefs s l')
             /\ Permutation l l' /\ sortedUpTo s l' (length l - 1).
Proof.
  intros s n. induction n as [|n IH]; intros i l Hs Hi Hlen Hsorted.
  - exists l. simpl. split; [reflexivity|]. split; [apply Permutation_refl|].
    replace (length l - 1) with (i - 1) by lia. exact Hsorted.
  - simpl.
    destruct (insertDown_spec s i l i) as (l1 & E1 & Hp1 & Hs1); try assumption; try lia.
    { split; [|split].
      - intros k x y Hk Hki HSk Ex Ey. eapply Hsorted; eauto. lia.
      - intros x y Hk. lia.
      - intros j' x y _ Hk. lia. }
    rewrite E1. cbn [bind].
    destruct (IH (S i) l1) as (l' & E' & Hp' & Hs').
    + eapply sortable_perm; eauto.
    + lia.
    + rewrite <- (Permutation_length Hp1). lia.
    + replace (S i - 1) with i by lia. exact Hs1.
    + exists l'. split; [exact E'|]. split; [eapply perm_trans; eauto|].
      rewrite (Permutation_length Hp1). exact Hs'.
Qed.

Lemma sortedUpTo_chain : forall s l,
  sortedUpTo s l (length l - 1) -> chainRefs s l.
Proof.
  intros s l H k x y Hx Hy. eapply H; eauto.
  assert (S k < length l) by (apply nth_error_Some; congruence). lia.
Qed.

Lemma insertionSort_spec : forall s,
  sortable s (rowRefs s) ->
  exists l', insertionSort s = Ok (with_rowRefs s l')
             /\ Permutation (rowRefs s) l' /\ chainRefs s l'.
Proof.
  intros s Hs. unfold insertionSort, shard_Len.
  destruct (rowRefs s) as [|rr t] eqn:E.
  - exists []. simpl.
    split; [f_equal; rewrite <- E; symmetry; apply with_rowRefs_id|].
    split; [constructor|]. intros k x y Hx. destruct k; discriminate.
  - destruct (insertionSortLoop_spec s (length (rr :: t) - 1) 1 (rr :: t))
      as (l' & E' & Hp & Hsorted); try assumption; try lia.
    + simpl. lia.
    + intros k x y Hk. lia.
    + exists l'. rewrite <- E, with_rowRefs_id in E'. rewrite E in E'.
      split; [exact E'|]. split; [exact Hp|].
      apply sortedUpTo_chain. rewrite <- (Permutation_length Hp). exact Hsorted.
Qed.

(** The contract of [sort.Sort] on more than twelve elements: it permutes the
    row references with [Swap], and leaves adjacent ones in order when the
    comparator is transitive on them. *)
Definition transitiveRefs (s : pipeSortProcessorShard) : Prop :=
  forall a b x, In a (rowRefs s) -> In b (rowRefs s) -> In x (rowRefs s) ->
    leRef s a b -> leRef s b x -> leRef s a x.

Definition sorts (s : pipeSortProcessorShard) (r : res pipeSortProcessorShard)
  : Prop :=
  exists l', r = Ok (with_rowRefs s l')
             /\ Permutation (rowRefs s) l'
             /\ (transitiveRefs s -> chainRefs s l').

Definition sortContract : Prop :=
  forall s, sortable s (rowRefs s) -> 12 < shard_Len s -> sorts s (pdqsort_large s).

Lemma sort_Sort_spec : forall s,
  sortContract -> sortable s (rowRefs s) -> sorts s (sort_Sort s).
Proof.
  intros s Hc Hs. unfold sort_Sort.
  destruct (Nat.leb_spec (shard_Len s) 1) as [H1|H1].
  - exists (rowRefs s). rewrite with_rowRefs_id. split; [reflexivity|].
    split; [apply Permutation_refl|]. intros _ k x y Hx Hy.
    assert (S k < length (rowRefs s)) by (apply nth_error_Some; congruence).
    unfold shard_Len in H1. lia.
  - destruct (Nat.leb_spec (shard_Len s) 12) as [H12|H12].
    + destruct (insertionSort_spec s Hs) as (l' & E & Hp & Hch).
      exists l'. auto.
    + apply Hc; assumption.
Qed.

(** ** Positions, pointers and the frame of the merge *)

(** A shard without its cursor. *)
Definition dataOf (s : pipeSortProcessorShard) : pipeSortProcessorShard :=
  with_rowRefNext s 0.

(** The comparator on two positions [(p, i)]: row [i] of the shard that [p]
    points to. *)
Definition lessPos (ss : list pipeSortProcessorShard) (a b : nat * nat) : res bool :=
  sA <- index ss (fst a) ;;
  sB <- index ss (fst b) ;;
  sortBlockLess sA (snd a) sB (snd b).

Definition lePos (ss : list pipeSortProcessorShard) (a b : nat * nat) : Prop :=
  lessPos ss b a = Ok false.

(** The comparator of the heap on two pointers. *)
Definition lessPtr (ss : list pipeSortProcessorShard) (p q : nat) : res bool :=
  sA <- index ss p ;;
  sB <- index ss q ;;
  sortBlockLess sA (rowRefNext sA) sB (rowRefNext sB).

Definition lePtr (ss : list pipeSortProcessorShard) (p q : nat) : Prop :=
  lessPtr ss q p = Ok false.

Definition headOf (ss : list pipeSortProcessorShard) (p : nat) : nat * nat :=
  match nth_error ss p with
  | Some s => (p, rowRefNext s)
  | None => (p, 0)
  end.

(** The shards of a processor that is being merged: well formed, and of one
    sort configuration. *)
Definition storeOk (p : pipeSortProcessor) (ss : list pipeSortProcessorShard) : Prop :=
  Forall (fun s => ps s = psp_ps p /\ wf_shard s) ss.

(** A pointer to a shard with rows left. *)
Definition live (ss : list pipeSortProcessorShard) (p : nat) : Prop :=
  exists s, nth_error ss p = Some s /\ rowRefNext s < length (rowRefs s).

Definition validPos (ss : list pipeSortProcessorShard) (a : nat * nat) : Prop :=
  exists s, nth_error ss (fst a) = Some s /\ snd a < length (rowRefs s).

Lemma heap_Less_ptr : forall ss sh i j p q,
  nth_error sh i = Some p -> nth_error sh j = Some q ->
  heap_Less ss sh i j = lessPtr ss p q.
Proof.
  intros ss sh i j p q Hp Hq. unfold heap_Less, lessPtr.
  apply index_Ok in Hp, Hq. rewrite Hp. cbn [bind]. rewrite Hq. reflexivity.
Qed.

Lemma lessPtr_pos : forall ss p q,
  lessPtr ss p q = lessPos ss (headOf ss p) (headOf ss q).
Proof.
  intros ss p q. unfold lessPtr, lessPos, headOf, index.
  destruct (nth_error ss p) as [sA|] eqn:EA; cbn [fst snd bind].
  - rewrite EA. cbn [bind].
    destruct (nth_error ss q) as [sB|] eqn:EB; cbn [fst snd bind].
    + rewrite EB. reflexivity.
    + rewrite EB. reflexivity.
  - rewrite EA. reflexivity.
Qed.

Lemma lessPos_total : forall p ss a b,
  storeOk p ss -> validPos ss a -> validPos ss b ->
  exists r, lessPos ss a b = Ok r.
Proof.
  intros p ss a b Hok (sA & EA & HA) (sB & EB & HB). unfold lessPos.
  unfold storeOk in Hok. rewrite Forall_forall in Hok.
  destruct (Hok sA (nth_error_In _ _ EA)) as [PA WA].
  destruct (Hok sB (nth_error_In _ _ EB)) as [PB WB].
  apply index_Ok in EA, EB. rewrite EA, EB. cbn [bind].
  apply sortBlockLess_total; try assumption. congruence.
Qed.

Lemma lessPos_asym : forall p ss a b,
  storeOk p ss ->
  lessPos ss a b = Ok true -> lessPos ss b a = Ok true -> False.
Proof.
  intros p ss a b Hok H1 H2. unfold lessPos in *.
  destruct (index ss (fst a)) as [sA| |] eqn:EA; cbn [bind] in *; try discriminate.
  destruct (index ss (fst b)) as [sB| |] eqn:EB; cbn [bind] in *; try discriminate.
  apply index_Ok in EA, EB.
  unfold storeOk in Hok. rewrite Forall_forall in Hok.
  destruct (Hok sA (nth_error_In _ _ EA)) as [PA _].
  destruct (Hok sB (nth_error_In _ _ EB)) as [PB _].
  assert (Hps : ps sA = ps sB) by congruence.
  exact (proj1 (sortBlockLess_asymmetric sA (snd a) sB (snd b) Hps) H1 H2).
Qed.

Lemma lePos_of_less : forall p ss a b,
  storeOk p ss -> validPos ss a -> validPos ss b ->
  lessPos ss a b = Ok true -> lePos ss a b.
Proof.
  intros p ss a b Hok Ha Hb H. unfold lePos.
  destruct (lessPos_total p ss b a Hok Hb Ha) as [[|] E]; [|exact E].
  exfalso. eapply lessPos_asym; eauto.
Qed.

Lemma lePos_refl : forall p ss a, storeOk p ss -> validPos ss a -> lePos ss a a.
Proof.
  intros p ss a Hok Ha. unfold lePos.
  destruct (lessPos_total p ss a a Hok Ha Ha) as [[|] E]; [|exact E].
  exfalso. eapply lessPos_asym; eauto.
Qed.

Lemma live_validPos : forall ss p, live ss p -> validPos ss (headOf ss p).
Proof.
  intros ss p (s & E & H). unfold validPos, headOf. rewrite E. simpl. eauto.
Qed.

(** The comparator reads no cursor. *)
Lemma sortBlockLess_dataOf : forall sA i sB j,
  sortBlockLess sA i sB j = sortBlockLess (dataOf sA) i (dataOf sB) j.
Proof. reflexivity. Qed.

Lemma lessPos_frame : forall ss ss' a b,
  map dataOf ss' = map dataOf ss -> lessPos ss' a b = lessPos ss a b.
Proof.
  intros ss ss' a b H. unfold lessPos, index.
  assert (G : forall k, option_map dataOf (nth_error ss' k)
                        = option_map dataOf (nth_error ss k)).
  { intros k. rewrite <- !nth_error_map, H. reflexivity. }
  pose proof (G (fst a)) as Ga. pose proof (G (fst b)) as Gb.
  destruct (nth_error ss' (fst a)) as [sA'|], (nth_error ss (fst a)) as [sA|];
    simpl in Ga; try discriminate; cbn [bind]; [|reflexivity].
  destruct (nth_error ss' (fst b)) as [sB'|], (nth_error ss (fst b)) as [sB|];
    simpl in Gb; try discriminate; cbn [bind]; [|reflexivity].
  rewrite (sortBlockLess_dataOf sA'), (sortBlockLess_dataOf sA).
  inversion Ga; inversion Gb. congruence.
Qed.

Lemma validPos_frame : forall ss ss' a,
  map dataOf ss' = map dataOf ss -> validPos ss a -> validPos ss' a.
Proof.
  intros ss ss' a H (s & E & Hl).
  assert (G : option_map dataOf (nth_error ss' (fst a))
              = option_map dataOf (nth_error ss (fst a))).
  { rewrite <- !nth_error_map, H. reflexivity. }
  rewrite E in G. destruct (nth_error ss' (fst a)) as [s'|] eqn:E'; [|discriminate].
  exists s'. split; [exact E'|]. simpl in G. inversion G as [G1].
  assert (rowRefs s' = rowRefs s).
  { change (rowRefs (dataOf s') = rowRefs (dataOf s)). congruence. }
  congruence.
Qed.

Lemma dataOf_set_next : forall ss p s n,
  nth_error ss p = Some s ->
  map dataOf (set_nth ss p (with_rowRefNext s n)) = map dataOf ss.
Proof.
  intros ss. induction ss as [|h t IH]; intros [|p] s n H; simpl in *;
    try discriminate.
  - inversion H; subst. reflexivity.
  - f_equal. eapply IH; eauto.
Qed.

Lemma storeOk_set_next : forall P ss p s n,
  storeOk P ss -> nth_error ss p = Some s ->
  storeOk P (set_nth ss p (with_rowRefNext s n)).
Proof.
  intros P ss p s n Hok E. unfold storeOk in *. apply Forall_set_nth; [exact Hok|].
  rewrite Forall_forall in Hok. exact (Hok s (nth_error_In _ _ E)).
Qed.

(** ** The heap of shards *)

Lemma lessPtr_total : forall P ss p q,
  storeOk P ss -> live ss p -> live ss q -> exists b, lessPtr ss p q = Ok b.
Proof.
  intros P ss p q Hok Hp Hq. rewrite lessPtr_pos.
  eapply lessPos_total; eauto using live_validPos.
Qed.

Lemma lePtr_of_less : forall P ss p q,
  storeOk P ss -> live ss p -> live ss q ->
  lessPtr ss p q = Ok true -> lePtr ss p q.
Proof.
  intros P ss p q Hok Hp Hq H. unfold lePtr. rewrite lessPtr_pos in *.
  eapply lePos_of_less; eauto using live_validPos.
Qed.

Lemma lePtr_refl : forall P ss p, storeOk P ss -> live ss p -> lePtr ss p p.
Proof.
  intros P ss p Hok Hp. unfold lePtr. rewrite lessPtr_pos.
  eapply lePos_refl; eauto using live_validPos.
Qed.

(** The order of the heap is transitive on the pointers to shards with rows
    left. *)
Definition transLive (ss : list pipeSortProcessorShard) : Prop :=
  forall p q r, live ss p -> live ss q -> live ss r ->
    lePtr ss p q -> lePtr ss q r -> lePtr ss p r.

(** The first [n] pointers of the heap point to shards with rows left. *)
Definition liveN (ss : list pipeSortProcessorShard) (sh : list nat) (n : nat) : Prop :=
  forall k p, k < n -> nth_error sh k = Some p -> live ss p.

Definition leIdx (ss : list pipeSortProcessorShard) (sh : list nat) (a b : nat)
  : Prop :=
  forall p q, nth_error sh a = Some p -> nth_error sh b = Some q -> lePtr ss p q.

(** The two children of node [a], within the first [n] elements, are not less
    than it. *)
Definition childrenOk (ss : list pipeSortProcessorShard) (sh : list nat) (n a : nat)
  : Prop :=
  (2 * a + 1 < n -> leIdx ss sh a (2 * a + 1))
  /\ (2 * a + 2 < n -> leIdx ss sh a (2 * a + 2)).

Definition heapFrom (ss : list pipeSortProcessorShard) (sh : list nat) (n i0 : nat)
  : Prop :=
  forall a, i0 <= a -> childrenOk ss sh n a.

Lemma down_spec : forall P ss fuel sh i0 i n,
  storeOk P ss -> liveN ss sh n ->
  n <= length sh -> i0 <= i -> n <= i + fuel ->
  exists sh' b, down fuel ss sh i0 i n = Ok (sh', b)
                /\ Permutation sh sh'
                /\ (forall k, n <= k -> nth_error sh' k = nth_error sh k)
                /\ (transLive ss ->
                    (forall a, i0 <= a -> a <> i -> childrenOk ss sh n a) ->
                    (forall a, i0 <= a -> i = 2 * a + 1 \/ i = 2 * a + 2 ->
                       (2 * i + 1 < n -> leIdx ss sh a (2 * i + 1))
                       /\ (2 * i + 2 < n -> leIdx ss sh a (2 * i + 2))) ->
                    heapFrom ss sh' n i0).
Proof.
  intros P ss fuel. induction fuel as [|fuel IH];
    intros sh i0 i n Hok Hlive Hn Hi0 Hfuel.
  - exists sh, (Nat.ltb i0 i). simpl.
    destruct (Nat.leb_spec n (i + (i + 0) + 1)); [|lia].
    split; [reflexivity|]. split; [apply Permutation_refl|]. split; [auto|].
    intros Htr Hpre Hpar a Ha. destruct (Nat.eq_dec a i) as [->|Hne]; [|auto].
    split; intros; lia.
  - cbn [down]. destruct (Nat.leb_spec n (2 * i + 1)) as [Hleaf|Hchild].
    { exists sh, (Nat.ltb i0 i).
      split; [reflexivity|]. split; [apply Permutation_refl|]. split; [auto|].
      intros Htr Hpre Hpar a Ha. destruct (Nat.eq_dec a i) as [->|Hne]; [|auto].
      split; intros; lia. }
    assert (Hlen : forall k, k < n -> exists p, nth_error sh k = Some p /\ live ss p).
    { intros k Hk. destruct (nth_error sh k) as [p|] eqn:E.
      - exists p. split; [reflexivity|]. eapply Hlive; eauto.
      - apply nth_error_None in E. lia. }
    destruct (Hlen i) as (pi & Ei & Li); [lia|].
    destruct (Hlen (2 * i + 1)) as (q1 & E1 & L1); [lia|].
    (* the smaller child *)
    assert (Hsmall : exists j qj b21,
              (if Nat.ltb (2 * i + 1 + 1) n
               then heap_Less ss sh (2 * i + 1 + 1) (2 * i + 1) else Ok false)
              = Ok b21
              /\ j = (if b21 then 2 * i + 1 + 1 else 2 * i + 1)
              /\ (j = 2 * i + 1 \/ j = 2 * i + 2) /\ j < n
              /\ nth_error sh j = Some qj /\ live ss qj
              /\ (2 * i + 1 < n -> leIdx ss sh j (2 * i + 1))
              /\ (2 * i + 2 < n -> leIdx ss sh j (2 * i + 2))).
    { destruct (Nat.ltb_spec (2 * i + 1 + 1) n) as [H2|H2].
      - destruct (Hlen (2 * i + 1 + 1)) as (q2 & E2 & L2); [lia|].
        rewrite (heap_Less_ptr ss sh _ _ q2 q1 E2 E1).
        destruct (lessPtr_total P ss q2 q1 Hok L2 L1) as [[|] Elt].
        + exists (2 * i + 1 + 1), q2, true. repeat split; auto; try lia.
          * intros _ p q Ep Eq. rewrite E2 in Ep. rewrite E1 in Eq.
            inversion Ep; inversion Eq; subst.
            eapply lePtr_of_less; eauto.
          * intros _ p q Ep Eq.
            replace (2 * i + 2) with (2 * i + 1 + 1) in Eq by lia.
            rewrite E2 in Ep. rewrite E2 in Eq.
            inversion Ep; inversion Eq; subst. eapply lePtr_refl; eauto.
        + exists (2 * i + 1), q1, false. repeat split; auto; try lia.
          * intros _ p q Ep Eq. rewrite E1 in Ep. rewrite E1 in Eq.
            inversion Ep; inversion Eq; subst. eapply lePtr_refl; eauto.
          * intros _ p q Ep Eq.
            replace (2 * i + 2) with (2 * i + 1 + 1) in Eq by lia.
            rewrite E1 in Ep. rewrite E2 in Eq.
            inversion Ep; inversion Eq; subst. exact Elt.
      - exists (2 * i + 1), q1, false. repeat split; auto; try lia.
        intros _ p q Ep Eq. rewrite E1 in Ep. rewrite E1 in Eq.
        inversion Ep; inversion Eq; subst. eapply lePtr_refl; eauto. }
    destruct Hsmall as (j & qj & b21 & -> & Hj & Hjc & Hjn & Ej & Lj & Hj1 & Hj2).
    cbn [bind]. rewrite <- Hj.
    rewrite (heap_Less_ptr ss sh j i qj pi Ej Ei).
    destruct (lessPtr_total P ss qj pi Hok Lj Li) as [[|] Elt]; rewrite Elt;
      cbn [bind negb].
    + (* the node goes down *)
      assert (Hsw : swap sh i j = Ok (set_nth (set_nth sh i qj) j pi))
        by (apply swap_spec; assumption).
      rewrite Hsw. cbn [bind].
      set (sh1 := set_nth (set_nth sh i qj) j pi) in *.
      pose proof (swap_perm _ _ _ _ _ Hsw) as Hp.
      destruct (swap_nth _ _ _ _ _ Hsw) as (N1 & N2 & N3).
      destruct (IH sh1 i0 j n) as (sh' & b & E' & Hp' & Hrest & Himp);
        try assumption; try lia.
      * intros k x Hk Ex.
        destruct (Nat.eq_dec k i) as [->|Hki];
          [rewrite N1, Ej in Ex; inversion Ex; subst; exact Lj|].
        destruct (Nat.eq_dec k j) as [->|Hkj];
          [rewrite N2, Ei in Ex; inversion Ex; subst; exact Li|].
        rewrite N3 in Ex by assumption. eapply Hlive; eauto.
      * rewrite (swap_length _ _ _ _ _ Hsw). exact Hn.
      * exists sh', b. split; [exact E'|]. split; [eapply perm_trans; eauto|].
        split; [intros k Hk; rewrite Hrest by exact Hk; apply N3; lia|].
        intros Htr Hpre Hpar. apply Himp.
        -- exact Htr.
        -- intros a Ha Haj.
           destruct (Nat.eq_dec a i) as [->|Hai].
           ++ split; intros Hc p q Ep Eq; rewrite N1, Ej in Ep; inversion Ep; subst p.
              ** destruct (Nat.eq_dec j (2 * i + 1)) as [Ejj|Ejj].
                 --- rewrite <- Ejj, N2, Ei in Eq. inversion Eq; subst q.
                     eapply lePtr_of_less; eauto.
                 --- rewrite N3 in Eq by lia. eapply Hj1; eauto.
              ** destruct (Nat.eq_dec j (2 * i + 2)) as [Ejj|Ejj].
                 --- rewrite <- Ejj, N2, Ei in Eq. inversion Eq; subst q.
                     eapply lePtr_of_less; eauto.
                 --- rewrite N3 in Eq by lia. eapply Hj2; eauto.
           ++ destruct (Hpre a Ha Hai) as [C1 C2].
              split; intros Hc p q Ep Eq; rewrite N3 in Ep by lia.
              ** destruct (Nat.eq_dec (2 * a + 1) i) as [Eci|Eci].
                 --- rewrite Eci, N1, Ej in Eq. inversion Eq; subst q.
                     destruct (Hpar a Ha) as [D1 D2]; [lia|].
                     destruct Hjc as [->| ->]; [eapply D1|eapply D2]; eauto; lia.
                 --- rewrite N3 in Eq by lia. eapply C1; eauto.
              ** destruct (Nat.eq_dec (2 * a + 2) i) as [Eci|Eci].
                 --- rewrite Eci, N1, Ej in Eq. inversion Eq; subst q.
                     destruct (Hpar a Ha) as [D1 D2]; [lia|].
                     destruct Hjc as [->| ->]; [eapply D1|eapply D2]; eauto; lia.
                 --- rewrite N3 in Eq by lia. eapply C2; eauto.
        -- intros a Ha Hja. assert (a = i) by lia. subst a.
           destruct (Hpre j) as [C1 C2]; [lia|lia|].
           split; intros Hc p q Ep Eq; rewrite N1, Ej in Ep; inversion Ep; subst p;
             rewrite N3 in Eq by lia; [eapply C1|eapply C2]; eauto.
    + (* the node stays *)
      exists sh, (Nat.ltb i0 i).
      split; [reflexivity|]. split; [apply Permutation_refl|]. split; [auto|].
      intros Htr Hpre Hpar a Ha. destruct (Nat.eq_dec a i) as [->|Hne]; [|auto].
      assert (Hij : leIdx ss sh i j).
      { intros p q Ep Eq. rewrite Ei in Ep. rewrite Ej in Eq.
        inversion Ep; inversion Eq; subst. exact Elt. }
      split; intros Hc p q Ep Eq.
      * apply (Htr p qj q);
          [ eapply Hlive; [|exact Ep]; lia | exact Lj
          | eapply Hlive; [|exact Eq]; lia | eapply Hij; eauto
          | eapply Hj1; eauto ].
      * apply (Htr p qj q);
          [ eapply Hlive; [|exact Ep]; lia | exact Lj
          | eapply Hlive; [|exact Eq]; lia | eapply Hij; eauto
          | eapply Hj2; eauto ].
Qed.

Lemma liveN_all : forall ss sh, Forall (live ss) sh -> liveN ss sh (length sh).
Proof.
  intros ss sh H k p _ E. rewrite Forall_forall in H.
  apply H. eapply nth_error_In; eauto.
Qed.

Lemma heap_Init_loop_spec : forall P ss k sh,
  storeOk P ss -> Forall (live ss) sh ->
  exists sh', heap_Init_loop ss sh (rev (seq 0 k)) = Ok sh'
              /\ Permutation sh sh'
              /\ (transLive ss -> heapFrom ss sh (length sh) k ->
                  heapFrom ss sh' (length sh') 0).
Proof.
  intros P ss k. induction k as [|k IH]; intros sh Hok Hlive.
  - exists sh. simpl. split; [reflexivity|]. split; [apply Permutation_refl|]. auto.
  - rewrite seq_S, rev_app_distr. simpl.
    destruct (down_spec P ss (length sh) sh k k (length sh))
      as (sh1 & b & E1 & Hp1 & _ & Hheap1); try assumption; try lia.
    { apply liveN_all. exact Hlive. }
    rewrite E1. cbn [bind].
    destruct (IH sh1 Hok) as (sh' & E' & Hp' & Hheap').
    { eapply Permutation_Forall; eauto. }
    exists sh'. split; [exact E'|]. split; [eapply perm_trans; eauto|].
    intros Htr Hh. apply Hheap'; [exact Htr|].
    rewrite <- (Permutation_length Hp1). apply Hheap1; [exact Htr| |].
    + intros a Ha Hne. apply Hh. lia.
    + intros a Ha Hc. lia.
Qed.

Lemma heap_Init_spec : forall P ss sh,
  storeOk P ss -> Forall (live ss) sh ->
  exists sh', heap_Init ss sh = Ok sh'
              /\ Permutation sh sh'
              /\ (transLive ss -> heapFrom ss sh' (length sh') 0).
Proof.
  intros P ss sh Hok Hlive. unfold heap_Init.
  destruct (heap_Init_loop_spec P ss (length sh / 2) sh Hok Hlive)
    as (sh' & E & Hp & Hheap).
  exists sh'. split; [exact E|]. split; [exact Hp|].
  intros Htr. apply Hheap; [exact Htr|].
  intros a Ha. pose proof (Nat.div_mod_eq (length sh) 2) as Hd.
  pose proof (Nat.mod_upper_bound (length sh) 2) as Hm.
  split; intros; lia.
Qed.

Lemma removelast_nth : forall (A : Type) (l : list A) n x,
  nth_error l n = Some x -> length l = S n -> l = removelast l ++ [x].
Proof.
  intros A l. induction l as [|h t IH]; intros n x Hn Hl; [discriminate|].
  destruct t as [|h' t'].
  - destruct n; simpl in *; [inversion Hn; reflexivity|lia].
  - destruct n as [|n]; [simpl in Hl; lia|].
    change (removelast (h :: h' :: t')) with (h :: removelast (h' :: t')).
    simpl app. f_equal. apply (IH n); [exact Hn|]. simpl in *. lia.
Qed.

Lemma heap_Pop_spec : forall P ss p0 rest,
  storeOk P ss -> Forall (live ss) rest ->
  exists sh', heap_Pop ss (p0 :: rest) = Ok sh'
              /\ Permutation rest sh'
              /\ (transLive ss ->
                  heapFrom ss (p0 :: rest) (length (p0 :: rest)) 1 ->
                  heapFrom ss sh' (length sh') 0).
Proof.
  intros P ss p0 rest Hok Hlive. unfold heap_Pop. cbn [length].
  set (n := length rest).
  set (sh := p0 :: rest) in *.
  assert (Hlen : length sh = S n) by reflexivity.
  destruct (nth_error sh n) as [pl|] eqn:El;
    [|apply nth_error_None in El; lia].
  assert (E0 : nth_error sh 0 = Some p0) by reflexivity.
  assert (Hsw : swap sh 0 n = Ok (set_nth (set_nth sh 0 pl) n p0))
    by (apply swap_spec; assumption).
  rewrite Hsw. cbn [bind].
  set (sh1 := set_nth (set_nth sh 0 pl) n p0) in *.
  pose proof (swap_perm _ _ _ _ _ Hsw) as Hp.
  destruct (swap_nth _ _ _ _ _ Hsw) as (N1 & N2 & N3).
  assert (Hrest : forall k x, 1 <= k -> nth_error sh k = Some x -> live ss x).
  { intros k x Hk Ex. destruct k as [|k]; [lia|]. simpl in Ex.
    rewrite Forall_forall in Hlive. apply Hlive. eapply nth_error_In; eauto. }
  assert (Hl1 : liveN ss sh1 n).
  { intros k x Hk Ex. destruct (Nat.eq_dec k 0) as [->|Hk0].
    - rewrite N1, El in Ex. inversion Ex; subst. apply (Hrest n); [lia|exact El].
    - rewrite N3 in Ex by lia. apply (Hrest k); [lia|exact Ex]. }
  destruct (down_spec P ss n sh1 0 0 n)
    as (sh2 & b & E2 & Hp2 & Hrest2 & Hheap2); try assumption; try lia.
  { rewrite (swap_length _ _ _ _ _ Hsw). lia. }
  rewrite E2. cbn [bind].
  assert (Hlast : nth_error sh2 n = Some p0).
  { rewrite Hrest2 by lia. rewrite N2. exact E0. }
  assert (Hlen2 : length sh2 = S n).
  { rewrite <- (Permutation_length Hp2), (swap_length _ _ _ _ _ Hsw). exact Hlen. }
  pose proof (removelast_nth _ sh2 n p0 Hlast Hlen2) as Hsplit.
  assert (Hlen' : length (removelast sh2) = n).
  { apply (f_equal (@length nat)) in Hsplit.
    rewrite length_app in Hsplit. simpl in Hsplit. lia. }
  exists (removelast sh2). split; [reflexivity|]. split.
  - apply (Permutation_cons_inv (a := p0)).
    eapply perm_trans; [exact Hp|]. eapply perm_trans; [exact Hp2|].
    rewrite Hsplit at 1. apply Permutation_sym. apply Permutation_cons_append.
  - intros Htr Hh. rewrite Hlen'.
    assert (Hh2 : heapFrom ss sh2 n 0).
    { apply Hheap2; [exact Htr| |].
      - intros a Ha Hne. destruct (Hh a) as [C1 C2]; [lia|].
        cbn [length] in C1, C2. fold n in C1, C2.
        split; intros Hc p q Ep Eq; rewrite N3 in Ep by lia; rewrite N3 in Eq by lia;
          [eapply C1|eapply C2]; eauto; lia.
      - intros a Ha Hc. lia. }
    intros a Ha. destruct (Hh2 a Ha) as [C1 C2].
    assert (Hnth : forall k, k < n -> nth_error (removelast sh2) k = nth_error sh2 k).
    { intros k Hk. rewrite Hsplit at 2. rewrite nth_error_app1 by lia. reflexivity. }
    split; intros Hc p q Ep Eq; rewrite Hnth in Ep by lia; rewrite Hnth in Eq by lia;
      [eapply C1|eapply C2]; eauto.
Qed.

Lemma heap_Fix_spec : forall P ss sh,
  storeOk P ss -> Forall (live ss) sh ->
  exists sh', heap_Fix ss sh 0 = Ok sh'
              /\ Permutation sh sh'
              /\ (transLive ss -> heapFrom ss sh (length sh) 1 ->
                  heapFrom ss sh' (length sh') 0).
Proof.
  intros P ss sh Hok Hlive. unfold heap_Fix.
  destruct (down_spec P ss (length sh) sh 0 0 (length sh))
    as (sh1 & b & E1 & Hp1 & _ & Hheap1); try assumption; try lia.
  { apply liveN_all. exact Hlive. }
  rewrite E1. cbn [bind].
  assert (Hup : (if negb b then up (length sh) ss sh1 0 else Ok sh1) = Ok sh1).
  { destruct b; cbn [negb]; [reflexivity|]. destruct (length sh); reflexivity. }
  rewrite Hup. exists sh1. split; [reflexivity|]. split; [exact Hp1|].
  intros Htr Hh. rewrite <- (Permutation_length Hp1). apply Hheap1; [exact Htr| |].
  - intros a Ha Hne. apply Hh. lia.
  - intros a Ha Hc. lia.
Qed.

(** The root of a heap is not after any of its elements. *)
Lemma heap_root_min : forall ss sh n,
  transLive ss -> liveN ss sh n -> n <= length sh ->
  heapFrom ss sh n 0 ->
  (forall p, nth_error sh 0 = Some p -> live ss p -> lePtr ss p p) ->
  forall k, k < n -> leIdx ss sh 0 k.
Proof.
  intros ss sh n Htr Hlive Hn Hh Hrefl k.
  induction k as [k IH] using (well_founded_induction lt_wf).
  intros Hk p q Ep Eq.
  destruct k as [|k].
  - rewrite Ep in Eq. inversion Eq; subst. apply Hrefl; [exact Ep|].
    eapply Hlive; eauto.
  - set (a := k / 2).
    pose proof (Nat.div_mod_eq k 2) as Hd.
    pose proof (Nat.mod_upper_bound k 2) as Hm.
    assert (Ha : a < S k) by (unfold a; lia).
    destruct (nth_error sh a) as [x|] eqn:Ex;
      [|apply nth_error_None in Ex; unfold a in *; lia].
    apply (Htr p x q).
    + eapply Hlive; [|exact Ep]. lia.
    + eapply Hlive; [|exact Ex]. unfold a in *; lia.
    + eapply Hlive; [|exact Eq]. lia.
    + eapply (IH a); eauto; unfold a in *; lia.
    + destruct (Hh a) as [C1 C2]; [lia|].
      destruct (Nat.eq_dec (k mod 2) 0) as [E0|E1].
      * apply (C1 ltac:(unfold a; lia) x q); [exact Ex|].
        replace (2 * a + 1) with (S k) by (unfold a; lia). exact Eq.
      * apply (C2 ltac:(unfold a; lia) x q); [exact Ex|].
        replace (2 * a + 2) with (S k) by (unfold a; lia). exact Eq.
Qed.

(** ** [writeRow] does not panic on a row of a well-formed shard *)

Lemma addAt_total : forall acc i v,
  i < length (fst acc) ->
  exists acc', addAt acc i v = Ok acc' /\ length (fst acc') = length (fst acc).
Proof.
  intros acc i v H. unfold addAt.
  destruct (index_lt _ (fst acc) i H) as [rc ->]. cbn [bind].
  eexists. split; [reflexivity|]. simpl. apply set_nth_length.
Qed.

Lemma appendKeys_total : forall b row idxs acc,
  Forall (wf_byColumn (length (timestamps (br b)))) (byColumns b) ->
  row < length (timestamps (br b)) ->
  Forall (fun i => i < length (byColumns b) /\ i < length (fst acc)) idxs ->
  exists acc', appendKeys b row idxs acc = Ok acc'
               /\ length (fst acc') = length (fst acc).
Proof.
  intros b row idxs. induction idxs as [|i rest IH]; intros acc Hw Hrow Hi.
  - exists acc. split; reflexivity.
  - inversion Hi as [|? ? [Hb Ha] Hrest]; subst. simpl.
    destruct (index_lt _ (byColumns b) i Hb) as [bc Ebc]. rewrite Ebc. cbn [bind].
    assert (Hbc : wf_byColumn (length (timestamps (br b))) bc).
    { rewrite Forall_forall in Hw. apply Hw. apply index_Ok in Ebc.
      eapply nth_error_In; eauto. }
    destruct Hbc as (Hv & _).
    destruct (getValueAtRow_ok (c bc) (br b) row) as [v ->]; [lia|]. cbn [bind].
    destruct (addAt_total acc i v Ha) as (acc1 & -> & Hl1). cbn [bind].
    destruct (IH acc1 Hw Hrow) as (acc' & E' & Hl').
    + eapply Forall_impl; [|exact Hrest]. intros k [H1 H2]. split; [exact H1|lia].
    + exists acc'. split; [exact E'|]. lia.
Qed.

Lemma appendOthers_total : forall b row nk cols i acc,
  Forall (fun col => length (values col) = length (timestamps (br b))) cols ->
  row < length (timestamps (br b)) ->
  nk + i + length cols <= length (fst acc) ->
  exists acc', appendOthers b row nk cols i acc = Ok acc'
               /\ length (fst acc') = length (fst acc).
Proof.
  intros b row nk cols. induction cols as [|col rest IH]; intros i acc Hw Hrow Hl.
  - exists acc. split; reflexivity.
  - inversion Hw as [|? ? Hv Hrest]; subst. simpl in *.
    destruct (getValueAtRow_ok col (br b) row) as [v ->]; [lia|]. cbn [bind].
    destruct (addAt_total acc (nk + i) v) as (acc1 & -> & Hl1); [lia|]. cbn [bind].
    destruct (IH (S i) acc1 Hrest Hrow) as (acc' & E' & Hl'); [lia|].
    exists acc'. split; [exact E'|]. lia.
Qed.

Lemma writeRow_total : forall wctx out shard i,
  wf_shard shard -> i < length (rowRefs shard) ->
  exists r, writeRow wctx out shard i = Ok r.
Proof.
  intros wctx out shard i Hwf Hi. unfold writeRow.
  destruct (index_lt _ (rowRefs shard) i Hi) as [rr Err]. rewrite Err. cbn [bind].
  apply index_Ok in Err.
  destruct (wf_shard_validRef shard i rr Hwf Err) as (b & Eb & Hrow).
  apply index_Ok in Eb. rewrite Eb. cbn [bind]. apply index_Ok in Eb.
  destruct Hwf as [Hblocks _]. rewrite Forall_forall in Hblocks.
  destruct (Hblocks b (nth_error_In _ _ Eb)) as (Hnk & Hbc & Hoc).
  set (bfs := byFields (ps shard)) in *.
  set (w1 := if areEqualColumns (rcs wctx) bfs b then (wctx, out)
             else let '(w, o) := wctx_flush wctx out in
                  ({| rcs := freshColumns bfs b; valuesLen := valuesLen w |}, o)).
  assert (Hlen : length (rcs (fst w1)) = length bfs + length (otherColumns b)).
  { unfold w1. destruct (areEqualColumns (rcs wctx) bfs b) eqn:E.
    - apply areEqualColumns_spec in E. destruct E as [E _]. exact E.
    - destruct (wctx_flush wctx out). simpl. unfold freshColumns.
      rewrite length_app, !length_map. reflexivity. }
  destruct w1 as [wctx1 out1]. cbn [fst] in Hlen.
  destruct (appendKeys_total b (rowIdx rr) (seq 0 (length bfs))
              (rcs wctx1, valuesLen wctx1) Hbc Hrow) as (acc1 & E1 & Hl1).
  { apply Forall_forall. intros k Hk. apply in_seq in Hk. cbn [fst].
    unfold nkeys in Hnk. fold bfs in Hnk. destruct bfs; simpl in *; lia. }
  rewrite E1. cbn [bind].
  destruct (appendOthers_total b (rowIdx rr) (length bfs) (otherColumns b) 0 acc1
              Hoc Hrow) as (acc2 & E2 & Hl2).
  { rewrite Hl1. cbn [fst]. lia. }
  rewrite E2. cbn [bind].
  destruct (valuesLen {| rcs := fst acc2; valuesLen := snd acc2 |} >=? 1000000)%Z;
    eauto.
Qed.

(** ** The rows written so far and the rows left *)

(** The positions before the cursors of the shards. *)
Fixpoint emittedFrom (ss : list pipeSortProcessorShard) (p : nat) : list (nat * nat) :=
  match ss with
  | [] => []
  | s :: t => map (pair p) (seq 0 (rowRefNext s)) ++ emittedFrom t (S p)
  end.

Lemma emittedFrom_set_next : forall ss p s k,
  nth_error ss p = Some s ->
  Permutation
    (emittedFrom (set_nth ss p (with_rowRefNext s (S (rowRefNext s)))) k)
    (emittedFrom ss k ++ [(k + p, rowRefNext s)]).
Proof.
  intros ss. induction ss as [|h t IH]; intros [|p] s k H; simpl in H;
    try discriminate.
  - inversion H; subst. cbn [set_nth emittedFrom rowRefNext with_rowRefNext].
    rewrite seq_S, map_app. cbn [map Nat.add]. rewrite Nat.add_0_r.
    rewrite <- !app_assoc. apply Permutation_app_head.
    apply Permutation_app_comm.
  - cbn [set_nth emittedFrom]. rewrite <- app_assoc. apply Permutation_app_head.
    replace (k + S p) with (S k + p) by lia. apply IH. exact H.
Qed.

Lemma remainingRows_set_next : forall ss p s,
  nth_error ss p = Some s -> rowRefNext s < length (rowRefs s) ->
  S (remainingRows (set_nth ss p (with_rowRefNext s (S (rowRefNext s)))))
  = remainingRows ss.
Proof.
  intros ss. induction ss as [|h t IH]; intros [|p] s H Hl; simpl in H;
    try discriminate.
  - inversion H; subst. simpl. lia.
  - simpl. rewrite <- (IH p s H Hl). simpl. lia.
Qed.

(** ** Moving one cursor leaves the other shards as they are *)

Lemma lessPtr_set_other : forall ss p s' q r,
  q <> p -> r <> p -> lessPtr (set_nth ss p s') q r = lessPtr ss q r.
Proof.
  intros ss p s' q r Hq Hr. unfold lessPtr, index.
  rewrite !nth_error_set_nth_neq by congruence. reflexivity.
Qed.

Lemma live_set_other : forall ss p s' q,
  q <> p -> live ss q -> live (set_nth ss p s') q.
Proof.
  intros ss p s' q Hq (s & E & H). exists s.
  rewrite nth_error_set_nth_neq by congruence. auto.
Qed.

Lemma headOf_set_other : forall ss p s' q,
  q <> p -> headOf (set_nth ss p s') q = headOf ss q.
Proof.
  intros ss p s' q Hq. unfold headOf.
  rewrite nth_error_set_nth_neq by congruence. reflexivity.
Qed.

Lemma live_set_self : forall ss p s n,
  nth_error ss p = Some s -> n < length (rowRefs s) ->
  live (set_nth ss p (with_rowRefNext s n)) p.
Proof.
  intros ss p s n E H. exists (with_rowRefNext s n). split; [|exact H].
  apply nth_error_set_nth_eq. apply nth_error_Some. congruence.
Qed.

(** ** The invariants of the merge *)

Definition lastIs {A : Type} (l : list A) (w : A) : Prop :=
  exists l', l = l' ++ [w].

(** Adjacent positions of [l] are in order. *)
Definition chainPos (ss0 : list pipeSortProcessorShard) (l : list (nat * nat))
  : Prop :=
  forall k a b, nth_error l k = Some a -> nth_error l (S k) = Some b ->
    lePos ss0 a b.

(** The comparator is transitive on the rows of the shards. *)
Definition transPos (ss0 : list pipeSortProcessorShard) : Prop :=
  forall a b x, validPos ss0 a -> validPos ss0 b -> validPos ss0 x ->
    lePos ss0 a b -> lePos ss0 b x -> lePos ss0 a x.

(** Every shard is sorted: adjacent rows are in order. *)
Definition runsSorted (ss0 : list pipeSortProcessorShard) : Prop :=
  forall p i, validPos ss0 (p, S i) -> lePos ss0 (p, i) (p, S i).

(** [q] is not after the children of the root. *)
Definition qMin (ss : list pipeSortProcessorShard) (sh : list nat) (q : nat) : Prop :=
  (forall x, nth_error sh 1 = Some x -> lePtr ss q x)
  /\ (forall x, nth_error sh 2 = Some x -> lePtr ss q x).

Record mergeInv (P : pipeSortProcessor) (ss0 : list pipeSortProcessorShard)
  (st : mergeState) : Prop := {
  mi_frame : map dataOf (m_shards st) = map dataOf ss0;
  mi_ok : storeOk P (m_shards st);
  mi_nodup : NoDup (m_sh st);
  mi_live : Forall (live (m_shards st)) (m_sh st);
  mi_done : forall p s, nth_error (m_shards st) p = Some s ->
            ~ In p (m_sh st) -> rowRefNext s = length (rowRefs s);
  mi_next : forall q, m_shardNext st = Some q ->
            nth_error (m_sh st) 1 = Some q \/ nth_error (m_sh st) 2 = Some q;
  mi_written : Permutation (m_written st) (emittedFrom (m_shards st) 0)
}.

Record orderInv (ss0 : list pipeSortProcessorShard) (st : mergeState) : Prop := {
  oi_heap : heapFrom (m_shards st) (m_sh st) (length (m_sh st)) 0;
  oi_next : forall q, m_shardNext st = Some q -> qMin (m_shards st) (m_sh st) q;
  oi_chain : chainPos ss0 (m_written st);
  oi_last : forall w q, lastIs (m_written st) w -> In q (m_sh st) ->
            lePos ss0 w (headOf (m_shards st) q)
}.

Lemma lePtr_lePos : forall ss ss0 p q,
  map dataOf ss = map dataOf ss0 ->
  (lePtr ss p q <-> lePos ss0 (headOf ss p) (headOf ss q)).
Proof.
  intros ss ss0 p q Hf. unfold lePtr, lePos.
  rewrite lessPtr_pos, (lessPos_frame ss0 ss _ _ Hf). reflexivity.
Qed.

Lemma transLive_of_transPos : forall ss ss0,
  map dataOf ss = map dataOf ss0 -> transPos ss0 -> transLive ss.
Proof.
  intros ss ss0 Hf Ht p q r Lp Lq Lr H1 H2.
  apply (lePtr_lePos ss ss0 _ _ Hf) in H1, H2. apply (lePtr_lePos ss ss0 _ _ Hf).
  assert (V : forall x, live ss x -> validPos ss0 (headOf ss x)).
  { intros x Lx. apply (validPos_frame ss ss0); [symmetry; exact Hf|].
    apply live_validPos. exact Lx. }
  apply (Ht (headOf ss p) (headOf ss q) (headOf ss r)); auto.
Qed.

Lemma chainPos_snoc : forall ss0 l a,
  chainPos ss0 l -> (forall w, lastIs l w -> lePos ss0 w a) ->
  chainPos ss0 (l ++ [a]).
Proof.
  intros ss0 l a Hc Hl k x y Ex Ey.
  assert (Hk : S k < length (l ++ [a])) by (apply nth_error_Some; congruence).
  rewrite length_app in Hk. simpl in Hk.
  rewrite nth_error_app1 in Ex by lia.
  destruct (Nat.eq_dec (S k) (length l)) as [E|E].
  - rewrite nth_error_app2 in Ey by lia. rewrite E, Nat.sub_diag in Ey.
    inversion Ey; subst y. apply Hl.
    exists (firstn k l).
    rewrite <- (firstn_skipn k l) at 1. f_equal.
    rewrite (nth_error_skipn_cons _ _ _ _ Ex). f_equal.
    apply length_zero_iff_nil. rewrite length_skipn. lia.
  - rewrite nth_error_app1 in Ey by lia. eapply Hc; eauto.
Qed.

Lemma lastIs_snoc : forall (A : Type) (l : list A) a w,
  lastIs (l ++ [a]) w -> w = a.
Proof.
  intros A l a w [l' E]. apply app_inj_tail in E. destruct E. congruence.
Qed.

(** The shard at the root of the heap. *)
Lemma merge_root : forall P ss0 st p rest,
  mergeInv P ss0 st -> m_sh st = p :: rest ->
  exists shard, nth_error (m_shards st) p = Some shard
                /\ rowRefNext shard < length (rowRefs shard)
                /\ wf_shard shard
                /\ ~ In p rest /\ NoDup rest
                /\ Forall (live (m_shards st)) rest.
Proof.
  intros P ss0 st p rest Hinv Hsh.
  pose proof (mi_nodup _ _ _ Hinv) as Hnd. pose proof (mi_live _ _ _ Hinv) as Hl.
  rewrite Hsh in Hnd, Hl. inversion Hnd; subst. inversion Hl as [|? ? Lp Lrest]; subst.
  destruct Lp as (shard & E & Hlen). exists shard.
  pose proof (mi_ok _ _ _ Hinv) as Hok. unfold storeOk in Hok.
  rewrite Forall_forall in Hok. destruct (Hok shard (nth_error_In _ _ E)) as [_ Hwf].
  split; [exact E|]. split; [exact Hlen|]. split; [exact Hwf|].
  split; [assumption|]. split; assumption.
Qed.

(** The invariants that do not depend on the heap, after one more row of the
    root was written. *)
Lemma merge_advance : forall P ss0 st p rest shard sh' nxt wctx out polls,
  mergeInv P ss0 st -> m_sh st = p :: rest ->
  nth_error (m_shards st) p = Some shard ->
  rowRefNext shard < length (rowRefs shard) ->
  NoDup sh' ->
  (forall q, In q sh' -> In q (p :: rest)) ->
  (forall q, In q rest -> In q sh') ->
  (In p sh' -> S (rowRefNext shard) < length (rowRefs shard)) ->
  (~ In p sh' -> S (rowRefNext shard) = length (rowRefs shard)) ->
  (forall q, nxt = Some q -> nth_error sh' 1 = Some q \/ nth_error sh' 2 = Some q) ->
  mergeInv P ss0
    {| m_shards := set_nth (m_shards st) p
                     (with_rowRefNext shard (S (rowRefNext shard)));
       m_sh := sh'; m_shardNext := nxt; m_wctx := wctx; m_out := out;
       m_polls := polls;
       m_written := m_written st ++ [(p, rowRefNext shard)] |}.
Proof.
  intros P ss0 st p rest shard sh' nxt wctx out polls
    Hinv Hsh Es Hlen Hnd Hsub Hsup Hin Hout Hnxt.
  destruct (merge_root P ss0 st p rest Hinv Hsh)
    as (shard0 & Es0 & _ & _ & Hnp & _ & Lrest).
  split; cbn [m_shards m_sh m_shardNext m_written].
  - rewrite (dataOf_set_next _ _ _ _ Es). apply (mi_frame _ _ _ Hinv).
  - apply storeOk_set_next; [apply (mi_ok _ _ _ Hinv)|exact Es].
  - exact Hnd.
  - apply Forall_forall. intros q Hq.
    destruct (Nat.eq_dec q p) as [->|Hne].
    + apply live_set_self; [exact Es|]. apply Hin. exact Hq.
    + apply live_set_other; [exact Hne|].
      rewrite Forall_forall in Lrest. apply Lrest.
      destruct (Hsub q Hq) as [E|E]; [congruence|exact E].
  - intros q s Eq Hq. destruct (Nat.eq_dec q p) as [->|Hne].
    + rewrite nth_error_set_nth_eq in Eq by (apply nth_error_Some; congruence).
      inversion Eq; subst s. cbn [rowRefNext rowRefs with_rowRefNext].
      apply Hout. exact Hq.
    + rewrite nth_error_set_nth_neq in Eq by congruence.
      apply (mi_done _ _ _ Hinv q s Eq). rewrite Hsh.
      intros [E|E]; [congruence|]. apply Hq. apply Hsup. exact E.
  - exact Hnxt.
  - eapply perm_trans;
      [|apply Permutation_sym; apply (emittedFrom_set_next _ _ _ 0 Es)].
    apply Permutation_app_tail. apply (mi_written _ _ _ Hinv).
Qed.

Lemma heapFrom_set_other : forall ss p rest s' n,
  ~ In p rest ->
  heapFrom ss (p :: rest) n 0 ->
  heapFrom (set_nth ss p s') (p :: rest) n 1.
Proof.
  intros ss p rest s' n Hnp Hh a Ha.
  assert (Hne : forall k x, 1 <= k -> nth_error (p :: rest) k = Some x -> x <> p).
  { intros k x Hk Ex ->. destruct k as [|k]; [lia|]. simpl in Ex.
    apply Hnp. eapply nth_error_In; eauto. }
  destruct (Hh a) as [C1 C2]; [lia|].
  split; intros Hc x y Ex Ey; unfold lePtr;
    (rewrite lessPtr_set_other;
     [ | eapply Hne; [|exact Ey]; lia | eapply Hne; [|exact Ex]; lia ]);
    [eapply C1|eapply C2]; eauto.
Qed.

Lemma qMin_set_other : forall ss p rest s' q,
  ~ In p rest -> In q rest ->
  qMin ss (p :: rest) q -> qMin (set_nth ss p s') (p :: rest) q.
Proof.
  intros ss p rest s' q Hnp Hq [H1 H2].
  assert (Hqp : q <> p) by (intros ->; contradiction).
  assert (Hne : forall k x, 1 <= k -> nth_error (p :: rest) k = Some x -> x <> p).
  { intros k x Hk Ex ->. destruct k as [|k]; [lia|]. simpl in Ex.
    apply Hnp. eapply nth_error_In; eauto. }
  split; intros x Ex; unfold lePtr;
    (rewrite lessPtr_set_other; [ | eapply Hne; [|exact Ex]; lia | exact Hqp ]);
    [apply H1|apply H2]; exact Ex.
Qed.

Lemma pickShardNext_spec : forall P ss p q1 rest,
  storeOk P ss -> Forall (live ss) (q1 :: rest) ->
  exists q, pickShardNext ss (p :: q1 :: rest) = Ok q
            /\ (nth_error (p :: q1 :: rest) 1 = Some q
                \/ nth_error (p :: q1 :: rest) 2 = Some q)
            /\ qMin ss (p :: q1 :: rest) q.
Proof.
  intros P ss p q1 rest Hok Hl. unfold pickShardNext.
  change (index (p :: q1 :: rest) 1) with (Ok q1). cbn [bind].
  inversion Hl as [|? ? L1 Lrest]; subst.
  destruct rest as [|q2 rest'].
  - cbn [length Nat.ltb Nat.leb]. exists q1. split; [reflexivity|].
    split; [left; reflexivity|].
    split; intros x Ex; simpl in Ex; inversion Ex; subst.
    eapply lePtr_refl; eauto.
  - cbn [length Nat.ltb Nat.leb]. inversion Lrest as [|? ? L2 _]; subst.
    change (index (p :: q1 :: q2 :: rest') 2) with (Ok q2). cbn [bind].
    assert (Hlt : (s2 <- index ss q2 ;; s1 <- index ss q1 ;;
                   lt <- sortBlockLess s2 (rowRefNext s2) s1 (rowRefNext s1) ;;
                   Ok (if lt then q2 else q1))
                  = (lt <- lessPtr ss q2 q1 ;; Ok (if lt then q2 else q1))).
    { unfold lessPtr. destruct (index ss q2); cbn [bind]; try reflexivity.
      destruct (index ss q1); reflexivity. }
    rewrite Hlt.
    destruct (lessPtr_total P ss q2 q1 Hok L2 L1) as [[|] Elt]; rewrite Elt;
      cbn [bind].
    + exists q2. split; [reflexivity|]. split; [right; reflexivity|].
      split; intros x Ex; simpl in Ex; inversion Ex; subst.
      * eapply lePtr_of_less; eauto.
      * eapply lePtr_refl; eauto.
    + exists q1. split; [reflexivity|]. split; [left; reflexivity|].
      split; intros x Ex; simpl in Ex; inversion Ex; subst.
      * eapply lePtr_refl; eauto.
      * exact Elt.
Qed.

(** The order invariants after one more row of the root was written, given
    the heap that the step leaves. *)
Lemma order_advance : forall P ss0 st p rest shard sh' nxt wctx out polls,
  mergeInv P ss0 st -> m_sh st = p :: rest ->
  nth_error (m_shards st) p = Some shard ->
  rowRefNext shard < length (rowRefs shard) ->
  transPos ss0 -> runsSorted ss0 -> orderInv ss0 st ->
  (forall q, In q sh' -> In q (p :: rest)) ->
  (In p sh' -> S (rowRefNext shard) < length (rowRefs shard)) ->
  heapFrom (set_nth (m_shards st) p (with_rowRefNext shard (S (rowRefNext shard))))
    sh' (length sh') 0 ->
  (forall q, nxt = Some q ->
     qMin (set_nth (m_shards st) p (with_rowRefNext shard (S (rowRefNext shard))))
       sh' q) ->
  orderInv ss0
    {| m_shards := set_nth (m_shards st) p
                     (with_rowRefNext shard (S (rowRefNext shard)));
       m_sh := sh'; m_shardNext := nxt; m_wctx := wctx; m_out := out;
       m_polls := polls;
       m_written := m_written st ++ [(p, rowRefNext shard)] |}.
Proof.
  intros P ss0 st p rest shard sh' nxt wctx out polls
    Hinv Hsh Es Hlen Htr Hruns Hord Hsub Hin Hheap Hnxt.
  pose proof (mi_frame _ _ _ Hinv) as Hf.
  assert (Hhead : headOf (m_shards st) p = (p, rowRefNext shard)).
  { unfold headOf. rewrite Es. reflexivity. }
  split; cbn [m_shards m_sh m_shardNext m_written].
  - exact Hheap.
  - exact Hnxt.
  - apply chainPos_snoc; [apply (oi_chain _ _ Hord)|].
    intros w Hw. rewrite <- Hhead. apply (oi_last _ _ Hord w p Hw).
    rewrite Hsh. left. reflexivity.
  - intros w q Hw Hq. apply lastIs_snoc in Hw. subst w.
    destruct (Nat.eq_dec q p) as [->|Hne].
    + unfold headOf.
      rewrite nth_error_set_nth_eq by (apply nth_error_Some; congruence).
      cbn [rowRefNext with_rowRefNext]. apply Hruns.
      apply (validPos_frame (m_shards st) ss0); [symmetry; exact Hf|].
      exists shard. split; [exact Es|]. simpl. apply Hin. exact Hq.
    + rewrite headOf_set_other by exact Hne. rewrite <- Hhead.
      apply (lePtr_lePos (m_shards st) ss0 p q Hf).
      assert (Hqr : In q (p :: rest)) by (apply Hsub; exact Hq).
      rewrite <- Hsh in Hqr. apply In_nth_error in Hqr. destruct Hqr as [k Ek].
      assert (Hk : k < length (m_sh st)) by (apply nth_error_Some; congruence).
      apply (heap_root_min (m_shards st) (m_sh st) (length (m_sh st))) with (k := k).
      * eapply transLive_of_transPos; eauto.
      * apply liveN_all. apply (mi_live _ _ _ Hinv).
      * lia.
      * apply (oi_heap _ _ Hord).
      * intros x _ Lx. eapply lePtr_refl; [apply (mi_ok _ _ _ Hinv)|exact Lx].
      * exact Hk.
      * rewrite Hsh. reflexivity.
      * exact Ek.
Qed.

Lemma mergeLoop_done : forall fuel stopCh st,
  length (m_sh st) <= 1 -> mergeLoop fuel stopCh st = Ok (st, Finished).
Proof.
  intros fuel stopCh st H.
  destruct fuel; simpl; destruct (Nat.leb_spec (length (m_sh st)) 1);
    try reflexivity; lia.
Qed.

Lemma sortBlockLess_ptr : forall ss q p sN sP,
  nth_error ss q = Some sN -> nth_error ss p = Some sP ->
  sortBlockLess sN (rowRefNext sN) sP (rowRefNext sP) = lessPtr ss q p.
Proof.
  intros ss q p sN sP EN EP. unfold lessPtr, index. rewrite EN, EP. reflexivity.
Qed.

Lemma Permutation_in_iff : forall (A : Type) (l l' : list A) x,
  Permutation l l' -> (In x l <-> In x l').
Proof.
  intros A l l' x H. split; intro Hx.
  - eapply Permutation_in; eauto.
  - eapply Permutation_in; [apply Permutation_sym|]; eauto.
Qed.

Lemma in_children : forall (p q1 : nat) rest' q,
  nth_error (p :: q1 :: rest') 1 = Some q \/ nth_error (p :: q1 :: rest') 2 = Some q ->
  In q (q1 :: rest').
Proof.
  intros p q1 rest' q [H|H].
  - inversion H. left. reflexivity.
  - right. apply (nth_error_In rest' 0). exact H.
Qed.

(** The merge loop, when [stopCh] stays open: it ends with at most one shard in
    the heap, it keeps the invariants, and with a transitive comparator on
    sorted shards it keeps the order invariants. *)
Lemma mergeLoop_spec : forall P ss0 stopCh fuel st,
  (forall k, stopCh k = false) ->
  mergeInv P ss0 st -> remainingRows (m_shards st) <= fuel ->
  exists st', mergeLoop fuel stopCh st = Ok (st', Finished)
              /\ mergeInv P ss0 st'
              /\ length (m_sh st') <= 1
              /\ (transPos ss0 -> runsSorted ss0 ->
                  orderInv ss0 st -> orderInv ss0 st').
Proof.
  intros P ss0 stopCh fuel. induction fuel as [|fuel IH]; intros st Hstop Hinv Hfuel.
  all: destruct (m_sh st) as [|p [|q1 rest']] eqn:Hsh.
  all: try (exists st; split; [apply mergeLoop_done; rewrite Hsh; simpl; lia|];
            split; [exact Hinv|]; split; [rewrite Hsh; simpl; lia|]; auto; fail).
  all: destruct (merge_root P ss0 st p (q1 :: rest') Hinv Hsh)
         as (shard & Es & Hlen & Hwf & Hnp & Hnd & Lrest).
  all: pose proof (remainingRows_set_next _ _ _ Es Hlen) as Hrem.
  - lia.
  - (* one iteration *)
    set (ss' := set_nth (m_shards st) p
                  (with_rowRefNext shard (S (rowRefNext shard)))) in *.
    assert (Hok' : storeOk P ss').
    { apply storeOk_set_next; [apply (mi_ok _ _ _ Hinv)|exact Es]. }
    assert (Lrest' : Forall (live ss') (q1 :: rest')).
    { apply Forall_forall. intros q Hq. apply live_set_other.
      - intros ->. contradiction.
      - rewrite Forall_forall in Lrest. apply Lrest. exact Hq. }
    assert (Hf' : map dataOf ss' = map dataOf ss0).
    { unfold ss'. rewrite (dataOf_set_next _ _ _ _ Es). apply (mi_frame _ _ _ Hinv). }
    assert (Es' : nth_error ss' p
                  = Some (with_rowRefNext shard (S (rowRefNext shard)))).
    { apply nth_error_set_nth_eq. apply nth_error_Some. congruence. }
    destruct (writeRow_total (m_wctx st) (m_out st) shard (rowRefNext shard) Hwf Hlen)
      as ([wctx out] & Ew).
    cbn [mergeLoop]. rewrite Hsh. cbn [length Nat.leb index nth_error bind].
    apply index_Ok in Es. rewrite Es. cbn [bind]. rewrite Ew. cbn [bind].
    apply index_Ok in Es. fold ss'.
    cbn [rowRefs rowRefNext with_rowRefNext].
    destruct (Nat.leb_spec (length (rowRefs shard)) (S (rowRefNext shard)))
      as [Hex|Hmore].
    + (* the shard is exhausted: [heap.Pop] *)
      destruct (heap_Pop_spec P ss' p (q1 :: rest') Hok' Lrest')
        as (sh' & Epop & Hperm & Hheap).
      rewrite Epop. cbn [bind]. rewrite Hstop.
      set (st1 := {| m_shards := ss'; m_sh := sh'; m_shardNext := None;
                     m_wctx := wctx; m_out := out; m_polls := S (m_polls st);
                     m_written := m_written st ++ [(p, rowRefNext shard)] |}).
      assert (Hinv1 : mergeInv P ss0 st1).
      { eapply (merge_advance P ss0 st p (q1 :: rest') shard sh'); eauto.
        - eapply Permutation_NoDup; eauto.
        - intros q Hq. right. apply (Permutation_in_iff _ _ _ q Hperm). exact Hq.
        - intros q Hq. apply (Permutation_in_iff _ _ _ q Hperm). exact Hq.
        - intros Hp. exfalso. apply Hnp.
          apply (Permutation_in_iff _ _ _ p Hperm). exact Hp.
        - intros _. lia.
        - discriminate. }
      destruct (IH st1 Hstop Hinv1) as (st' & E' & Hinv' & Hl' & Hord').
      { cbn [st1 m_shards]. lia. }
      exists st'. split; [exact E'|]. split; [exact Hinv'|]. split; [exact Hl'|].
      intros Htr Hruns Hord. apply Hord'; try assumption.
      eapply (order_advance P ss0 st p (q1 :: rest') shard sh'); eauto.
      * intros q Hq. right. apply (Permutation_in_iff _ _ _ q Hperm). exact Hq.
      * intros Hp. exfalso. apply Hnp.
        apply (Permutation_in_iff _ _ _ p Hperm). exact Hp.
      * apply Hheap; [eapply transLive_of_transPos; eauto|].
        apply heapFrom_set_other; [exact Hnp|].
        pose proof (oi_heap _ _ Hord) as Hh. rewrite Hsh in Hh. exact Hh.
      * discriminate.
    + (* the shard has rows left *)
      assert (Lp' : live ss' p).
      { apply live_set_self; [exact Es|lia]. }
      assert (Hq : exists q,
                (match m_shardNext st with
                 | Some q => Ok q
                 | None => pickShardNext ss' (p :: q1 :: rest')
                 end) = Ok q
                /\ (nth_error (p :: q1 :: rest') 1 = Some q
                    \/ nth_error (p :: q1 :: rest') 2 = Some q)
                /\ (transPos ss0 -> orderInv ss0 st ->
                    qMin ss' (p :: q1 :: rest') q)).
      { destruct (m_shardNext st) as [q|] eqn:En.
        - exists q. split; [reflexivity|].
          pose proof (mi_next _ _ _ Hinv q En) as Hm. rewrite Hsh in Hm.
          split; [exact Hm|]. intros _ Hord.
          apply qMin_set_other; [exact Hnp| |].
          + eapply in_children; eauto.
          + pose proof (oi_next _ _ Hord q En) as Hqm. rewrite Hsh in Hqm. exact Hqm.
        - destruct (pickShardNext_spec P ss' p q1 rest' Hok' Lrest')
            as (q & Eq & Hm & Hqm).
          exists q. auto. }
      destruct Hq as (q & Eq & Hm & Hqm). rewrite Eq. cbn [bind].
      assert (Hqin : In q (q1 :: rest')) by (eapply in_children; eauto).
      assert (Lq' : live ss' q).
      { rewrite Forall_forall in Lrest'. apply Lrest'. exact Hqin. }
      destruct Lq' as (sN & EN & HN).
      apply index_Ok in EN. rewrite EN. cbn [bind]. apply index_Ok in EN.
      assert (Hless : sortBlockLess sN (rowRefNext sN)
                        (with_rowRefNext shard (S (rowRefNext shard)))
                        (S (rowRefNext shard)) = lessPtr ss' q p).
      { rewrite <- (sortBlockLess_ptr ss' q p sN _ EN Es'). reflexivity. }
      rewrite Hless.
      assert (Lq' : live ss' q) by (exists sN; auto).
      assert (Lall' : Forall (live ss') (p :: q1 :: rest')).
      { constructor; assumption. }
      destruct (lessPtr_total P ss' q p Hok' Lq' Lp') as [[|] Elt]; rewrite Elt;
        cbn [bind].
      * (* the next shard is less: [heap.Fix] *)
        destruct (heap_Fix_spec P ss' (p :: q1 :: rest') Hok' Lall')
          as (sh' & Efix & Hperm & Hheap).
        rewrite Efix. cbn [bind]. rewrite Hstop.
        set (st1 := {| m_shards := ss'; m_sh := sh'; m_shardNext := None;
                       m_wctx := wctx; m_out := out; m_polls := S (m_polls st);
                       m_written := m_written st ++ [(p, rowRefNext shard)] |}).
        assert (Hinv1 : mergeInv P ss0 st1).
        { eapply (merge_advance P ss0 st p (q1 :: rest') shard sh'); eauto.
          - eapply Permutation_NoDup; [exact Hperm|]. rewrite <- Hsh.
            apply (mi_nodup _ _ _ Hinv).
          - intros x Hx. apply (Permutation_in_iff _ _ _ x Hperm). exact Hx.
          - intros x Hx. apply (Permutation_in_iff _ _ _ x Hperm). right. exact Hx.
          - intros Hp. exfalso. apply Hp.
            apply (Permutation_in_iff _ _ _ p Hperm). left. reflexivity.
          - discriminate. }
        destruct (IH st1 Hstop Hinv1) as (st' & E' & Hinv' & Hl' & Hord').
        { cbn [st1 m_shards]. lia. }
        exists st'. split; [exact E'|]. split; [exact Hinv'|]. split; [exact Hl'|].
        intros Htr Hruns Hord. apply Hord'; try assumption.
        eapply (order_advance P ss0 st p (q1 :: rest') shard sh'); eauto.
        -- intros x Hx. apply (Permutation_in_iff _ _ _ x Hperm). exact Hx.
        -- apply Hheap; [eapply transLive_of_transPos; eauto|].
           apply heapFrom_set_other; [exact Hnp|].
           pose proof (oi_heap _ _ Hord) as Hh. rewrite Hsh in Hh. exact Hh.
        -- discriminate.
      * (* the root stays *)
        set (st1 := {| m_shards := ss'; m_sh := m_sh st; m_shardNext := Some q;
                       m_wctx := wctx; m_out := out; m_polls := m_polls st;
                       m_written := m_written st ++ [(p, rowRefNext shard)] |}).
        rewrite <- Hsh. fold st1.
        assert (Hinv1 : mergeInv P ss0 st1).
        { unfold st1. rewrite Hsh.
          eapply (merge_advance P ss0 st p (q1 :: rest') shard (p :: q1 :: rest'));
            eauto.
          - rewrite <- Hsh. apply (mi_nodup _ _ _ Hinv).
          - intros x Hx. right. exact Hx.
          - intros Hp. exfalso. apply Hp. left. reflexivity.
          - intros x Hx. inversion Hx; subst. exact Hm. }
        destruct (IH st1 Hstop Hinv1) as (st' & E' & Hinv' & Hl' & Hord').
        { cbn [st1 m_shards]. lia. }
        exists st'. split; [exact E'|]. split; [exact Hinv'|]. split; [exact Hl'|].
        intros Htr Hruns Hord. apply Hord'; try assumption.
        unfold st1. rewrite Hsh.
        eapply (order_advance P ss0 st p (q1 :: rest') shard (p :: q1 :: rest')); eauto.
        -- (* the heap is still one *)
           pose proof (oi_heap _ _ Hord) as Hh. rewrite Hsh in Hh.
           pose proof (heapFrom_set_other _ p (q1 :: rest')
                         (with_rowRefNext shard (S (rowRefNext shard)))
                         _ Hnp Hh) as Hh1.
           fold ss' in Hh1.
           specialize (Hqm Htr Hord). destruct Hqm as [Q1 Q2].
           assert (Htl : transLive ss') by (eapply transLive_of_transPos; eauto).
           intros a Ha. destruct (Nat.eq_dec a 0) as [->|Hne]; [|apply Hh1; lia].
           assert (Hlv : forall k x, nth_error (p :: q1 :: rest') k = Some x ->
                                     live ss' x).
           { intros k x Ex. rewrite Forall_forall in Lall'. apply Lall'.
             eapply nth_error_In; eauto. }
           split; intros Hc x y Ex Ey; simpl in Ex; inversion Ex; subst x.
           ++ apply (Htl p q y); eauto.
           ++ apply (Htl p q y); eauto.
        -- intros x Hx. inversion Hx; subst. apply Hqm; assumption.
Qed.

(** ** The blocks written to [ppBase], from the rows written *)

(** The calls of [writeRow] for the positions [l], in order. *)
Fixpoint writeRows (ss : list pipeSortProcessorShard) (l : list (nat * nat))
  (w : pipeSortWriteContext * ppBaseLog) : res (pipeSortWriteContext * ppBaseLog) :=
  match l with
  | [] => Ok w
  | a :: rest =>
      s <- index ss (fst a) ;;
      w' <- writeRow (fst w) (snd w) s (snd a) ;;
      writeRows ss rest w'
  end.

Lemma writeRows_snoc : forall ss l a w,
  writeRows ss (l ++ [a]) w =
    (w1 <- writeRows ss l w ;;
     s <- index ss (fst a) ;;
     writeRow (fst w1) (snd w1) s (snd a)).
Proof.
  intros ss l a. induction l as [|x t IH]; intros w;
    cbn [writeRows app].
  - destruct (index ss (fst a)); cbn [bind]; try reflexivity.
    destruct (writeRow (fst w) (snd w) a0 (snd a)); reflexivity.
  - destruct (index ss (fst x)); cbn [bind]; try reflexivity.
    destruct (writeRow (fst w) (snd w) a0 (snd x)); cbn [bind]; try reflexivity.
    apply IH.
Qed.

Lemma writeRow_dataOf : forall w o s i,
  writeRow w o s i = writeRow w o (dataOf s) i.
Proof. reflexivity. Qed.

Lemma writeRows_frame : forall ss ss' l w,
  map dataOf ss' = map dataOf ss -> writeRows ss' l w = writeRows ss l w.
Proof.
  intros ss ss' l w Hf. revert w. induction l as [|a t IH]; intros w;
    cbn [writeRows]; [reflexivity|].
  assert (G : option_map dataOf (nth_error ss' (fst a))
              = option_map dataOf (nth_error ss (fst a))).
  { rewrite <- !nth_error_map, Hf. reflexivity. }
  unfold index.
  destruct (nth_error ss' (fst a)) as [s'|], (nth_error ss (fst a)) as [s|];
    cbn [option_map] in G; try discriminate; cbn [bind]; [|reflexivity].
  change (writeRow (fst w) (snd w) s' (snd a))
    with (writeRow (fst w) (snd w) (dataOf s') (snd a)).
  change (writeRow (fst w) (snd w) s (snd a))
    with (writeRow (fst w) (snd w) (dataOf s) (snd a)).
  assert (G1 : dataOf s' = dataOf s) by congruence. rewrite G1.
  destruct (writeRow (fst w) (snd w) (dataOf s) (snd a)); cbn [bind];
    try reflexivity. apply IH.
Qed.

(** The write context and the blocks of a merge state are those of the rows
    written so far. *)
Definition outInv (ss0 : list pipeSortProcessorShard)
  (w0 : pipeSortWriteContext * ppBaseLog) (st : mergeState) : Prop :=
  map dataOf (m_shards st) = map dataOf ss0
  /\ writeRows ss0 (m_written st) w0 = Ok (m_wctx st, m_out st).

Lemma outInv_step : forall ss0 w0 st p shard wctx out sh nxt polls,
  outInv ss0 w0 st ->
  nth_error (m_shards st) p = Some shard ->
  writeRow (m_wctx st) (m_out st) shard (rowRefNext shard) = Ok (wctx, out) ->
  outInv ss0 w0
    {| m_shards := set_nth (m_shards st) p
                     (with_rowRefNext shard (S (rowRefNext shard)));
       m_sh := sh; m_shardNext := nxt; m_wctx := wctx; m_out := out;
       m_polls := polls;
       m_written := m_written st ++ [(p, rowRefNext shard)] |}.
Proof.
  intros ss0 w0 st p shard wctx out sh nxt polls [Hf Hw] Es Ew.
  split; cbn [m_shards m_written m_wctx m_out].
  - rewrite (dataOf_set_next _ _ _ _ Es). exact Hf.
  - rewrite writeRows_snoc, Hw. cbn [bind fst snd].
    assert (G : option_map dataOf (nth_error (m_shards st) p)
                = option_map dataOf (nth_error ss0 p)).
    { rewrite <- !nth_error_map, Hf. reflexivity. }
    rewrite Es in G. unfold index.
    destruct (nth_error ss0 p) as [s0|]; cbn [option_map] in G; [|discriminate].
    cbn [bind]. assert (G1 : dataOf shard = dataOf s0) by congruence.
    change (writeRow (m_wctx st) (m_out st) s0 (rowRefNext shard))
      with (writeRow (m_wctx st) (m_out st) (dataOf s0) (rowRefNext shard)).
    rewrite <- G1. exact Ew.
Qed.

Lemma mergeLoop_out : forall ss0 w0 stopCh fuel st st' e,
  mergeLoop fuel stopCh st = Ok (st', e) ->
  outInv ss0 w0 st -> outInv ss0 w0 st'.
Proof.
  intros ss0 w0 stopCh fuel. induction fuel as [|fuel IH]; intros st st' e H Hinv;
    simpl in H; destruct (Nat.leb (length (m_sh st)) 1);
    try (inversion H; subst; exact Hinv); try discriminate.
  apply bind_Ok in H. destruct H as (p & _ & H).
  apply bind_Ok in H. destruct H as (shard & Es & H). apply index_Ok in Es.
  apply bind_Ok in H. destruct H as ([wctx out] & Ew & H).
  pose proof (fun sh nxt polls =>
                outInv_step ss0 w0 st p shard wctx out sh nxt polls Hinv Es Ew)
    as Hstep.
  destruct (Nat.leb (length (rowRefs shard)) (S (rowRefNext shard))).
  - apply bind_Ok in H. destruct H as (sh & _ & H).
    destruct (stopCh (m_polls st)).
    + inversion H; subst. apply Hstep.
    + eapply IH; [exact H|]. apply Hstep.
  - apply bind_Ok in H. destruct H as (q & _ & H).
    apply bind_Ok in H. destruct H as (sN & _ & H).
    apply bind_Ok in H. destruct H as (lt & _ & H).
    destruct lt.
    + apply bind_Ok in H. destruct H as (sh & _ & H).
      destruct (stopCh (m_polls st)).
      * inversion H; subst. apply Hstep.
      * eapply IH; [exact H|]. apply Hstep.
    + eapply IH; [exact H|]. apply Hstep.
Qed.

Lemma drainLoop_out : forall ss0 w0 k p st st',
  drainLoop k p st = Ok st' ->
  outInv ss0 w0 st -> outInv ss0 w0 st'.
Proof.
  intros ss0 w0 k p. induction k as [|k IH]; intros st st' H Hinv; simpl in H.
  - inversion H; subst. exact Hinv.
  - apply bind_Ok in H. destruct H as (shard & Es & H). apply index_Ok in Es.
    apply bind_Ok in H. destruct H as ([wctx out] & Ew & H).
    eapply IH; [exact H|].
    apply (outInv_step ss0 w0 st p shard wctx out _ _ _ Hinv Es Ew).
Qed.

(** ** The shards at the entry of [flush] *)

(** No shard has given a row to the merge before [flush]: [writeBlock] does
    not touch [rowRefNext]. *)
Lemma writeBlock_next0 : forall psp workerID b psp',
  wf_block b ->
  writeBlock psp workerID b = Ok psp' ->
  Forall (fun s => rowRefNext s = 0) (shards psp) ->
  Forall (fun s => rowRefNext s = 0) (shards psp').
Proof.
  intros psp workerID b psp' Hb H H0. unfold writeBlock in H.
  destruct (length (timestamps b) =? 0).
  { inversion H; subst. exact H0. }
  apply bind_Ok in H. destruct H as (shard & Es & H).
  apply bind_Ok in H. destruct H as ([[[g cancels] sb] go] & _ & H).
  apply index_Ok in Es.
  assert (Hin : In shard (shards psp)) by (eapply nth_error_In; eauto).
  pose proof (proj1 (Forall_forall _ _) H0 shard Hin) as Hs.
  destruct go.
  - destruct (shard_writeBlock_spec (with_stateSizeBudget shard sb) b Hb)
      as (shard2 & sblk & E2 & Happ).
    rewrite E2 in H. cbn [bind] in H. inversion H; subst psp'. clear H.
    simpl. apply Forall_set_nth; [exact H0|].
    destruct Happ as (_ & A2 & _). rewrite A2. exact Hs.
  - inversion H; subst psp'. clear H.
    simpl. apply Forall_set_nth; [exact H0|]. exact Hs.
Qed.

Lemma reachable_next0 : forall p psp,
  reachable p psp -> Forall (fun s => rowRefNext s = 0) (shards psp).
Proof.
  intros p psp H. induction H as [workersCount allowed|psp workerID b psp' _ IH Hb Hw].
  - unfold newPipeProcessor. cbn [shards]. apply Forall_forall.
    intros s Hs. apply repeat_spec in Hs. subst s. reflexivity.
  - eapply writeBlock_next0; eauto.
Qed.

(** ** The sort of every shard *)

(** [s'] is shard [s] with its row references reordered, in order when the
    comparator is transitive on them. *)
Definition sortedFrom (s s' : pipeSortProcessorShard) : Prop :=
  exists l', s' = with_rowRefs s l'
             /\ Permutation (rowRefs s) l'
             /\ (transitiveRefs s -> chainRefs s l').

Lemma sortPhase_spec : forall l,
  sortContract ->
  Forall wf_shard l ->
  exists ss, mapM sort_Sort l = Ok ss /\ Forall2 sortedFrom l ss.
Proof.
  intros l Hc. induction l as [|s t IH]; intros Hwf.
  - exists []. split; [reflexivity|constructor].
  - inversion Hwf as [|? ? Hs Ht]; subst.
    destruct (IH Ht) as (ss & Ess & Hss).
    destruct (sort_Sort_spec s Hc Hs) as (l' & El & Hp & Hch).
    exists (with_rowRefs s l' :: ss). split.
    + simpl. rewrite El. cbn [bind]. rewrite Ess. reflexivity.
    + constructor; [|exact Hss]. exists l'. auto.
Qed.

Lemma sortedFrom_wf : forall s s', sortedFrom s s' -> wf_shard s -> wf_shard s'.
Proof.
  intros s s' (l' & -> & Hp & _) Hwf.
  apply (sortable_perm s (rowRefs s) l' Hp Hwf).
Qed.

Lemma sortedFrom_store : forall P l ss,
  Forall2 sortedFrom l ss ->
  Forall (fun s => ps s = psp_ps P /\ wf_shard s) l ->
  storeOk P ss.
Proof.
  intros P l ss H. induction H as [|s s' l ss Hs _ IH]; intros Hl.
  - constructor.
  - inversion Hl as [|? ? [Hp Hw] Ht]; subst. constructor; [|apply IH; exact Ht].
    split; [|eapply sortedFrom_wf; eauto].
    destruct Hs as (l' & -> & _). exact Hp.
Qed.

Lemma sortedFrom_next0 : forall l ss,
  Forall2 sortedFrom l ss ->
  Forall (fun s => rowRefNext s = 0) l ->
  Forall (fun s => rowRefNext s = 0) ss.
Proof.
  intros l ss H. induction H as [|s s' l ss Hs _ IH]; intros Hl.
  - constructor.
  - inversion Hl as [|? ? Hn Ht]; subst. constructor; [|apply IH; exact Ht].
    destruct Hs as (l' & -> & _). exact Hn.
Qed.

(** ** Rows, and the comparator on rows *)

(** A row is a shard together with a row reference of it. *)
Definition rowLess (ss : list pipeSortProcessorShard) (a b : nat * sortRowRef)
  : res bool :=
  sA <- index ss (fst a) ;;
  sB <- index ss (fst b) ;;
  lessRowRefs sA (snd a) sB (snd b).

Definition isRow (ss : list pipeSortProcessorShard) (a : nat * sortRowRef) : Prop :=
  exists s, nth_error ss (fst a) = Some s /\ In (snd a) (rowRefs s).

(** The comparator is transitive on the rows held by the shards: the
    negation of [rowLess] composes. *)
Definition transitiveRows (ss : list pipeSortProcessorShard) : Prop :=
  forall a b x, isRow ss a -> isRow ss b -> isRow ss x ->
    rowLess ss b a = Ok false -> rowLess ss x b = Ok false ->
    rowLess ss x a = Ok false.

(** The row at a position [(p, i)]: row reference [i] of shard [p]. *)
Definition rowAt (ss : list pipeSortProcessorShard) (a : nat * nat)
  : res (nat * sortRowRef) :=
  s <- index ss (fst a) ;;
  rr <- index (rowRefs s) (snd a) ;;
  Ok (fst a, rr).

Lemma Forall2_nth_r : forall (A B : Type) (R : A -> B -> Prop) l l' p y,
  Forall2 R l l' -> nth_error l' p = Some y ->
  exists x, nth_error l p = Some x /\ R x y.
Proof.
  intros A B R l l' p y H. revert p. induction H as [|a b l l' Hab _ IH];
    intros [|p] Hp; simpl in Hp; try discriminate.
  - inversion Hp; subst. exists a. split; [reflexivity|exact Hab].
  - apply IH in Hp. exact Hp.
Qed.

Lemma Forall2_nth_l : forall (A B : Type) (R : A -> B -> Prop) l l' p x,
  Forall2 R l l' -> nth_error l p = Some x ->
  exists y, nth_error l' p = Some y /\ R x y.
Proof.
  intros A B R l l' p x H. revert p. induction H as [|a b l l' Hab _ IH];
    intros [|p] Hp; simpl in Hp; try discriminate.
  - inversion Hp; subst. exists b. split; [reflexivity|exact Hab].
  - apply IH in Hp. exact Hp.
Qed.

Lemma rowAt_valid : forall ss a,
  validPos ss a -> exists ra, rowAt ss a = Ok ra.
Proof.
  intros ss a (s & Es & Hlt). unfold rowAt, index. rewrite Es. cbn [bind].
  destruct (nth_error (rowRefs s) (snd a)) as [rr|] eqn:E.
  - eexists. reflexivity.
  - apply nth_error_None in E. lia.
Qed.

Lemma rowAt_isRow : forall l ss a ra,
  Forall2 sortedFrom l ss -> rowAt ss a = Ok ra -> isRow l ra.
Proof.
  intros l ss a ra H2 H. unfold rowAt in H.
  apply bind_Ok in H. destruct H as (s' & Es & H). apply index_Ok in Es.
  apply bind_Ok in H. destruct H as (rr & Er & H). apply index_Ok in Er.
  inversion H; subst ra. clear H.
  destruct (Forall2_nth_r _ _ _ _ _ _ _ H2 Es) as (s & Es0 & l' & -> & Hp & _).
  exists s. split; [exact Es0|]. cbn [snd].
  apply (Permutation_in _ (Permutation_sym Hp)).
  eapply nth_error_In. exact Er.
Qed.

Lemma lessPos_rows : forall l ss a b ra rb,
  Forall2 sortedFrom l ss ->
  rowAt ss a = Ok ra -> rowAt ss b = Ok rb ->
  lessPos ss a b = rowLess l ra rb.
Proof.
  intros l ss a b ra rb H2 Ha Hb. unfold rowAt in Ha, Hb.
  apply bind_Ok in Ha. destruct Ha as (sA & EA & Ha).
  apply bind_Ok in Ha. destruct Ha as (rrA & ErA & Ha). inversion Ha; subst ra.
  apply bind_Ok in Hb. destruct Hb as (sB & EB & Hb).
  apply bind_Ok in Hb. destruct Hb as (rrB & ErB & Hb). inversion Hb; subst rb.
  unfold lessPos, rowLess, sortBlockLess. cbn [fst snd].
  rewrite EA, EB. cbn [bind]. rewrite ErA, ErB. cbn [bind].
  apply index_Ok in EA, EB.
  destruct (Forall2_nth_r _ _ _ _ _ _ _ H2 EA) as (s1 & E1 & l1 & -> & _).
  destruct (Forall2_nth_r _ _ _ _ _ _ _ H2 EB) as (s2 & E2 & l2 & -> & _).
  unfold index. rewrite E1, E2. reflexivity.
Qed.

Lemma transPos_of_rows : forall l ss,
  Forall2 sortedFrom l ss -> transitiveRows l -> transPos ss.
Proof.
  intros l ss H2 Ht a b x Va Vb Vx Hab Hbx.
  destruct (rowAt_valid _ _ Va) as (ra & Ea).
  destruct (rowAt_valid _ _ Vb) as (rb & Eb).
  destruct (rowAt_valid _ _ Vx) as (rx & Ex).
  unfold lePos in *.
  rewrite (lessPos_rows l ss _ _ _ _ H2 Eb Ea) in Hab.
  rewrite (lessPos_rows l ss _ _ _ _ H2 Ex Eb) in Hbx.
  rewrite (lessPos_rows l ss _ _ _ _ H2 Ex Ea).
  apply (Ht ra rb rx); eauto using rowAt_isRow.
Qed.

Lemma transitiveRefs_of_rows : forall l p s,
  transitiveRows l -> nth_error l p = Some s -> transitiveRefs s.
Proof.
  intros l p s Ht Es a b x Ia Ib Ix Hab Hbx. unfold leRef in *.
  assert (G : forall u v, rowLess l (p, u) (p, v) = lessRowRefs s u s v).
  { intros u v. unfold rowLess, index. cbn [fst snd]. rewrite Es. reflexivity. }
  rewrite <- G in *.
  apply (Ht (p, a) (p, b) (p, x)); try (exists s; split; assumption); assumption.
Qed.

Lemma runsSorted_of_rows : forall l ss,
  Forall2 sortedFrom l ss -> transitiveRows l -> runsSorted ss.
Proof.
  intros l ss H2 Ht p i (s' & Es & Hlt). cbn [fst snd] in Es, Hlt.
  destruct (Forall2_nth_r _ _ _ _ _ _ _ H2 Es) as (s & E0 & l' & -> & _ & Hch).
  pose proof (Hch (transitiveRefs_of_rows l p s Ht E0)) as Hc.
  cbn [rowRefs with_rowRefs] in Hlt.
  destruct (nth_error l' (S i)) as [y|] eqn:Ey;
    [|apply nth_error_None in Ey; lia].
  destruct (nth_error l' i) as [x|] eqn:Ex;
    [|apply nth_error_None in Ex; lia].
  pose proof (Hc i x y Ex Ey) as Hle. unfold leRef in Hle.
  unfold lePos, lessPos, index. cbn [fst snd]. rewrite Es. cbn [bind].
  unfold sortBlockLess, index. cbn [rowRefs with_rowRefs]. rewrite Ey, Ex.
  cbn [bind]. exact Hle.
Qed.

(** ** The last shard of the merge *)

Lemma drainLoop_spec : forall P ss0 k p st shard,
  map dataOf (m_shards st) = map dataOf ss0 ->
  storeOk P (m_shards st) ->
  Permutation (m_written st) (emittedFrom (m_shards st) 0) ->
  (forall q s, nth_error (m_shards st) q = Some s -> q <> p ->
     rowRefNext s = length (rowRefs s)) ->
  nth_error (m_shards st) p = Some shard ->
  rowRefNext shard + k = length (rowRefs shard) ->
  exists st',
    drainLoop k p st = Ok st'
    /\ map dataOf (m_shards st') = map dataOf ss0
    /\ Permutation (m_written st') (emittedFrom (m_shards st') 0)
    /\ (forall q s, nth_error (m_shards st') q = Some s ->
          rowRefNext s = length (rowRefs s))
    /\ (runsSorted ss0 -> chainPos ss0 (m_written st) ->
        (forall w, lastIs (m_written st) w -> 0 < k ->
           lePos ss0 w (p, rowRefNext shard)) ->
        chainPos ss0 (m_written st')).
Proof.
  intros P ss0 k. induction k as [|k IH];
    intros p st shard Hf Hok Hw Hd Es Hk.
  - exists st. split; [reflexivity|]. split; [exact Hf|]. split; [exact Hw|].
    split; [|intros _ Hc _; exact Hc].
    intros q s Eq. destruct (Nat.eq_dec q p) as [->|Hne].
    + rewrite Es in Eq. inversion Eq; subst. lia.
    + eapply Hd; eauto.
  - assert (Hin : In shard (m_shards st)) by (eapply nth_error_In; eauto).
    destruct (proj1 (Forall_forall _ _) Hok shard Hin) as (_ & Hws).
    destruct (writeRow_total (m_wctx st) (m_out st) shard (rowRefNext shard) Hws)
      as ([wctx out] & Ew); [lia|].
    assert (Hp : p < length (m_shards st))
      by (apply nth_error_Some; rewrite Es; discriminate).
    set (st1 := {| m_shards := set_nth (m_shards st) p
                                 (with_rowRefNext shard (S (rowRefNext shard)));
                   m_sh := m_sh st; m_shardNext := m_shardNext st;
                   m_wctx := wctx; m_out := out; m_polls := m_polls st;
                   m_written := m_written st ++ [(p, rowRefNext shard)] |}).
    destruct (IH p st1 (with_rowRefNext shard (S (rowRefNext shard))))
      as (st' & Ed & Hf' & Hw' & Hd' & Hc').
    + cbn [st1 m_shards]. rewrite (dataOf_set_next _ _ _ _ Es). exact Hf.
    + cbn [st1 m_shards]. apply storeOk_set_next; assumption.
    + cbn [st1 m_shards m_written].
      eapply Permutation_trans;
        [|apply Permutation_sym; apply (emittedFrom_set_next _ _ _ 0 Es)].
      apply Permutation_app_tail. exact Hw.
    + cbn [st1 m_shards]. intros q s Eq Hne.
      rewrite nth_error_set_nth_neq in Eq by auto. eapply Hd; eauto.
    + cbn [st1 m_shards]. apply nth_error_set_nth_eq. exact Hp.
    + cbn [rowRefNext rowRefs with_rowRefNext]. lia.
    + exists st'. split.
      { cbn [drainLoop]. unfold index. rewrite Es. cbn [bind]. rewrite Ew.
        cbn [bind]. exact Ed. }
      split; [exact Hf'|]. split; [exact Hw'|]. split; [exact Hd'|].
      intros Hrs Hc Hl. apply Hc'; [exact Hrs| |].
      * cbn [st1 m_written]. apply chainPos_snoc; [exact Hc|].
        intros w Hlw. apply Hl; [exact Hlw|lia].
      * cbn [st1 m_written]. intros w Hlw Hk0.
        apply lastIs_snoc in Hlw. subst w.
        cbn [rowRefNext with_rowRefNext]. apply Hrs.
        apply (validPos_frame (m_shards st) ss0); [symmetry; exact Hf|].
        exists shard. split; [exact Es|]. cbn [snd]. lia.
Qed.

(** ** The heap of [flush] at the start of the merge *)

Lemma nonEmptyShards_In : forall ss p,
  In p (nonEmptyShards ss) <->
  exists s, nth_error ss p = Some s /\ 0 < length (rowRefs s).
Proof.
  intros ss p. unfold nonEmptyShards. rewrite filter_In, in_seq. split.
  - intros [_ H]. destruct (nth_error ss p) as [s|]; [|discriminate].
    exists s. split; [reflexivity|]. apply Nat.ltb_lt in H. exact H.
  - intros (s & Es & Hlt). split.
    + assert (p < length ss) by (apply nth_error_Some; rewrite Es; discriminate).
      lia.
    + rewrite Es. apply Nat.ltb_lt. exact Hlt.
Qed.

Lemma nonEmptyShards_NoDup : forall ss, NoDup (nonEmptyShards ss).
Proof. intros ss. apply NoDup_filter. apply seq_NoDup. Qed.

Lemma emittedFrom_next0 : forall ss p,
  Forall (fun s => rowRefNext s = 0) ss -> emittedFrom ss p = [].
Proof.
  intros ss. induction ss as [|s t IH]; intros p H; [reflexivity|].
  inversion H as [|? ? Hs Ht]; subst. simpl. rewrite Hs. simpl.
  apply IH. exact Ht.
Qed.

Lemma mergeInv_init : forall P ss sh wctx out polls,
  storeOk P ss ->
  Forall (fun s => rowRefNext s = 0) ss ->
  Permutation (nonEmptyShards ss) sh ->
  mergeInv P ss
    {| m_shards := ss; m_sh := sh; m_shardNext := None; m_wctx := wctx;
       m_out := out; m_polls := polls; m_written := [] |}.
Proof.
  intros P ss sh wctx out polls Hok H0 Hp.
  constructor; cbn [m_shards m_sh m_shardNext m_written].
  - reflexivity.
  - exact Hok.
  - apply (Permutation_NoDup Hp). apply nonEmptyShards_NoDup.
  - apply Forall_forall. intros p Hin.
    apply (Permutation_in _ (Permutation_sym Hp)) in Hin.
    apply nonEmptyShards_In in Hin. destruct Hin as (s & Es & Hlt).
    exists s. split; [exact Es|].
    assert (Hs : In s ss) by (eapply nth_error_In; eauto).
    rewrite (proj1 (Forall_forall _ _) H0 s Hs). exact Hlt.
  - intros p s Es Hn.
    assert (Hs : In s ss) by (eapply nth_error_In; eauto).
    rewrite (proj1 (Forall_forall _ _) H0 s Hs).
    destruct (length (rowRefs s)) as [|n] eqn:E; [reflexivity|].
    exfalso. apply Hn. apply (Permutation_in _ Hp).
    apply nonEmptyShards_In. exists s. split; [exact Es|lia].
  - intros q Hq. discriminate.
  - rewrite (emittedFrom_next0 _ _ H0). constructor.
Qed.

Lemma orderInv_init : forall ss sh wctx out polls,
  heapFrom ss sh (length sh) 0 ->
  orderInv ss
    {| m_shards := ss; m_sh := sh; m_shardNext := None; m_wctx := wctx;
       m_out := out; m_polls := polls; m_written := [] |}.
Proof.
  intros ss sh wctx out polls Hh.
  constructor; cbn [m_shards m_sh m_shardNext m_written].
  - exact Hh.
  - intros q Hq. discriminate.
  - intros k a b Ha. destruct k; discriminate.
  - intros w q [l' Hl]. destruct l'; discriminate.
Qed.

(** ** The rows of the shards *)

(** The rows that the shards hold, by their row references. *)
Fixpoint rowsFrom (ss : list pipeSortProcessorShard) (p : nat)
  : list (nat * sortRowRef) :=
  match ss with
  | [] => []
  | s :: t => map (pair p) (rowRefs s) ++ rowsFrom t (S p)
  end.

(** The rows of the blocks that the shards have ingested: every row of every
    block, by shard, block and row. *)
Fixpoint ingestedRows (ss : list pipeSortProcessorShard) (p : nat)
  : list (nat * sortRowRef) :=
  match ss with
  | [] => []
  | s :: t => map (pair p) (blockRows (blocks s) 0) ++ ingestedRows t (S p)
  end.

Lemma mapM_app : forall (A B : Type) (f : A -> res B) l1 l2 r1 r2,
  mapM f l1 = Ok r1 -> mapM f l2 = Ok r2 -> mapM f (l1 ++ l2) = Ok (r1 ++ r2).
Proof.
  intros A B f l1. induction l1 as [|x t IH]; intros l2 r1 r2 H1 H2; simpl in *.
  - inversion H1; subst. exact H2.
  - apply bind_Ok in H1. destruct H1 as (y & Ey & H1).
    apply bind_Ok in H1. destruct H1 as (r & Er & H1). inversion H1; subst r1.
    rewrite Ey. cbn [bind]. rewrite (IH l2 r r2 Er H2). reflexivity.
Qed.

Lemma mapM_perm : forall (A B : Type) (f : A -> res B) l l',
  Permutation l l' ->
  forall r', mapM f l' = Ok r' ->
  exists r, mapM f l = Ok r /\ Permutation r r'.
Proof.
  intros A B f l l' H. induction H as [|x l l' _ IH|x y l|l l1 l2 _ IH1 _ IH2];
    intros r' Hr.
  - exists r'. split; [exact Hr|apply Permutation_refl].
  - simpl in Hr. apply bind_Ok in Hr. destruct Hr as (b & Eb & Hr).
    apply bind_Ok in Hr. destruct Hr as (t & Et & Hr). inversion Hr; subst r'.
    destruct (IH t Et) as (r & Er & Hp).
    exists (b :: r). split; [|constructor; exact Hp].
    simpl. rewrite Eb. cbn [bind]. rewrite Er. reflexivity.
  - simpl in Hr. apply bind_Ok in Hr. destruct Hr as (b & Eb & Hr).
    apply bind_Ok in Hr. destruct Hr as (t & Et & Hr). inversion Hr; subst r'.
    apply bind_Ok in Et. destruct Et as (b2 & Eb2 & Et).
    apply bind_Ok in Et. destruct Et as (t2 & Et2 & Et). inversion Et; subst t.
    exists (b2 :: b :: t2). split; [|apply perm_swap].
    simpl. rewrite Eb2. cbn [bind]. rewrite Eb. cbn [bind]. rewrite Et2.
    reflexivity.
  - destruct (IH2 r' Hr) as (r1 & E1 & P1).
    destruct (IH1 r1 E1) as (r & E & P0).
    exists r. split; [exact E|]. eapply Permutation_trans; eauto.
Qed.

Lemma rowAt_shard : forall store p s pre l,
  nth_error store p = Some s -> rowRefs s = pre ++ l ->
  mapM (rowAt store) (map (pair p) (seq (length pre) (length l)))
  = Ok (map (pair p) l).
Proof.
  intros store p s pre l Es. revert pre. induction l as [|rr t IH];
    intros pre Hr; [reflexivity|].
  cbn [length seq map mapM]. unfold rowAt at 1, index. cbn [fst snd].
  rewrite Es. cbn [bind]. rewrite Hr, nth_error_app2 by lia.
  rewrite Nat.sub_diag. cbn [nth_error bind].
  specialize (IH (pre ++ [rr])). rewrite length_app in IH. cbn [length] in IH.
  replace (length pre + 1) with (S (length pre)) in IH by lia.
  rewrite IH; [reflexivity|]. rewrite <- app_assoc. exact Hr.
Qed.

Lemma rowAt_emitted : forall ss pre,
  Forall (fun s => rowRefNext s = length (rowRefs s)) ss ->
  mapM (rowAt (pre ++ ss)) (emittedFrom ss (length pre))
  = Ok (rowsFrom ss (length pre)).
Proof.
  intros ss. induction ss as [|s t IH]; intros pre H; [reflexivity|].
  inversion H as [|? ? Hs Ht]; subst. cbn [emittedFrom rowsFrom].
  apply mapM_app.
  - rewrite Hs.
    apply (rowAt_shard (pre ++ s :: t) (length pre) s [] (rowRefs s));
      [|reflexivity].
    rewrite nth_error_app2 by lia. rewrite Nat.sub_diag. reflexivity.
  - specialize (IH (pre ++ [s]) Ht). rewrite <- app_assoc in IH.
    rewrite length_app in IH. cbn [length app] in IH.
    replace (length pre + 1) with (S (length pre)) in IH by lia. exact IH.
Qed.

Lemma rowsFrom_frame : forall ss ss' p,
  map dataOf ss' = map dataOf ss -> rowsFrom ss' p = rowsFrom ss p.
Proof.
  intros ss. induction ss as [|s t IH]; intros [|s' t'] p H; simpl in H;
    try discriminate; [reflexivity|].
  injection H as H1 H2 H3 H4 H5. cbn [rowsFrom]. rewrite H3.
  f_equal. apply IH. exact H5.
Qed.

Lemma rowsFrom_sorted : forall l ss p,
  Forall2 sortedFrom l ss -> Permutation (rowsFrom ss p) (rowsFrom l p).
Proof.
  intros l ss p H. revert p. induction H as [|s s' l ss Hs _ IH]; intros p.
  - constructor.
  - cbn [rowsFrom]. apply Permutation_app; [|apply IH].
    destruct Hs as (l' & -> & Hp & _). cbn [rowRefs with_rowRefs].
    apply Permutation_map. apply Permutation_sym. exact Hp.
Qed.

Lemma rowsFrom_ingested : forall l p,
  Forall (fun s => Permutation (rowRefs s) (blockRows (blocks s) 0)) l ->
  Permutation (rowsFrom l p) (ingestedRows l p).
Proof.
  intros l. induction l as [|s t IH]; intros p H.
  - constructor.
  - inversion H as [|? ? Hs Ht]; subst. cbn [rowsFrom ingestedRows].
    apply Permutation_app; [|apply IH; exact Ht].
    apply Permutation_map. exact Hs.
Qed.

(** The rows written by a merge that has exhausted every shard are the rows
    of the shards. *)
Lemma written_rows : forall ss written,
  Permutation written (emittedFrom ss 0) ->
  (forall q s, nth_error ss q = Some s -> rowRefNext s = length (rowRefs s)) ->
  exists rows, mapM (rowAt ss) written = Ok rows
               /\ Permutation rows (rowsFrom ss 0).
Proof.
  intros ss written Hp Hd.
  apply (mapM_perm _ _ (rowAt ss) _ _ Hp).
  apply (rowAt_emitted ss []). apply Forall_forall. intros s Hs.
  apply In_nth_error in Hs. destruct Hs as (q & Eq). eapply Hd; eauto.
Qed.

Lemma finish_spec : forall P ss0 w0 st,
  mergeInv P ss0 st -> length (m_sh st) <= 1 ->
  exists st1,
    (if Nat.eqb (length (m_sh st)) 1 then
       p <- index (m_sh st) 0 ;;
       shard <- index (m_shards st) p ;;
       drainLoop (length (rowRefs shard) - rowRefNext shard) p st
     else Ok st) = Ok st1
    /\ map dataOf (m_shards st1) = map dataOf ss0
    /\ Permutation (m_written st1) (emittedFrom (m_shards st1) 0)
    /\ (forall q s, nth_error (m_shards st1) q = Some s ->
          rowRefNext s = length (rowRefs s))
    /\ (runsSorted ss0 -> orderInv ss0 st -> chainPos ss0 (m_written st1))
    /\ (outInv ss0 w0 st -> outInv ss0 w0 st1).
Proof.
  intros P ss0 w0 st Hinv Hlen.
  destruct (m_sh st) as [|p [|p2 rest]] eqn:Esh; cbn [length] in Hlen; [| |lia].
  - exists st. cbn [length Nat.eqb]. split; [reflexivity|].
    split; [apply (mi_frame _ _ _ Hinv)|].
    split; [apply (mi_written _ _ _ Hinv)|].
    split; [|split; [intros _ Ho; apply (oi_chain _ _ Ho)|auto]].
    intros q s Eq. apply (mi_done _ _ _ Hinv q s Eq). rewrite Esh. intros [].
  - cbn [length Nat.eqb index nth_error bind].
    pose proof (mi_live _ _ _ Hinv) as Hl. rewrite Esh in Hl.
    inversion Hl as [|? ? (shard & Es & Hlt) _]; subst.
    unfold index. rewrite Es. cbn [bind].
    destruct (drainLoop_spec P ss0 (length (rowRefs shard) - rowRefNext shard)
                p st shard (mi_frame _ _ _ Hinv) (mi_ok _ _ _ Hinv)
                (mi_written _ _ _ Hinv))
      as (st1 & Ed & Hf & Hw & Hd & Hc); [|exact Es|lia|].
    { intros q s Eq Hne. apply (mi_done _ _ _ Hinv q s Eq). rewrite Esh.
      intros [->|[]]. apply Hne. reflexivity. }
    exists st1. split; [exact Ed|]. split; [exact Hf|]. split; [exact Hw|].
    split; [exact Hd|]. split.
    + intros Hrs Ho. apply Hc; [exact Hrs|apply (oi_chain _ _ Ho)|].
      intros w Hlw _.
      pose proof (oi_last _ _ Ho w p Hlw) as G. rewrite Esh in G.
      specialize (G (or_introl eq_refl)). unfold headOf in G.
      rewrite Es in G. exact G.
    + intros Ho. eapply drainLoop_out; eauto.
Qed.

Lemma blocks_frame : forall ss ss',
  map dataOf ss' = map dataOf ss -> map blocks ss' = map blocks ss.
Proof.
  intros ss ss' H.
  assert (G : forall l, map blocks l = map blocks (map dataOf l)).
  { intros l. rewrite map_map. reflexivity. }
  rewrite (G ss'), (G ss), H. reflexivity.
Qed.

Lemma blocks_sorted : forall l ss,
  Forall2 sortedFrom l ss -> map blocks ss = map blocks l.
Proof.
  intros l ss H. induction H as [|s s' l ss Hs _ IH]; [reflexivity|].
  simpl. rewrite IH. destruct Hs as (l' & -> & _). reflexivity.
Qed.

(** ** [flush] when nothing stops it *)

(** With budget left and no stop observed, [flush] sorts every shard, merges
    them to the end and writes the last batch. *)
Lemma flush_spec : forall p psp stopCh,
  sortContract ->
  reachable p psp ->
  (0 < psp_stateSizeBudget psp)%Z ->
  (forall k, stopCh k = false) ->
  exists r rows w o,
    flush stopCh psp = Ok r
    /\ f_err r = None
    /\ map blocks (shards (f_psp r)) = map blocks (shards psp)
    /\ mapM (rowAt (shards (f_psp r))) (f_written r) = Ok rows
    /\ Permutation rows (ingestedRows (shards psp) 0)
    /\ writeRows (shards (f_psp r)) (f_written r)
         ({| rcs := []; valuesLen := 0 |}, ppBase psp) = Ok (w, o)
    /\ ppBase (f_psp r) = snd (wctx_flush w o)
    /\ (transitiveRows (shards psp) ->
        chainPos (shards (f_psp r)) (f_written r)).
Proof.
  intros p psp stopCh Hc Hreach Hb Hstop.
  destruct (reachable_inv p psp Hreach) as ([Hwf _] & Hps).
  pose proof (reachable_next0 p psp Hreach) as H0.
  unfold wf_processor in Hwf.
  assert (Hwf1 : Forall wf_shard (shards psp)).
  { apply Forall_forall. intros s Hs.
    apply (proj1 (Forall_forall _ _) Hwf s Hs). }
  assert (Hwf2 : Forall (fun s => ps s = psp_ps psp /\ wf_shard s) (shards psp)).
  { apply Forall_forall. intros s Hs.
    destruct (proj1 (Forall_forall _ _) Hwf s Hs) as (A & B & _). auto. }
  assert (Hwf3 : Forall (fun s => Permutation (rowRefs s) (blockRows (blocks s) 0))
                   (shards psp)).
  { apply Forall_forall. intros s Hs.
    apply (proj1 (Forall_forall _ _) Hwf s Hs). }
  destruct (sortPhase_spec (shards psp) Hc Hwf1) as (ss & Ess & H2).
  pose proof (sortedFrom_store psp _ _ H2 Hwf2) as Hok.
  pose proof (sortedFrom_next0 _ _ H2 H0) as Hn0.
  unfold flush.
  replace (psp_stateSizeBudget psp <=? 0)%Z with false
    by (symmetry; apply Z.leb_gt; exact Hb).
  rewrite (Hstop 0), Ess. cbn [bind]. rewrite (Hstop 1).
  set (w0 := ({| rcs := []; valuesLen := 0 |}, ppBase psp)).
  assert (Fin : forall shardsF written wF oF,
    map dataOf shardsF = map dataOf ss ->
    Permutation written (emittedFrom shardsF 0) ->
    (forall q s, nth_error shardsF q = Some s ->
       rowRefNext s = length (rowRefs s)) ->
    writeRows ss written w0 = Ok (wF, oF) ->
    (transitiveRows (shards psp) -> chainPos ss written) ->
    exists rows w o,
      map blocks shardsF = map blocks (shards psp)
      /\ mapM (rowAt shardsF) written = Ok rows
      /\ Permutation rows (ingestedRows (shards psp) 0)
      /\ writeRows shardsF written w0 = Ok (w, o)
      /\ snd (wctx_flush wF oF) = snd (wctx_flush w o)
      /\ (transitiveRows (shards psp) -> chainPos shardsF written)).
  { intros shardsF written wF oF Hf Hw Hd Hwr Hch.
    destruct (written_rows shardsF written Hw Hd) as (rows & Er & Hp).
    exists rows, wF, oF. split.
    { rewrite (blocks_frame _ _ Hf). apply blocks_sorted. exact H2. }
    split; [exact Er|]. split.
    { eapply Permutation_trans; [exact Hp|].
      rewrite (rowsFrom_frame _ _ 0 Hf).
      eapply Permutation_trans; [apply rowsFrom_sorted; exact H2|].
      apply rowsFrom_ingested. exact Hwf3. }
    split; [rewrite (writeRows_frame _ _ _ _ Hf); exact Hwr|].
    split; [reflexivity|].
    intros Ht k a b Ha Hb'. unfold lePos.
    rewrite (lessPos_frame _ _ _ _ Hf). apply (Hch Ht k a b Ha Hb'). }
  destruct (Nat.eqb (length (nonEmptyShards ss)) 0) eqn:Ene.
  - apply Nat.eqb_eq in Ene. apply length_zero_iff_nil in Ene.
    destruct (Fin ss [] {| rcs := []; valuesLen := 0 |} (ppBase psp))
      as (rows & w & o & F1 & F2 & F3 & F4 & F5 & F6).
    + reflexivity.
    + rewrite (emittedFrom_next0 _ _ Hn0). constructor.
    + intros q s Eq.
      assert (Hs : In s ss) by (eapply nth_error_In; eauto).
      rewrite (proj1 (Forall_forall _ _) Hn0 s Hs).
      destruct (length (rowRefs s)) as [|n] eqn:E; [reflexivity|].
      exfalso. assert (G : In q (nonEmptyShards ss)).
      { apply nonEmptyShards_In. exists s. split; [exact Eq|lia]. }
      rewrite Ene in G. exact G.
    + reflexivity.
    + intros _ k a b Ha. destruct k; discriminate.
    + eexists _, rows, w, o. split; [reflexivity|].
      cbn [f_err f_psp f_written shards with_shards ppBase].
      repeat (split; [first [reflexivity|assumption]|]).
      exact F6.
  - destruct (heap_Init_spec psp ss (nonEmptyShards ss) Hok)
      as (sh & Esh & Hperm & Hheap).
    { apply Forall_forall. intros q Hq. apply nonEmptyShards_In in Hq.
      destruct Hq as (s & Es & Hlt). exists s. split; [exact Es|].
      assert (Hs : In s ss) by (eapply nth_error_In; eauto).
      rewrite (proj1 (Forall_forall _ _) Hn0 s Hs). exact Hlt. }
    rewrite Esh. cbn [bind].
    set (st0 := {| m_shards := ss; m_sh := sh; m_shardNext := None;
                   m_wctx := {| rcs := []; valuesLen := 0 |};
                   m_out := ppBase psp; m_polls := 2; m_written := [] |}).
    assert (Hinv0 : mergeInv psp ss st0)
      by (apply mergeInv_init; assumption).
    destruct (mergeLoop_spec psp ss stopCh (remainingRows ss) st0 Hstop Hinv0
                (le_n _))
      as (st' & El & Hinv' & Hlen & Hord).
    rewrite El. cbn [bind].
    assert (Hout0 : outInv ss w0 st0) by (split; reflexivity).
    pose proof (mergeLoop_out ss w0 _ _ _ _ _ El Hout0) as Hout'.
    destruct (finish_spec psp ss w0 st' Hinv' Hlen)
      as (st1 & E1 & Hf1 & Hw1 & Hd1 & Hc1 & Ho1).
    rewrite E1. cbn [bind].
    destruct (Ho1 Hout') as [_ Hwr1].
    destruct (Fin (m_shards st1) (m_written st1) (m_wctx st1) (m_out st1)
                Hf1 Hw1 Hd1 Hwr1)
      as (rows & w & o & F1 & F2 & F3 & F4 & F5 & F6).
    { intros Ht.
      pose proof (transPos_of_rows _ _ H2 Ht) as Htp.
      pose proof (runsSorted_of_rows _ _ H2 Ht) as Hrs.
      apply (Hc1 Hrs). apply (Hord Htp Hrs). apply orderInv_init.
      apply Hheap. apply (transLive_of_transPos ss ss eq_refl Htp). }
    destruct (wctx_flush (m_wctx st1) (m_out st1)) as [wz oz] eqn:Ez.
    eexists _, rows, w, o. split; [reflexivity|].
    cbn [f_err f_psp f_written shards with_shards with_ppBase ppBase].
    cbn [snd] in F5.
    repeat (split; [first [reflexivity|assumption]|]).
    exact F6.
Qed.

(** ** The claims on the merge, the tiers, the parser and the batcher *)

(** The decision of a key on which neither side is const or time is the one
    of the three tiers, and a tie passes to the next key. *)
Lemma lessFrom_tiers :
  forall p bA rrA bB rrB idx cA cB desc uA uB fA fB sA sB,
  nth_error (byColumns bA) idx = Some cA ->
  nth_error (byColumns bB) idx = Some cB ->
  keyDesc p idx = Ok desc ->
  isConst (c cA) = false -> isConst (c cB) = false ->
  isTime (c cA) = false -> isTime (c cB) = false ->
  nth_error (i64Values cA) (rowIdx rrA) = Some uA ->
  nth_error (i64Values cB) (rowIdx rrB) = Some uB ->
  nth_error (f64Values cA) (rowIdx rrA) = Some fA ->
  nth_error (f64Values cB) (rowIdx rrB) = Some fB ->
  nth_error (values (c cA)) (rowIdx rrA) = Some sA ->
  nth_error (values (c cB)) (rowIdx rrB) = Some sB ->
  lessFrom p bA rrA bB rrB idx =
    match tierDecision desc uA uB fA fB sA sB with
    | Some b => Ok b
    | None => lessFrom p bA rrA bB rrB (S idx)
    end.
Proof.
  intros p bA rrA bB rrB idx cA cB desc uA uB fA fB sA sB
    EA EB Ed H1 H2 H3 H4 H5 H6 H7 H8 H9 H10.
  rewrite (lessFrom_step p bA rrA bB rrB idx cA EA).
  unfold index at 1. rewrite EB. cbn [bind]. rewrite Ed. cbn [bind].
  rewrite (lessAtKey_tiers desc bA cA rrA bB cB rrB uA uB fA fB sA sB);
    try assumption.
  reflexivity.
Qed.

(** C6. [tryParseInt64] rejects the empty string; on any other string it
    drops one leading minus sign, parses the rest as an unsigned number, and
    succeeds exactly when that parse succeeds and the signed value lies in
    [-2^63, 2^63 - 1]; so, with an unsigned parser that reads
    9223372036854775808, the string -9223372036854775808 parses to -2^63 and
    the string 9223372036854775808 is rejected. *)
Theorem tryParseInt64_signed_range :
  tryParseInt64 EmptyString = (0%Z, false)
  /\ (forall ch rest u ok,
        tryParseUint64 (if Ascii.eqb ch "-" then rest else String ch rest)
        = (u, ok) ->
        (0 <= u)%Z ->
        tryParseInt64 (String ch rest) =
          if ok && (if Ascii.eqb ch "-"
                    then (- 9223372036854775808 <=? - u)%Z
                    else (u <=? 9223372036854775807)%Z)
          then ((if Ascii.eqb ch "-" then - u else u)%Z, true)
          else (0%Z, false))
  /\ (tryParseUint64 "9223372036854775808" = (9223372036854775808%Z, true) ->
      tryParseInt64 "-9223372036854775808" = ((- 9223372036854775808)%Z, true)
      /\ tryParseInt64 "9223372036854775808" = (0%Z, false)).
Proof.
  split; [reflexivity|]. split.
  - intros ch rest u ok E Hu.
    rewrite (tryParseInt64_cases ch rest u ok E Hu).
    destruct (Ascii.eqb ch "-"); [|reflexivity].
    replace (- 9223372036854775808 <=? - u)%Z with (u <=? 9223372036854775808)%Z;
      [reflexivity|].
    destruct (Z.leb_spec u 9223372036854775808);
      destruct (Z.leb_spec (- 9223372036854775808) (- u)); try reflexivity; lia.
  - intros H. split.
    + rewrite (tryParseInt64_cases "-" "9223372036854775808"
                 9223372036854775808%Z true); [reflexivity|exact H|lia].
    + rewrite (tryParseInt64_cases "9" "223372036854775808"
                 9223372036854775808%Z true); [reflexivity|exact H|lia].
Qed.


(** * Further properties of the code *)

(** ** The comparator under [desc] *)

(** The pipe with its [desc] flag flipped: [sort by (...) desc] for
    [sort by (...)]. *)
Definition flipDesc (p : pipeSort) : pipeSort :=
  {| byFields := byFields p; isDesc := negb (isDesc p) |}.

Definition with_ps (shard : pipeSortProcessorShard) (p : pipeSort)
  : pipeSortProcessorShard :=
  {| ps := p; blocks := blocks shard; rowRefs := rowRefs shard;
     rowRefNext := rowRefNext shard; stateSizeBudget := stateSizeBudget shard |}.

Lemma keyDesc_flipDesc : forall p idx,
  keyDesc (flipDesc p) idx = (d <- keyDesc p idx ;; Ok (negb d)).
Proof.
  intros p idx. unfold keyDesc, flipDesc. cbn [byFields isDesc].
  destruct (Nat.ltb 0 (length (byFields p))); cbn [bind].
  - destruct (index (byFields p) idx) as [bf| |]; cbn [bind]; try reflexivity.
    destruct (isDesc p), (bf_isDesc bf); reflexivity.
  - destruct (isDesc p); reflexivity.
Qed.

Lemma lessAtKey_reverse : forall desc bA cA rrA bB cB rrB,
  isConst (c cA) && isConst (c cB) = false ->
  isTime (c cA) = isTime (c cB) ->
  lessAtKey (negb desc) bA cA rrA bB cB rrB
  = lessAtKey desc bB cB rrB bA cA rrA.
Proof.
  intros desc bA cA rrA bB cB rrB Hc Ht.
  unfold lessAtKey, getI64ValueAtRow, getF64ValueAtRow, getValueAtRow.
  rewrite (andb_asym_comm _ _ Hc), Hc, <- Ht.
  destruct (isConst (c cA)), (isConst (c cB)), (isTime (c cA));
    try discriminate; cbn [andb negb];
    repeat case_index; try reflexivity;
    repeat match goal with
      | |- context [(?a =? ?b)%string] =>
          rewrite (String.eqb_sym b a); destruct (a =? b)%string; cbn [andb negb]
      | |- context [(?a =? 0)%Z] => destruct (a =? 0)%Z; cbn [andb negb]
      | |- context [(?a =? ?b)%Z] =>
          rewrite (Z.eqb_sym b a); destruct (a =? b)%Z; cbn [andb negb]
      | |- context [IsNaN ?f] => destruct (IsNaN f); cbn [andb negb]
      | |- context [f64_eqb ?a ?b] =>
          rewrite (f64_eqb_sym b a); destruct (f64_eqb a b); cbn [andb negb]
      end;
    try reflexivity; destruct desc; reflexivity.
Qed.

Lemma lessLoop_reverse : forall p bA rrA bB rrB colsA colsB idx,
  colsA = skipn idx (byColumns bA) ->
  colsB = skipn idx (byColumns bB) ->
  length colsA = length colsB ->
  (forall i cA cB,
     nth_error (byColumns bA) i = Some cA ->
     nth_error (byColumns bB) i = Some cB ->
     isConst (c cA) && isConst (c cB) = false
     /\ isTime (c cA) = isTime (c cB)) ->
  lessLoop (flipDesc p) bA rrA bB rrB colsA idx
  = lessLoop p bB rrB bA rrA colsB idx.
Proof.
  intros p bA rrA bB rrB colsA.
  induction colsA as [|cA rest IH]; intros colsB idx HA HB Hlen Hflags.
  - destruct colsB; [reflexivity|discriminate].
  - destruct colsB as [|cB restB]; [discriminate|].
    symmetry in HA, HB.
    apply skipn_nth_error in HA. destruct HA as [EA HrA].
    apply skipn_nth_error in HB. destruct HB as [EB HrB].
    cbn [lessLoop]. unfold index. rewrite EA, EB. cbn [bind].
    rewrite keyDesc_flipDesc.
    destruct (keyDesc p idx) as [desc| |]; cbn [bind]; try reflexivity.
    destruct (Hflags idx cA cB EA EB) as [Hc Ht].
    rewrite (lessAtKey_reverse desc bA cA rrA bB cB rrB Hc Ht).
    destruct (lessAtKey desc bB cB rrB bA cA rrA) as [[b|]| |]; cbn [bind];
      try reflexivity.
    apply IH; auto; cbn [length] in Hlen; lia.
Qed.

(** X2. Flipping the [desc] flag of the pipe reverses the comparator: for
    two rows whose blocks have as many keys, none const on both sides and
    none the time column on one side only, [sortBlockLess] under the flipped
    pipe is [sortBlockLess] under the pipe with the two rows exchanged. *)
Theorem desc_reverses_comparator :
  forall shardA iA shardB iB rrA rrB bA bB,
  ps shardA = ps shardB ->
  nth_error (rowRefs shardA) iA = Some rrA ->
  nth_error (rowRefs shardB) iB = Some rrB ->
  nth_error (blocks shardA) (blockIdx rrA) = Some bA ->
  nth_error (blocks shardB) (blockIdx rrB) = Some bB ->
  length (byColumns bA) = length (byColumns bB) ->
  (forall i cA cB,
     nth_error (byColumns bA) i = Some cA ->
     nth_error (byColumns bB) i = Some cB ->
     isConst (c cA) && isConst (c cB) = false
     /\ isTime (c cA) = isTime (c cB)) ->
  sortBlockLess (with_ps shardA (flipDesc (ps shardA))) iA
                (with_ps shardB (flipDesc (ps shardB))) iB
  = sortBlockLess shardB iB shardA iA.
Proof.
  intros shardA iA shardB iB rrA rrB bA bB Hps ErA ErB EbA EbB Hlen Hflags.
  unfold sortBlockLess, lessRowRefs, index.
  cbn [rowRefs blocks ps with_ps].
  rewrite ErA, ErB. cbn [bind]. rewrite EbA, EbB. cbn [bind].
  rewrite <- Hps.
  apply lessLoop_reverse; auto.
Qed.


(** ** What [shard.writeBlock] stores *)





(** ** What a processor holds before [flush] *)

Lemma blockRows_app_0 : forall bs sb,
  blockRows (bs ++ [sb]) 0 =
    blockRows bs 0
    ++ map (fun i => {| blockIdx := length bs; rowIdx := i |})
         (seq 0 (length (timestamps (br sb)))).
Proof. intros bs sb. rewrite blockRows_app. reflexivity. Qed.

(** The outcome of [writeBlock] on the shard of the worker: the budget of the
    shard aside, either nothing changes or the block is appended. *)
Lemma writeBlock_cases : forall psp workerID b psp',
  wf_block b ->
  writeBlock psp workerID b = Ok psp' ->
  psp' = psp
  \/ exists shard shard1 g cancels,
       nth_error (shards psp) workerID = Some shard
       /\ timestamps b <> []
       /\ psp' = with_shards (with_budget psp g cancels)
                   (set_nth (shards psp) workerID shard1)
       /\ (sameRows shard shard1
           \/ exists sb, appended shard shard1 b sb).
Proof.
  intros psp workerID b psp' Hb H. unfold writeBlock in H.
  destruct (length (timestamps b) =? 0) eqn:El.
  { inversion H; subst. left. reflexivity. }
  right. apply Nat.eqb_neq in El.
  apply bind_Ok in H. destruct H as (shard & Es & H). apply index_Ok in Es.
  apply bind_Ok in H. destruct H as ([[[g cancels] sb] go] & _ & H).
  assert (Hne : timestamps b <> []).
  { intros Hnil. rewrite Hnil in El. apply El. reflexivity. }
  destruct go.
  - destruct (shard_writeBlock_spec (with_stateSizeBudget shard sb) b Hb)
      as (shard2 & sblk & E2 & Happ).
    rewrite E2 in H. cbn [bind] in H. inversion H; subst psp'. clear H.
    exists shard, shard2, g, cancels. repeat (split; [auto|]).
    right. exists sblk. exact Happ.
  - inversion H; subst psp'. clear H.
    exists shard, (with_stateSizeBudget shard sb), g, cancels.
    repeat (split; [auto|]). left. repeat split.
Qed.

(** X4. In every processor built by [newPipeProcessor] and [writeBlock]
    nothing has been written to [ppBase]; no shard has given a row to the
    merge; every shard holds, in [rowRefs], exactly the rows of its blocks,
    block after block and row after row; and no stored block is empty. *)
Theorem reachable_shards_hold_rows : forall p psp,
  reachable p psp ->
  ppBase psp = []
  /\ psp_ps psp = p
  /\ Forall (fun s =>
               ps s = p
               /\ rowRefNext s = 0
               /\ rowRefs s = blockRows (blocks s) 0
               /\ Forall (fun sb => timestamps (br sb) <> []) (blocks s))
       (shards psp).
Proof.
  intros p psp H.
  induction H as [workersCount allowed|psp workerID b psp' _ IH Hb Hw].
  - split; [reflexivity|]. split; [reflexivity|].
    unfold newPipeProcessor. cbn [shards]. apply Forall_forall.
    intros s Hs. apply repeat_spec in Hs. subst s. cbn.
    repeat split. constructor.
  - destruct IH as (Hout & Hps & Hall).
    destruct (writeBlock_cases psp workerID b psp' Hb Hw)
      as [->|(shard & shard1 & g & cancels & Es & Hne & -> & Hcase)].
    { repeat split; assumption. }
    cbn [ppBase psp_ps shards with_shards with_budget].
    split; [exact Hout|]. split; [exact Hps|].
    apply Forall_set_nth; [exact Hall|].
    assert (Hin : In shard (shards psp)) by (eapply nth_error_In; eauto).
    destruct (proj1 (Forall_forall _ _) Hall shard Hin) as (A1 & A2 & A3 & A4).
    destruct Hcase as [(S1 & S2 & S3 & S4)|(sb & B1 & B2 & B3 & B4 & B5 & _)].
    + rewrite S1, S2, S3, S4. repeat split; assumption.
    + rewrite B1, B2, B3, B5, blockRows_app_0, B4, A3.
      repeat split; try assumption.
      apply Forall_app. split; [exact A4|].
      constructor; [|constructor]. rewrite B4. exact Hne.
Qed.

Lemma stealBudget_cancels_mono : forall fuel g cancels sb g' cancels' sb' go,
  stealBudget fuel g cancels sb = Ok (g', cancels', sb', go) ->
  cancels <= cancels'.
Proof.
  intros fuel. induction fuel as [|fuel IH]; intros g c0 sb g' c' sb' go E;
    simpl in E; destruct (sb <? 0)%Z;
    try discriminate; try (inversion E; subst; lia).
  destruct (add64 g (- stateSizeBudgetChunk) <? 0)%Z.
  - destruct (add64 (add64 g (- stateSizeBudgetChunk)) stateSizeBudgetChunk
              >=? 0)%Z; inversion E; subst; lia.
  - apply IH in E. exact E.
Qed.

(** X5. A [writeBlock] call of a worker changes no shard but the one of that
    worker: the number of shards, the other shards, the pipe, [maxStateSize]
    and [ppBase] are kept, and the calls of [cancel] never decrease; on a block
    with rows, a worker id past the shards panics. *)
Theorem writeBlock_touches_own_shard : forall psp workerID b,
  (forall psp',
     writeBlock psp workerID b = Ok psp' ->
     length (shards psp') = length (shards psp)
     /\ (forall w, w <> workerID ->
           nth_error (shards psp') w = nth_error (shards psp) w)
     /\ psp_ps psp' = psp_ps psp
     /\ maxStateSize psp' = maxStateSize psp
     /\ ppBase psp' = ppBase psp
     /\ cancelCalls psp <= cancelCalls psp')
  /\ (timestamps b <> [] -> length (shards psp) <= workerID ->
      writeBlock psp workerID b = Panic).
Proof.
  intros psp workerID b. split.
  - intros psp' H. unfold writeBlock in H.
    destruct (length (timestamps b) =? 0).
    { inversion H; subst. repeat split; auto. }
    apply bind_Ok in H. destruct H as (shard & Es & H).
    apply bind_Ok in H. destruct H as ([[[g cancels] sb] go] & Est & H).
    pose proof (stealBudget_cancels_mono _ _ _ _ _ _ _ _ Est) as Hc.
    assert (Hres : forall s2 q,
              q = with_shards (with_budget psp g cancels)
                    (set_nth (shards psp) workerID s2) ->
              length (shards q) = length (shards psp)
              /\ (forall w, w <> workerID ->
                    nth_error (shards q) w = nth_error (shards psp) w)
              /\ psp_ps q = psp_ps psp
              /\ maxStateSize q = maxStateSize psp
              /\ ppBase q = ppBase psp
              /\ cancelCalls psp <= cancelCalls q).
    { intros s2 q ->. cbn. split; [apply set_nth_length|].
      split; [|repeat split; exact Hc].
      intros w Hw. apply nth_error_set_nth_neq. auto. }
    destruct go.
    + apply bind_Ok in H. destruct H as (shard2 & _ & H).
      injection H as H. apply (Hres shard2 psp'). symmetry. exact H.
    + injection H as H. apply (Hres (with_stateSizeBudget shard sb) psp').
      symmetry. exact H.
  - intros Hne Hlen. unfold writeBlock.
    destruct (length (timestamps b) =? 0) eqn:El.
    { apply Nat.eqb_eq in El. apply length_zero_iff_nil in El. contradiction. }
    unfold index. apply nth_error_None in Hlen. rewrite Hlen. reflexivity.
Qed.


(** ** [writeBlock] returns *)

Lemma stealBudget_range : forall fuel g cancels sb g' cancels' sb' go,
  int64_range sb ->
  stealBudget fuel g cancels sb = Ok (g', cancels', sb', go) ->
  int64_range sb'.
Proof.
  intros fuel. induction fuel as [|fuel IH];
    intros g c0 sb g' c' sb' go Hsb E; simpl in E; destruct (sb <? 0)%Z;
    try discriminate; try (inversion E; subst; exact Hsb).
  destruct (add64 g (- stateSizeBudgetChunk) <? 0)%Z.
  - destruct (add64 (add64 g (- stateSizeBudgetChunk)) stateSizeBudgetChunk
              >=? 0)%Z; inversion E; subst; exact Hsb.
  - eapply IH; [|exact E]. apply wrap64_range.
Qed.

Lemma shard_writeBlock_range : forall shard b shard',
  shard_writeBlock shard b = Ok shard' -> int64_range (stateSizeBudget shard').
Proof.
  intros shard b shard' H. unfold shard_writeBlock in H.
  apply bind_Ok in H. destruct H as (s1 & _ & H).
  inversion H; subst shard'. cbn [stateSizeBudget with_stateSizeBudget].
  apply wrap64_range.
Qed.

Lemma reachable_budget_range : forall p psp,
  chunk_ok -> reachable p psp ->
  Forall (fun s => int64_range (stateSizeBudget s)) (shards psp).
Proof.
  intros p psp Hc H.
  induction H as [workersCount allowed|psp workerID b psp' _ IH Hb Hw].
  - unfold newPipeProcessor. cbn [shards]. apply Forall_forall.
    intros s Hs. apply repeat_spec in Hs. subst s.
    cbn [stateSizeBudget]. unfold chunk_ok, int64_range in *. lia.
  - unfold writeBlock in Hw.
    destruct (length (timestamps b) =? 0).
    { inversion Hw; subst. exact IH. }
    apply bind_Ok in Hw. destruct Hw as (shard & Es & Hw).
    apply bind_Ok in Hw. destruct Hw as ([[[g cancels] sb] go] & Est & Hw).
    apply index_Ok in Es.
    assert (Hin : In shard (shards psp)) by (eapply nth_error_In; eauto).
    pose proof (proj1 (Forall_forall _ _) IH shard Hin) as Hs.
    pose proof (stealBudget_range _ _ _ _ _ _ _ _ Hs Est) as Hsb.
    destruct go.
    + apply bind_Ok in Hw. destruct Hw as (shard2 & E2 & Hw).
      inversion Hw; subst psp'. cbn [shards with_shards with_budget].
      apply Forall_set_nth; [exact IH|].
      eapply shard_writeBlock_range; eauto.
    + inversion Hw; subst psp'. cbn [shards with_shards with_budget].
      apply Forall_set_nth; [exact IH|]. exact Hsb.
Qed.

(** X6. On a processor built by [newPipeProcessor] and [writeBlock], with a
    positive chunk, a [writeBlock] call for a worker that has a shard and a
    block with one value per row in every column returns: the budget loop
    ends and no index is out of range. *)
Theorem writeBlock_returns : forall p psp workerID b,
  chunk_ok ->
  reachable p psp ->
  wf_block b ->
  workerID < length (shards psp) ->
  exists psp', writeBlock psp workerID b = Ok psp' /\ reachable p psp'.
Proof.
  intros p psp workerID b Hc Hr Hb Hw.
  assert (E : exists psp', writeBlock psp workerID b = Ok psp').
  { unfold writeBlock.
    destruct (length (timestamps b) =? 0); [eexists; reflexivity|].
    destruct (nth_error (shards psp) workerID) as [shard|] eqn:Es;
      [|apply nth_error_None in Es; lia].
    unfold index. rewrite Es. cbn [bind].
    assert (Hin : In shard (shards psp)) by (eapply nth_error_In; eauto).
    pose proof (proj1 (Forall_forall _ _) (reachable_budget_range p psp Hc Hr)
                  shard Hin) as Hs.
    destruct (stealBudget_terminates (stealFuel (stateSizeBudget shard))
                (psp_stateSizeBudget psp) (cancelCalls psp)
                (stateSizeBudget shard) Hc Hs) as ([[[g cancels] sb] go] & Est).
    { intros Hneg. apply stealFuel_enough; assumption. }
    rewrite Est. cbn [bind]. destruct go; [|eexists; reflexivity].
    destruct (shard_writeBlock_spec (with_stateSizeBudget shard sb) b Hb)
      as (shard2 & sblk & E2 & _).
    rewrite E2. cbn [bind]. eexists. reflexivity. }
  destruct E as (psp' & E). exists psp'. split; [exact E|].
  eapply reach_writeBlock; eauto.
Qed.


(** ** The chunks taken by one [writeBlock] call *)

Lemma stealBudget_chunks_fuel : forall fuel g cancels sb,
  chunk_ok -> int64_range sb ->
  (- 9223372036854775808 + stateSizeBudgetChunk <= g < 9223372036854775808)%Z ->
  ((sb < 0)%Z -> ((- sb - 1) / stateSizeBudgetChunk < Z.of_nat fuel)%Z) ->
  exists (k : nat) g' cancels' sb' go,
    stealBudget fuel g cancels sb = Ok (g', cancels', sb', go)
    /\ sb' = (sb + Z.of_nat k * stateSizeBudgetChunk)%Z
    /\ (go = true ->
        (0 <= sb')%Z
        /\ (0 < k -> (sb' < stateSizeBudgetChunk)%Z /\ (0 <= g')%Z)
        /\ g' = (g - Z.of_nat k * stateSizeBudgetChunk)%Z
        /\ cancels' = cancels)
    /\ (go = false ->
        (sb' < 0)%Z
        /\ g' = (g - (Z.of_nat k + 1) * stateSizeBudgetChunk)%Z
        /\ (g' < 0)%Z
        /\ (0 < k -> (0 <= g - Z.of_nat k * stateSizeBudgetChunk)%Z)
        /\ cancels' =
             if (0 <=? g - Z.of_nat k * stateSizeBudgetChunk)%Z
             then S cancels else cancels).
Proof.
  intros fuel. induction fuel as [|fuel IH]; intros g cancels sb Hc Hsb Hg Hfuel.
  - simpl. destruct (Z.ltb_spec sb 0) as [Hneg|Hpos].
    + exfalso. specialize (Hfuel Hneg). unfold chunk_ok in Hc.
      assert (0 <= (- sb - 1) / stateSizeBudgetChunk)%Z by (apply Z.div_pos; lia).
      simpl in Hfuel. lia.
    + exists 0, g, cancels, sb, true. split; [reflexivity|].
      split; [simpl; lia|]. split; [|discriminate].
      intros _. repeat split; simpl; lia.
  - cbn [stealBudget]. destruct (Z.ltb_spec sb 0) as [Hneg|Hpos].
    2:{ exists 0, g, cancels, sb, true. split; [reflexivity|].
        split; [simpl; lia|]. split; [|discriminate].
        intros _. repeat split; simpl; lia. }
    unfold chunk_ok, int64_range in *.
    assert (Hrem : add64 g (- stateSizeBudgetChunk) = (g - stateSizeBudgetChunk)%Z).
    { unfold add64. apply wrap64_small. lia. }
    rewrite Hrem.
    destruct (Z.ltb_spec (g - stateSizeBudgetChunk) 0) as [Hr|Hr].
    + assert (Hback : add64 (g - stateSizeBudgetChunk) stateSizeBudgetChunk = g).
      { unfold add64.
        replace (g - stateSizeBudgetChunk + stateSizeBudgetChunk)%Z with g by lia.
        apply wrap64_small. lia. }
      rewrite Hback, Z.geb_leb.
      exists 0, (g - stateSizeBudgetChunk)%Z,
        (if (0 <=? g)%Z then S cancels else cancels), sb, false.
      split; [destruct (0 <=? g)%Z; reflexivity|].
      split; [simpl; lia|]. split; [discriminate|].
      intros _. cbn [Z.of_nat].
      replace (g - 0 * stateSizeBudgetChunk)%Z with g by lia.
      repeat split; try lia.
    + assert (Hadd : add64 sb stateSizeBudgetChunk = (sb + stateSizeBudgetChunk)%Z).
      { unfold add64. apply wrap64_small. lia. }
      rewrite Hadd.
      destruct (IH (g - stateSizeBudgetChunk)%Z cancels (sb + stateSizeBudgetChunk)%Z)
        as (k & g' & c' & sb' & go & E & Hsb' & Htrue & Hfalse).
      * unfold chunk_ok. lia.
      * unfold int64_range. lia.
      * lia.
      * intros Hneg'. specialize (Hfuel Hneg).
        replace (- (sb + stateSizeBudgetChunk) - 1)%Z
          with ((- sb - 1) + (-1) * stateSizeBudgetChunk)%Z by lia.
        rewrite Z.div_add by lia. lia.
      * exists (S k), g', c', sb', go. split; [exact E|].
        rewrite Nat2Z.inj_succ.
        split; [lia|]. split.
        -- intros Hgo. destruct (Htrue Hgo) as (T1 & T2 & T3 & T4).
           split; [exact T1|]. split; [|split; [lia|exact T4]].
           intros _. destruct k as [|k].
           ++ cbn [Z.of_nat] in *. lia.
           ++ apply T2. lia.
        -- intros Hgo. destruct (Hfalse Hgo) as (F1 & F2 & F3 & F4 & F5).
           split; [exact F1|]. split; [lia|]. split; [exact F3|]. split.
           ++ intros _. destruct k as [|k].
              ** cbn [Z.of_nat] in *. lia.
              ** assert (0 < S k) by lia. specialize (F4 H). lia.
           ++ rewrite F5.
              replace (g - Z.succ (Z.of_nat k) * stateSizeBudgetChunk)%Z
                with (g - stateSizeBudgetChunk
                      - Z.of_nat k * stateSizeBudgetChunk)%Z by lia.
              reflexivity.
Qed.

(** X7. The budget loop of [writeBlock], on a global budget that one
    subtraction cannot wrap: it credits to the shard some number [k] of
    chunks. When the block is accepted, the shard ends non-negative with no
    chunk to spare, the global budget has lost exactly those [k] chunks and
    is still non-negative, and [cancel] is not called. When the block is
    refused, the shard is still negative, the global budget has lost [k + 1]
    chunks, the last one credited to no shard, and is negative, and [cancel]
    is called exactly when the global budget was non-negative before that
    last subtraction. *)
Theorem stealBudget_chunks : forall g cancels sb,
  chunk_ok -> int64_range sb ->
  (- 9223372036854775808 + stateSizeBudgetChunk <= g < 9223372036854775808)%Z ->
  exists (k : nat) g' cancels' sb' go,
    stealBudget (stealFuel sb) g cancels sb = Ok (g', cancels', sb', go)
    /\ sb' = (sb + Z.of_nat k * stateSizeBudgetChunk)%Z
    /\ (go = true ->
        (0 <= sb')%Z
        /\ (0 < k -> (sb' < stateSizeBudgetChunk)%Z /\ (0 <= g')%Z)
        /\ g' = (g - Z.of_nat k * stateSizeBudgetChunk)%Z
        /\ cancels' = cancels)
    /\ (go = false ->
        (sb' < 0)%Z
        /\ g' = (g - (Z.of_nat k + 1) * stateSizeBudgetChunk)%Z
        /\ (g' < 0)%Z
        /\ (0 < k -> (0 <= g - Z.of_nat k * stateSizeBudgetChunk)%Z)
        /\ cancels' =
             if (0 <=? g - Z.of_nat k * stateSizeBudgetChunk)%Z
             then S cancels else cancels).
Proof.
  intros g cancels sb Hc Hsb Hg.
  apply stealBudget_chunks_fuel; try assumption.
  intros Hneg. apply stealFuel_enough; assumption.
Qed.


(** ** [Len], [Swap] and [Less] of a shard *)

Lemma swap_swap : forall (A : Type) (l l' : list A) i j,
  swap l i j = Ok l' -> swap l' i j = Ok l.
Proof.
  intros A l l' i j H.
  destruct (swap_inv _ _ _ _ _ H) as (a & b & Ha & Hb & El).
  destruct (swap_nth _ _ _ _ _ H) as (Hi & Hj & Hk).
  rewrite Hb in Hi. rewrite Ha in Hj.
  rewrite (swap_spec _ l' i j b a Hi Hj). f_equal.
  assert (Hlen : length l' = length l) by (eapply swap_length; eauto).
  assert (Hil : i < length l) by (apply nth_error_Some; rewrite Ha; discriminate).
  assert (Hjl : j < length l) by (apply nth_error_Some; rewrite Hb; discriminate).
  apply nth_error_ext. intros k.
  destruct (Nat.eq_dec k j) as [->|Hkj].
  - rewrite nth_error_set_nth_eq; [symmetry; exact Hb|].
    rewrite set_nth_length. lia.
  - rewrite nth_error_set_nth_neq by auto.
    destruct (Nat.eq_dec k i) as [->|Hki].
    + rewrite nth_error_set_nth_eq by lia. symmetry. exact Ha.
    + rewrite nth_error_set_nth_neq by auto. apply Hk; assumption.
Qed.

(** X8. [Swap(i, j)] of a shard, for two indices below [Len]: it returns,
    exchanges the two row references and keeps every other one, so the shard
    holds the same rows and as many; it keeps the blocks; a second
    [Swap(i, j)] gives the shard back; and [Less(i, j)] after it is
    [Less(j, i)] before it. An index from [Len] on panics. *)
Theorem shard_Swap_exchanges : forall shard i j,
  (i < shard_Len shard -> j < shard_Len shard ->
   exists shard',
     shard_Swap shard i j = Ok shard'
     /\ Permutation (rowRefs shard) (rowRefs shard')
     /\ shard_Len shard' = shard_Len shard
     /\ nth_error (rowRefs shard') i = nth_error (rowRefs shard) j
     /\ nth_error (rowRefs shard') j = nth_error (rowRefs shard) i
     /\ (forall k, k <> i -> k <> j ->
           nth_error (rowRefs shard') k = nth_error (rowRefs shard) k)
     /\ blocks shard' = blocks shard
     /\ shard_Swap shard' i j = Ok shard
     /\ shard_Less shard' i j = shard_Less shard j i)
  /\ (shard_Len shard <= i \/ shard_Len shard <= j ->
      shard_Swap shard i j = Panic).
Proof.
  intros shard i j. unfold shard_Len. split.
  - intros Hi Hj.
    destruct (nth_error (rowRefs shard) i) as [a|] eqn:Ea;
      [|apply nth_error_None in Ea; lia].
    destruct (nth_error (rowRefs shard) j) as [b|] eqn:Eb;
      [|apply nth_error_None in Eb; lia].
    pose proof (swap_spec _ (rowRefs shard) i j a b Ea Eb) as Es.
    set (l' := set_nth (set_nth (rowRefs shard) i b) j a) in *.
    destruct (swap_nth _ _ _ _ _ Es) as (Hni & Hnj & Hnk).
    exists (with_rowRefs shard l'). unfold shard_Swap. rewrite Es. cbn [bind].
    split; [reflexivity|]. cbn [rowRefs with_rowRefs blocks].
    split; [eapply swap_perm; eauto|].
    split; [eapply swap_length; eauto|].
    rewrite <- Ea, <- Eb.
    split; [exact Hni|]. split; [exact Hnj|]. split; [exact Hnk|].
    split; [reflexivity|]. split.
    + rewrite (swap_swap _ _ _ _ _ Es). cbn [bind]. f_equal.
      destruct shard; reflexivity.
    + rewrite Ea in Hnj. rewrite Eb in Hni.
      rewrite (shard_Less_refs shard l' i j b a Hni Hnj).
      unfold shard_Less, sortBlockLess, index. rewrite Ea, Eb. reflexivity.
  - intros H. unfold shard_Swap, swap, index.
    destruct (nth_error (rowRefs shard) i) as [a|] eqn:Ea; [|reflexivity].
    destruct (nth_error (rowRefs shard) j) as [b|] eqn:Eb; [|reflexivity].
    exfalso.
    assert (i < length (rowRefs shard))
      by (apply nth_error_Some; rewrite Ea; discriminate).
    assert (j < length (rowRefs shard))
      by (apply nth_error_Some; rewrite Eb; discriminate).
    lia.
Qed.


(** ** Sorting with no [by] field *)








(** ** [flush] under any [stopCh] *)

(** The merge loop under any [stopCh]: it returns, stopped or finished, and
    keeps its invariants. *)
Lemma mergeLoop_any : forall P ss0 stopCh fuel st,
  mergeInv P ss0 st -> remainingRows (m_shards st) <= fuel ->
  exists st' e, mergeLoop fuel stopCh st = Ok (st', e)
                /\ mergeInv P ss0 st'
                /\ (e = Finished -> length (m_sh st') <= 1)
                /\ (transPos ss0 -> runsSorted ss0 ->
                    orderInv ss0 st -> orderInv ss0 st').
Proof.
  intros P ss0 stopCh fuel. induction fuel as [|fuel IH]; intros st Hinv Hfuel.
  all: destruct (m_sh st) as [|p [|q1 rest']] eqn:Hsh.
  all: try (exists st, Finished;
            split; [apply mergeLoop_done; rewrite Hsh; simpl; lia|];
            split; [exact Hinv|]; split; [rewrite Hsh; simpl; lia|]; auto; fail).
  all: destruct (merge_root P ss0 st p (q1 :: rest') Hinv Hsh)
         as (shard & Es & Hlen & Hwf & Hnp & Hnd & Lrest).
  all: pose proof (remainingRows_set_next _ _ _ Es Hlen) as Hrem.
  - lia.
  - (* one iteration *)
    set (ss' := set_nth (m_shards st) p
                  (with_rowRefNext shard (S (rowRefNext shard)))) in *.
    assert (Hok' : storeOk P ss').
    { apply storeOk_set_next; [apply (mi_ok _ _ _ Hinv)|exact Es]. }
    assert (Lrest' : Forall (live ss') (q1 :: rest')).
    { apply Forall_forall. intros q Hq. apply live_set_other.
      - intros ->. contradiction.
      - rewrite Forall_forall in Lrest. apply Lrest. exact Hq. }
    assert (Hf' : map dataOf ss' = map dataOf ss0).
    { unfold ss'. rewrite (dataOf_set_next _ _ _ _ Es). apply (mi_frame _ _ _ Hinv). }
    assert (Es' : nth_error ss' p
                  = Some (with_rowRefNext shard (S (rowRefNext shard)))).
    { apply nth_error_set_nth_eq. apply nth_error_Some. congruence. }
    destruct (writeRow_total (m_wctx st) (m_out st) shard (rowRefNext shard) Hwf Hlen)
      as ([wctx out] & Ew).
    cbn [mergeLoop]. rewrite Hsh. cbn [length Nat.leb index nth_error bind].
    apply index_Ok in Es. rewrite Es. cbn [bind]. rewrite Ew. cbn [bind].
    apply index_Ok in Es. fold ss'.
    cbn [rowRefs rowRefNext with_rowRefNext].
    destruct (Nat.leb_spec (length (rowRefs shard)) (S (rowRefNext shard)))
      as [Hex|Hmore].
    + (* the shard is exhausted: [heap.Pop] *)
      destruct (heap_Pop_spec P ss' p (q1 :: rest') Hok' Lrest')
        as (sh' & Epop & Hperm & Hheap).
      rewrite Epop. cbn [bind].
      set (st1 := {| m_shards := ss'; m_sh := sh'; m_shardNext := None;
                     m_wctx := wctx; m_out := out; m_polls := S (m_polls st);
                     m_written := m_written st ++ [(p, rowRefNext shard)] |}).
      assert (Hinv1 : mergeInv P ss0 st1).
      { eapply (merge_advance P ss0 st p (q1 :: rest') shard sh'); eauto.
        - eapply Permutation_NoDup; eauto.
        - intros q Hq. right. apply (Permutation_in_iff _ _ _ q Hperm). exact Hq.
        - intros q Hq. apply (Permutation_in_iff _ _ _ q Hperm). exact Hq.
        - intros Hp. exfalso. apply Hnp.
          apply (Permutation_in_iff _ _ _ p Hperm). exact Hp.
        - intros _. lia.
        - discriminate. }
      assert (Hord1 : transPos ss0 -> runsSorted ss0 ->
                      orderInv ss0 st -> orderInv ss0 st1).
      { intros Htr Hruns Hord.
        eapply (order_advance P ss0 st p (q1 :: rest') shard sh'); eauto.
        * intros q Hq. right. apply (Permutation_in_iff _ _ _ q Hperm). exact Hq.
        * intros Hp. exfalso. apply Hnp.
          apply (Permutation_in_iff _ _ _ p Hperm). exact Hp.
        * apply Hheap; [eapply transLive_of_transPos; eauto|].
          apply heapFrom_set_other; [exact Hnp|].
          pose proof (oi_heap _ _ Hord) as Hh. rewrite Hsh in Hh. exact Hh.
        * discriminate. }
      destruct (stopCh (m_polls st)).
      { exists st1, Stopped. split; [reflexivity|]. split; [exact Hinv1|].
        split; [discriminate|exact Hord1]. }
      destruct (IH st1 Hinv1) as (st' & e & E' & Hinv' & Hl' & Hord').
      { cbn [st1 m_shards]. lia. }
      exists st', e. split; [exact E'|]. split; [exact Hinv'|].
      split; [exact Hl'|].
      intros Htr Hruns Hord. apply Hord'; try assumption.
      apply Hord1; assumption.
    + (* the shard has rows left *)
      assert (Lp' : live ss' p).
      { apply live_set_self; [exact Es|lia]. }
      assert (Hq : exists q,
                (match m_shardNext st with
                 | Some q => Ok q
                 | None => pickShardNext ss' (p :: q1 :: rest')
                 end) = Ok q
                /\ (nth_error (p :: q1 :: rest') 1 = Some q
                    \/ nth_error (p :: q1 :: rest') 2 = Some q)
                /\ (transPos ss0 -> orderInv ss0 st ->
                    qMin ss' (p :: q1 :: rest') q)).
      { destruct (m_shardNext st) as [q|] eqn:En.
        - exists q. split; [reflexivity|].
          pose proof (mi_next _ _ _ Hinv q En) as Hm. rewrite Hsh in Hm.
          split; [exact Hm|]. intros _ Hord.
          apply qMin_set_other; [exact Hnp| |].
          + eapply in_children; eauto.
          + pose proof (oi_next _ _ Hord q En) as Hqm. rewrite Hsh in Hqm. exact Hqm.
        - destruct (pickShardNext_spec P ss' p q1 rest' Hok' Lrest')
            as (q & Eq & Hm & Hqm).
          exists q. auto. }
      destruct Hq as (q & Eq & Hm & Hqm). rewrite Eq. cbn [bind].
      assert (Hqin : In q (q1 :: rest')) by (eapply in_children; eauto).
      assert (Lq' : live ss' q).
      { rewrite Forall_forall in Lrest'. apply Lrest'. exact Hqin. }
      destruct Lq' as (sN & EN & HN).
      apply index_Ok in EN. rewrite EN. cbn [bind]. apply index_Ok in EN.
      assert (Hless : sortBlockLess sN (rowRefNext sN)
                        (with_rowRefNext shard (S (rowRefNext shard)))
                        (S (rowRefNext shard)) = lessPtr ss' q p).
      { rewrite <- (sortBlockLess_ptr ss' q p sN _ EN Es'). reflexivity. }
      rewrite Hless.
      assert (Lq' : live ss' q) by (exists sN; auto).
      assert (Lall' : Forall (live ss') (p :: q1 :: rest')).
      { constructor; assumption. }
      destruct (lessPtr_total P ss' q p Hok' Lq' Lp') as [[|] Elt]; rewrite Elt;
        cbn [bind].
      * (* the next shard is less: [heap.Fix] *)
        destruct (heap_Fix_spec P ss' (p :: q1 :: rest') Hok' Lall')
          as (sh' & Efix & Hperm & Hheap).
        rewrite Efix. cbn [bind].
        set (st1 := {| m_shards := ss'; m_sh := sh'; m_shardNext := None;
                       m_wctx := wctx; m_out := out; m_polls := S (m_polls st);
                       m_written := m_written st ++ [(p, rowRefNext shard)] |}).
        assert (Hinv1 : mergeInv P ss0 st1).
        { eapply (merge_advance P ss0 st p (q1 :: rest') shard sh'); eauto.
          - eapply Permutation_NoDup; [exact Hperm|]. rewrite <- Hsh.
            apply (mi_nodup _ _ _ Hinv).
          - intros x Hx. apply (Permutation_in_iff _ _ _ x Hperm). exact Hx.
          - intros x Hx. apply (Permutation_in_iff _ _ _ x Hperm). right. exact Hx.
          - intros Hp. exfalso. apply Hp.
            apply (Permutation_in_iff _ _ _ p Hperm). left. reflexivity.
          - discriminate. }
        assert (Hord1 : transPos ss0 -> runsSorted ss0 ->
                        orderInv ss0 st -> orderInv ss0 st1).
        { intros Htr Hruns Hord.
          eapply (order_advance P ss0 st p (q1 :: rest') shard sh'); eauto.
          -- intros x Hx. apply (Permutation_in_iff _ _ _ x Hperm). exact Hx.
          -- apply Hheap; [eapply transLive_of_transPos; eauto|].
             apply heapFrom_set_other; [exact Hnp|].
             pose proof (oi_heap _ _ Hord) as Hh. rewrite Hsh in Hh. exact Hh.
          -- discriminate. }
        destruct (stopCh (m_polls st)).
        { exists st1, Stopped. split; [reflexivity|]. split; [exact Hinv1|].
          split; [discriminate|exact Hord1]. }
        destruct (IH st1 Hinv1) as (st' & e & E' & Hinv' & Hl' & Hord').
        { cbn [st1 m_shards]. lia. }
        exists st', e. split; [exact E'|]. split; [exact Hinv'|].
        split; [exact Hl'|].
        intros Htr Hruns Hord. apply Hord'; try assumption.
        apply Hord1; assumption.
      * (* the root stays *)
        set (st1 := {| m_shards := ss'; m_sh := m_sh st; m_shardNext := Some q;
                       m_wctx := wctx; m_out := out; m_polls := m_polls st;
                       m_written := m_written st ++ [(p, rowRefNext shard)] |}).
        rewrite <- Hsh. fold st1.
        assert (Hinv1 : mergeInv P ss0 st1).
        { unfold st1. rewrite Hsh.
          eapply (merge_advance P ss0 st p (q1 :: rest') shard (p :: q1 :: rest'));
            eauto.
          - rewrite <- Hsh. apply (mi_nodup _ _ _ Hinv).
          - intros x Hx. right. exact Hx.
          - intros Hp. exfalso. apply Hp. left. reflexivity.
          - intros x Hx. inversion Hx; subst. exact Hm. }
        destruct (IH st1 Hinv1) as (st' & e & E' & Hinv' & Hl' & Hord').
        { cbn [st1 m_shards]. lia. }
        exists st', e. split; [exact E'|]. split; [exact Hinv'|].
        split; [exact Hl'|].
        intros Htr Hruns Hord. apply Hord'; try assumption.
        unfold st1. rewrite Hsh.
        eapply (order_advance P ss0 st p (q1 :: rest') shard (p :: q1 :: rest')); eauto.
        -- (* the heap is still one *)
           pose proof (oi_heap _ _ Hord) as Hh. rewrite Hsh in Hh.
           pose proof (heapFrom_set_other _ p (q1 :: rest')
                         (with_rowRefNext shard (S (rowRefNext shard)))
                         _ Hnp Hh) as Hh1.
           fold ss' in Hh1.
           specialize (Hqm Htr Hord). destruct Hqm as [Q1 Q2].
           assert (Htl : transLive ss') by (eapply transLive_of_transPos; eauto).
           intros a Ha. destruct (Nat.eq_dec a 0) as [->|Hne]; [|apply Hh1; lia].
           assert (Hlv : forall k x, nth_error (p :: q1 :: rest') k = Some x ->
                                     live ss' x).
           { intros k x Ex. rewrite Forall_forall in Lall'. apply Lall'.
             eapply nth_error_In; eauto. }
           split; intros Hc x y Ex Ey; simpl in Ex; inversion Ex; subst x.
           ++ apply (Htl p q y); eauto.
           ++ apply (Htl p q y); eauto.
        -- intros x Hx. inversion Hx; subst. apply Hqm; assumption.
Qed.


(** The positions that the shards still hold past their [rowRefNext]. *)
Fixpoint leftFrom (ss : list pipeSortProcessorShard) (p : nat) : list (nat * nat) :=
  match ss with
  | [] => []
  | s :: t =>
      map (pair p) (seq (rowRefNext s) (length (rowRefs s) - rowRefNext s))
      ++ leftFrom t (S p)
  end.

(** The rows before and from [rowRefNext] on. *)
Fixpoint emittedRows (ss : list pipeSortProcessorShard) (p : nat)
  : list (nat * sortRowRef) :=
  match ss with
  | [] => []
  | s :: t =>
      map (pair p) (firstn (rowRefNext s) (rowRefs s)) ++ emittedRows t (S p)
  end.

Fixpoint leftRows (ss : list pipeSortProcessorShard) (p : nat)
  : list (nat * sortRowRef) :=
  match ss with
  | [] => []
  | s :: t =>
      map (pair p) (skipn (rowRefNext s) (rowRefs s)) ++ leftRows t (S p)
  end.

Lemma rowAt_segment : forall store p s l pre post,
  nth_error store p = Some s -> rowRefs s = pre ++ l ++ post ->
  mapM (rowAt store) (map (pair p) (seq (length pre) (length l)))
  = Ok (map (pair p) l).
Proof.
  intros store p s l. induction l as [|rr t IH]; intros pre post Es Hr;
    [reflexivity|].
  cbn [length seq map mapM]. unfold rowAt at 1, index. cbn [fst snd].
  rewrite Es. cbn [bind]. rewrite Hr, nth_error_app2 by lia.
  rewrite Nat.sub_diag. cbn [nth_error app bind].
  specialize (IH (pre ++ [rr]) post Es). rewrite length_app in IH.
  cbn [length] in IH.
  replace (length pre + 1) with (S (length pre)) in IH by lia.
  rewrite IH; [reflexivity|]. rewrite <- app_assoc. exact Hr.
Qed.

Lemma rowAt_emittedRows : forall ss pre,
  Forall (fun s => rowRefNext s <= length (rowRefs s)) ss ->
  mapM (rowAt (pre ++ ss)) (emittedFrom ss (length pre))
  = Ok (emittedRows ss (length pre)).
Proof.
  intros ss. induction ss as [|s t IH]; intros pre H; [reflexivity|].
  inversion H as [|? ? Hs Ht]; subst. cbn [emittedFrom emittedRows].
  apply mapM_app.
  - pose proof (rowAt_segment (pre ++ s :: t) (length pre) s
                  (firstn (rowRefNext s) (rowRefs s)) []
                  (skipn (rowRefNext s) (rowRefs s))) as G.
    rewrite length_firstn, Nat.min_l in G by exact Hs.
    apply G.
    + rewrite nth_error_app2 by lia. rewrite Nat.sub_diag. reflexivity.
    + cbn [app]. symmetry. apply firstn_skipn.
  - specialize (IH (pre ++ [s]) Ht). rewrite <- app_assoc in IH.
    rewrite length_app in IH. cbn [length app] in IH.
    replace (length pre + 1) with (S (length pre)) in IH by lia. exact IH.
Qed.

Lemma rowAt_leftRows : forall ss pre,
  Forall (fun s => rowRefNext s <= length (rowRefs s)) ss ->
  mapM (rowAt (pre ++ ss)) (leftFrom ss (length pre))
  = Ok (leftRows ss (length pre)).
Proof.
  intros ss. induction ss as [|s t IH]; intros pre H; [reflexivity|].
  inversion H as [|? ? Hs Ht]; subst. cbn [leftFrom leftRows].
  apply mapM_app.
  - pose proof (rowAt_segment (pre ++ s :: t) (length pre) s
                  (skipn (rowRefNext s) (rowRefs s))
                  (firstn (rowRefNext s) (rowRefs s)) []) as G.
    rewrite length_firstn, Nat.min_l, length_skipn in G by exact Hs.
    apply G.
    + rewrite nth_error_app2 by lia. rewrite Nat.sub_diag. reflexivity.
    + rewrite app_nil_r. symmetry. apply firstn_skipn.
  - specialize (IH (pre ++ [s]) Ht). rewrite <- app_assoc in IH.
    rewrite length_app in IH. cbn [length app] in IH.
    replace (length pre + 1) with (S (length pre)) in IH by lia. exact IH.
Qed.

Lemma emitted_left_rows : forall ss p,
  Permutation (emittedRows ss p ++ leftRows ss p) (rowsFrom ss p).
Proof.
  intros ss. induction ss as [|s t IH]; intros p; [constructor|].
  cbn [emittedRows leftRows rowsFrom].
  rewrite <- (firstn_skipn (rowRefNext s) (rowRefs s)) at 3.
  rewrite map_app, <- !app_assoc. apply Permutation_app_head.
  eapply Permutation_trans; [apply Permutation_app_swap_app|].
  apply Permutation_app_head. apply IH.
Qed.

(** The rows written and the rows left are, together, the rows held. *)
Lemma written_and_left : forall ss written,
  Permutation written (emittedFrom ss 0) ->
  Forall (fun s => rowRefNext s <= length (rowRefs s)) ss ->
  exists rows left,
    mapM (rowAt ss) written = Ok rows
    /\ mapM (rowAt ss) (leftFrom ss 0) = Ok left
    /\ Permutation (rows ++ left) (rowsFrom ss 0).
Proof.
  intros ss written Hp Hb.
  destruct (mapM_perm _ _ (rowAt ss) _ _ Hp _ (rowAt_emittedRows ss [] Hb))
    as (rows & Er & Hpr).
  exists rows, (leftRows ss 0). split; [exact Er|].
  split; [apply (rowAt_leftRows ss [] Hb)|].
  eapply Permutation_trans; [|apply emitted_left_rows].
  apply Permutation_app_tail. exact Hpr.
Qed.

Lemma mergeInv_bounds : forall P ss0 st,
  mergeInv P ss0 st ->
  Forall (fun s => rowRefNext s <= length (rowRefs s)) (m_shards st).
Proof.
  intros P ss0 st Hinv. apply Forall_forall. intros s Hs.
  apply In_nth_error in Hs. destruct Hs as (p & Ep).
  destruct (in_dec Nat.eq_dec p (m_sh st)) as [Hin|Hout].
  - pose proof (proj1 (Forall_forall _ _) (mi_live _ _ _ Hinv) p Hin)
      as (s' & E' & Hlt).
    rewrite Ep in E'. inversion E'; subst. lia.
  - rewrite (mi_done _ _ _ Hinv p s Ep Hout). lia.
Qed.


Lemma ps_frame : forall ss ss',
  map dataOf ss' = map dataOf ss -> map ps ss' = map ps ss.
Proof.
  intros ss ss' H.
  assert (G : forall l, map ps l = map ps (map dataOf l)).
  { intros l. rewrite map_map. reflexivity. }
  rewrite (G ss'), (G ss), H. reflexivity.
Qed.

Lemma ps_sorted : forall l ss,
  Forall2 sortedFrom l ss -> map ps ss = map ps l.
Proof.
  intros l ss H. induction H as [|s s' l ss Hs _ IH]; [reflexivity|].
  simpl. rewrite IH. destruct Hs as (l' & -> & _). reflexivity.
Qed.

(** [flush] with global budget left, whatever [stopCh] does: it returns nil;
    the rows written and the rows left in the shards are together the rows
    ingested; the blocks in [ppBase] are those of the calls of [writeRow],
    followed by the last batch when the merge ran to its end; and the rows
    written are in order when the comparator is transitive. *)
Lemma flush_any_spec : forall p psp stopCh,
  sortContract ->
  reachable p psp ->
  (0 < psp_stateSizeBudget psp)%Z ->
  exists r rows left w o,
    flush stopCh psp = Ok r
    /\ f_err r = None
    /\ map blocks (shards (f_psp r)) = map blocks (shards psp)
    /\ map ps (shards (f_psp r)) = map ps (shards psp)
    /\ mapM (rowAt (shards (f_psp r))) (f_written r) = Ok rows
    /\ mapM (rowAt (shards (f_psp r))) (leftFrom (shards (f_psp r)) 0) = Ok left
    /\ Permutation (rows ++ left) (ingestedRows (shards psp) 0)
    /\ writeRows (shards (f_psp r)) (f_written r)
         ({| rcs := []; valuesLen := 0 |}, ppBase psp) = Ok (w, o)
    /\ (ppBase (f_psp r) = o \/ ppBase (f_psp r) = snd (wctx_flush w o))
    /\ (transitiveRows (shards psp) ->
        forall k a b sA sB,
          nth_error (f_written r) k = Some a ->
          nth_error (f_written r) (S k) = Some b ->
          nth_error (shards (f_psp r)) (fst a) = Some sA ->
          nth_error (shards (f_psp r)) (fst b) = Some sB ->
          sortBlockLess sB (snd b) sA (snd a) = Ok false).
Proof.
  intros p psp stopCh Hc Hreach Hb.
  destruct (reachable_inv p psp Hreach) as ([Hwf _] & Hps).
  pose proof (reachable_next0 p psp Hreach) as H0.
  unfold wf_processor in Hwf.
  assert (Hwf1 : Forall wf_shard (shards psp)).
  { apply Forall_forall. intros s Hs.
    apply (proj1 (Forall_forall _ _) Hwf s Hs). }
  assert (Hwf2 : Forall (fun s => ps s = psp_ps psp /\ wf_shard s) (shards psp)).
  { apply Forall_forall. intros s Hs.
    destruct (proj1 (Forall_forall _ _) Hwf s Hs) as (A & B & _). auto. }
  assert (Hwf3 : Forall (fun s => Permutation (rowRefs s) (blockRows (blocks s) 0))
                   (shards psp)).
  { apply Forall_forall. intros s Hs.
    apply (proj1 (Forall_forall _ _) Hwf s Hs). }
  set (w0 := ({| rcs := []; valuesLen := 0 |}, ppBase psp)).
  assert (Pack : forall ref shardsF written wF oF,
    Permutation (rowsFrom ref 0) (ingestedRows (shards psp) 0) ->
    map blocks ref = map blocks (shards psp) ->
    map ps ref = map ps (shards psp) ->
    map dataOf shardsF = map dataOf ref ->
    Permutation written (emittedFrom shardsF 0) ->
    Forall (fun s => rowRefNext s <= length (rowRefs s)) shardsF ->
    writeRows ref written w0 = Ok (wF, oF) ->
    (transitiveRows (shards psp) -> chainPos ref written) ->
    exists rows left,
      map blocks shardsF = map blocks (shards psp)
      /\ map ps shardsF = map ps (shards psp)
      /\ mapM (rowAt shardsF) written = Ok rows
      /\ mapM (rowAt shardsF) (leftFrom shardsF 0) = Ok left
      /\ Permutation (rows ++ left) (ingestedRows (shards psp) 0)
      /\ writeRows shardsF written w0 = Ok (wF, oF)
      /\ (transitiveRows (shards psp) ->
          forall k a b sA sB,
            nth_error written k = Some a ->
            nth_error written (S k) = Some b ->
            nth_error shardsF (fst a) = Some sA ->
            nth_error shardsF (fst b) = Some sB ->
            sortBlockLess sB (snd b) sA (snd a) = Ok false)).
  { intros ref shardsF written wF oF Hing Hblk Hpsr Hf Hw Hbd Hwr Hch.
    destruct (written_and_left shardsF written Hw Hbd) as (rows & left & Er & El & Hp).
    exists rows, left.
    split; [rewrite (blocks_frame _ _ Hf); exact Hblk|].
    split; [rewrite (ps_frame _ _ Hf); exact Hpsr|].
    split; [exact Er|]. split; [exact El|].
    split.
    { eapply Permutation_trans; [exact Hp|].
      rewrite (rowsFrom_frame _ _ 0 Hf). exact Hing. }
    split; [rewrite (writeRows_frame _ _ _ _ Hf); exact Hwr|].
    intros Ht k a b sA sB Ha Hb' EA EB.
    pose proof (Hch Ht k a b Ha Hb') as G. unfold lePos in G.
    rewrite <- (lessPos_frame _ _ _ _ Hf) in G.
    unfold lessPos, index in G. rewrite EB, EA in G. exact G. }
  assert (Hnochain : forall ref, transitiveRows (shards psp) ->
                                 chainPos ref (@nil (nat * nat))).
  { intros ref _ k a b Ha. destruct k; discriminate. }
  assert (Hbd0 : forall l, Forall (fun s => rowRefNext s = 0) l ->
                 Forall (fun s => rowRefNext s <= length (rowRefs s)) l).
  { intros l Hl. eapply Forall_impl; [|exact Hl]. intros s Hs. cbv beta in Hs.
    rewrite Hs. lia. }
  unfold flush.
  replace (psp_stateSizeBudget psp <=? 0)%Z with false
    by (symmetry; apply Z.leb_gt; exact Hb).
  destruct (stopCh 0).
  { destruct (Pack (shards psp) (shards psp) [] {| rcs := []; valuesLen := 0 |}
                (ppBase psp))
      as (rows & left & P1 & P1' & P2 & P3 & P4 & P5 & P6);
      try reflexivity; auto.
    - apply rowsFrom_ingested. exact Hwf3.
    - rewrite (emittedFrom_next0 _ _ H0). constructor.
    - eexists. exists rows, left, {| rcs := []; valuesLen := 0 |}, (ppBase psp).
      split; [reflexivity|]. cbn [f_err f_psp f_written].
      repeat (split; [first [reflexivity|assumption]|]).
      split; [left; reflexivity|exact P6]. }
  destruct (sortPhase_spec (shards psp) Hc Hwf1) as (ss & Ess & H2).
  pose proof (sortedFrom_store psp _ _ H2 Hwf2) as Hok.
  pose proof (sortedFrom_next0 _ _ H2 H0) as Hn0.
  assert (Hing : Permutation (rowsFrom ss 0) (ingestedRows (shards psp) 0)).
  { eapply Permutation_trans; [apply rowsFrom_sorted; exact H2|].
    apply rowsFrom_ingested. exact Hwf3. }
  pose proof (blocks_sorted _ _ H2) as Hblk.
  pose proof (ps_sorted _ _ H2) as Hpss.
  rewrite Ess. cbn [bind].
  assert (Early : exists r rows left w o,
            Ok {| f_err := None; f_psp := with_shards psp ss; f_written := [] |}
            = Ok r
            /\ f_err r = None
            /\ map blocks (shards (f_psp r)) = map blocks (shards psp)
            /\ map ps (shards (f_psp r)) = map ps (shards psp)
            /\ mapM (rowAt (shards (f_psp r))) (f_written r) = Ok rows
            /\ mapM (rowAt (shards (f_psp r))) (leftFrom (shards (f_psp r)) 0)
               = Ok left
            /\ Permutation (rows ++ left) (ingestedRows (shards psp) 0)
            /\ writeRows (shards (f_psp r)) (f_written r) w0 = Ok (w, o)
            /\ (ppBase (f_psp r) = o \/ ppBase (f_psp r) = snd (wctx_flush w o))
            /\ (transitiveRows (shards psp) ->
                forall k a b sA sB,
                  nth_error (f_written r) k = Some a ->
                  nth_error (f_written r) (S k) = Some b ->
                  nth_error (shards (f_psp r)) (fst a) = Some sA ->
                  nth_error (shards (f_psp r)) (fst b) = Some sB ->
                  sortBlockLess sB (snd b) sA (snd a) = Ok false)).
  { destruct (Pack ss ss [] {| rcs := []; valuesLen := 0 |} (ppBase psp))
      as (rows & left & P1 & P1' & P2 & P3 & P4 & P5 & P6);
      try reflexivity; auto.
    - rewrite (emittedFrom_next0 _ _ Hn0). constructor.
    - eexists. exists rows, left, {| rcs := []; valuesLen := 0 |}, (ppBase psp).
      split; [reflexivity|].
      cbn [f_err f_psp f_written shards with_shards ppBase].
      repeat (split; [first [reflexivity|assumption]|]).
      split; [left; reflexivity|exact P6]. }
  destruct (stopCh 1); [exact Early|].
  destruct (Nat.eqb (length (nonEmptyShards ss)) 0); [exact Early|].
  clear Early.
  destruct (heap_Init_spec psp ss (nonEmptyShards ss) Hok)
    as (sh & Esh & Hperm & Hheap).
  { apply Forall_forall. intros q Hq. apply nonEmptyShards_In in Hq.
    destruct Hq as (s & Es & Hlt). exists s. split; [exact Es|].
    assert (Hs : In s ss) by (eapply nth_error_In; eauto).
    rewrite (proj1 (Forall_forall _ _) Hn0 s Hs). exact Hlt. }
  rewrite Esh. cbn [bind].
  set (st0 := {| m_shards := ss; m_sh := sh; m_shardNext := None;
                 m_wctx := {| rcs := []; valuesLen := 0 |};
                 m_out := ppBase psp; m_polls := 2; m_written := [] |}).
  assert (Hinv0 : mergeInv psp ss st0) by (apply mergeInv_init; assumption).
  destruct (mergeLoop_any psp ss stopCh (remainingRows ss) st0 Hinv0 (le_n _))
    as (st' & e & El & Hinv' & Hlen & Hord).
  rewrite El. cbn [bind].
  assert (Hout0 : outInv ss w0 st0) by (split; reflexivity).
  pose proof (mergeLoop_out ss w0 _ _ _ _ _ El Hout0) as Hout'.
  assert (Hord' : transitiveRows (shards psp) ->
                  runsSorted ss /\ orderInv ss st').
  { intros Ht.
    pose proof (transPos_of_rows _ _ H2 Ht) as Htp.
    pose proof (runsSorted_of_rows _ _ H2 Ht) as Hrs.
    split; [exact Hrs|]. apply (Hord Htp Hrs). apply orderInv_init.
    apply Hheap. apply (transLive_of_transPos ss ss eq_refl Htp). }
  destruct e.
  - destruct Hout' as [_ Hwr'].
    destruct (Pack ss (m_shards st') (m_written st') (m_wctx st') (m_out st')
                Hing Hblk Hpss (mi_frame _ _ _ Hinv') (mi_written _ _ _ Hinv')
                (mergeInv_bounds _ _ _ Hinv') Hwr')
      as (rows & left & P1 & P1' & P2 & P3 & P4 & P5 & P6).
    { intros Ht. apply (oi_chain _ _ (proj2 (Hord' Ht))). }
    eexists. exists rows, left, (m_wctx st'), (m_out st').
    split; [reflexivity|].
    cbn [f_err f_psp f_written shards with_shards with_ppBase ppBase].
    repeat (split; [first [reflexivity|assumption]|]).
    split; [left; reflexivity|exact P6].
  - destruct (finish_spec psp ss w0 st' Hinv' (Hlen eq_refl))
      as (st1 & E1 & Hf1 & Hw1 & Hd1 & Hc1 & Ho1).
    rewrite E1. cbn [bind].
    destruct (Ho1 Hout') as [_ Hwr1].
    destruct (Pack ss (m_shards st1) (m_written st1) (m_wctx st1) (m_out st1)
                Hing Hblk Hpss Hf1 Hw1)
      as (rows & left & P1 & P1' & P2 & P3 & P4 & P5 & P6).
    { apply Forall_forall. intros s Hs. apply In_nth_error in Hs.
      destruct Hs as (q & Eq). rewrite (Hd1 q s Eq). lia. }
    { exact Hwr1. }
    { intros Ht. destruct (Hord' Ht) as [Hrs Ho]. apply (Hc1 Hrs Ho). }
    destruct (wctx_flush (m_wctx st1) (m_out st1)) as [wz oz] eqn:Ez.
    eexists. exists rows, left, (m_wctx st1), (m_out st1).
    split; [reflexivity|].
    cbn [f_err f_psp f_written shards with_shards with_ppBase ppBase].
    repeat (split; [first [reflexivity|assumption]|]).
    split; [right; rewrite Ez; reflexivity|exact P6].
Qed.


(** ** The rows of the blocks written to [ppBase] *)

(** Modelled from the spec: [blockResult.setResultColumns] and the [writeBlock]
    of the next pipe are declared outside [pipe_sort.go]. An output block is a
    columnar batch of rows: it holds as many rows as its first column has
    values; row [i] is the [i]-th value of every column, with the name of the
    column. *)
Definition rowCount (cols : list resultColumn) : nat :=
  match cols with
  | [] => 0
  | rc :: _ => length (rc_values rc)
  end.

Definition outRow (cols : list resultColumn) (i : nat) : list (string * string) :=
  map (fun rc => (rc_name rc, nth i (rc_values rc) EmptyString)) cols.

Definition blockRowsOut (cols : list resultColumn) : list (list (string * string)) :=
  map (outRow cols) (seq 0 (rowCount cols)).

(** The rows of the blocks written, block after block. *)
Definition rowsOut (out : ppBaseLog) : list (list (string * string)) :=
  concat (map (fun blk => blockRowsOut (snd blk)) out).

(** A row with at least one field. *)
Definition hasFields (f : list (string * string)) : bool :=
  negb (Nat.eqb (length f) 0).

(** One value added to every column. *)
Fixpoint zipAdd (cols : list resultColumn) (vals : list string)
  : list resultColumn :=
  match cols, vals with
  | rc :: t, v :: vs => addValue rc v :: zipAdd t vs
  | _, _ => cols
  end.

Definition uniform (k : nat) (cols : list resultColumn) : Prop :=
  Forall (fun rc => length (rc_values rc) = k) cols.

Lemma set_nth_app_here : forall (A : Type) (pre : list A) x y t,
  set_nth (pre ++ x :: t) (length pre) y = pre ++ y :: t.
Proof.
  intros A pre. induction pre as [|h r IH]; intros x y t; simpl;
    [reflexivity|]. rewrite IH. reflexivity.
Qed.

Lemma addFrom_zipAdd : forall vs pre cols,
  addFrom (length pre) (pre ++ cols) vs = pre ++ zipAdd cols vs.
Proof.
  intros vs. induction vs as [|v t IH]; intros pre cols.
  - simpl. destruct cols; reflexivity.
  - cbn [addFrom]. destruct cols as [|rc ct].
    + cbn [zipAdd]. rewrite app_nil_r.
      destruct (nth_error pre (length pre)) eqn:E; [|reflexivity].
      exfalso. assert (length pre < length pre)
        by (apply nth_error_Some; rewrite E; discriminate). lia.
    + rewrite nth_error_app2 by lia. rewrite Nat.sub_diag. cbn [nth_error].
      rewrite set_nth_app_here.
      specialize (IH (pre ++ [addValue rc v]) ct).
      rewrite length_app in IH. cbn [length] in IH.
      replace (length pre + 1) with (S (length pre)) in IH by lia.
      rewrite <- app_assoc in IH. cbn [app] in IH. rewrite IH.
      rewrite <- app_assoc. reflexivity.
Qed.

Lemma zipAdd_length : forall cols vals, length (zipAdd cols vals) = length cols.
Proof.
  intros cols. induction cols as [|rc t IH]; intros [|v vs]; simpl; auto.
Qed.

Lemma zipAdd_app : forall c1 c2 v1 v2,
  length c1 = length v1 ->
  zipAdd (c1 ++ c2) (v1 ++ v2) = zipAdd c1 v1 ++ zipAdd c2 v2.
Proof.
  intros c1. induction c1 as [|rc t IH]; intros c2 [|v vs] v2 H; simpl in *;
    try discriminate; [reflexivity|].
  rewrite IH by lia. reflexivity.
Qed.

(** The keys, then the other values, added from the first column on. *)
Lemma zipAdd_nil : forall cols, zipAdd cols [] = cols.
Proof. intros [|rc t]; reflexivity. Qed.

Lemma addFrom_keys_others : forall cols ks os,
  length ks <= length cols ->
  addFrom (length ks + 0) (addFrom 0 cols ks) os = zipAdd cols (ks ++ os).
Proof.
  intros cols ks os Hlen.
  pose proof (addFrom_zipAdd ks [] cols) as E1. cbn [length app] in E1.
  rewrite E1. clear E1.
  assert (Hf : length (firstn (length ks) cols) = length ks)
    by (rewrite length_firstn; lia).
  assert (Hc : cols = firstn (length ks) cols ++ skipn (length ks) cols)
    by (symmetry; apply firstn_skipn).
  revert Hf Hc.
  generalize (firstn (length ks) cols), (skipn (length ks) cols).
  intros c1 c2 Hf ->.
  rewrite (zipAdd_app c1 c2 ks os Hf).
  pose proof (zipAdd_app c1 c2 ks [] Hf) as E2.
  rewrite app_nil_r, zipAdd_nil in E2. rewrite E2. clear E2.
  rewrite Nat.add_0_r.
  pose proof (addFrom_zipAdd os (zipAdd c1 ks) c2) as E3.
  rewrite zipAdd_length, Hf in E3. exact E3.
Qed.

Lemma uniform_zipAdd : forall k cols vals,
  uniform k cols -> length vals = length cols -> uniform (S k) (zipAdd cols vals).
Proof.
  intros k cols. induction cols as [|rc t IH]; intros [|v vs] H Hl;
    simpl in *; try discriminate; [constructor|].
  inversion H as [|? ? Hrc Ht]; subst. constructor.
  - cbn [rc_values addValue]. rewrite length_app. cbn [length]. lia.
  - apply IH; [exact Ht|lia].
Qed.

Lemma outRow_zipAdd_old : forall k cols vals i,
  uniform k cols -> i < k -> outRow (zipAdd cols vals) i = outRow cols i.
Proof.
  intros k cols. induction cols as [|rc t IH]; intros [|v vs] i H Hi;
    try reflexivity.
  inversion H as [|? ? Hrc Ht]; subst. cbn [zipAdd outRow map].
  cbn [rc_name rc_values addValue]. rewrite app_nth1 by lia.
  f_equal. apply (IH vs i Ht Hi).
Qed.

Lemma outRow_zipAdd_new : forall k cols vals,
  uniform k cols -> length vals = length cols ->
  outRow (zipAdd cols vals) k = combine (map rc_name cols) vals.
Proof.
  intros k cols. induction cols as [|rc t IH]; intros [|v vs] H Hl;
    simpl in Hl; try discriminate; [reflexivity|].
  inversion H as [|? ? Hrc Ht]; subst. cbn [zipAdd outRow map combine].
  cbn [rc_name rc_values addValue].
  rewrite app_nth2 by lia. rewrite Nat.sub_diag. cbn [nth].
  f_equal. apply (IH vs Ht). lia.
Qed.

Lemma rowCount_uniform : forall k cols,
  uniform k cols -> cols <> [] -> rowCount cols = k.
Proof.
  intros k [|rc t] H Hne; [contradiction|].
  inversion H; subst. reflexivity.
Qed.

(** A row added to a batch with columns is one more row of its block. *)
Lemma blockRowsOut_zipAdd : forall k cols vals,
  uniform k cols -> length vals = length cols -> cols <> [] ->
  blockRowsOut (zipAdd cols vals)
  = blockRowsOut cols ++ [combine (map rc_name cols) vals].
Proof.
  intros k cols vals H Hl Hne. unfold blockRowsOut.
  assert (Hne' : zipAdd cols vals <> []).
  { destruct cols; [contradiction|]. destruct vals; discriminate. }
  rewrite (rowCount_uniform (S k) _ (uniform_zipAdd k cols vals H Hl) Hne').
  rewrite (rowCount_uniform k cols H Hne).
  rewrite seq_S, map_app. cbn [map Nat.add]. f_equal.
  - apply map_ext_in. intros i Hi. apply in_seq in Hi.
    apply (outRow_zipAdd_old k); [exact H|lia].
  - rewrite (outRow_zipAdd_new k cols vals H Hl). reflexivity.
Qed.

Lemma blockRowsOut_reset : forall cols,
  blockRowsOut (map resetKeepName cols) = [].
Proof. intros [|rc t]; reflexivity. Qed.

Lemma rowsOut_app : forall o1 o2, rowsOut (o1 ++ o2) = rowsOut o1 ++ rowsOut o2.
Proof. intros o1 o2. unfold rowsOut. rewrite map_app, concat_app. reflexivity. Qed.

(** [wctx.flush] moves the rows of the batch to [ppBase]. *)
Lemma wctx_flush_rows : forall w o,
  rowsOut (snd (wctx_flush w o)) = rowsOut o ++ blockRowsOut (rcs w)
  /\ blockRowsOut (rcs (fst (wctx_flush w o))) = [].
Proof.
  intros w o. unfold wctx_flush.
  destruct (Nat.eqb (length (rcs w)) 0) eqn:E; cbn [fst snd rcs].
  - apply Nat.eqb_eq in E. apply length_zero_iff_nil in E. rewrite E.
    cbn. rewrite app_nil_r. split; reflexivity.
  - rewrite rowsOut_app. unfold rowsOut at 2. cbn [map concat snd].
    rewrite app_nil_r. split; [reflexivity|apply blockRowsOut_reset].
Qed.

Lemma mapM_length : forall (A B : Type) (f : A -> res B) l r,
  mapM f l = Ok r -> length r = length l.
Proof.
  intros A B f l. induction l as [|x t IH]; intros r H; simpl in H.
  - inversion H. reflexivity.
  - apply bind_Ok in H. destruct H as (y & _ & H).
    apply bind_Ok in H. destruct H as (r' & Er & H). inversion H; subst.
    simpl. f_equal. apply IH. exact Er.
Qed.

Lemma rowValues_length : forall b row bfs vals,
  rowValues b row bfs = Ok vals ->
  length vals = length bfs + length (otherColumns b).
Proof.
  intros b row bfs vals H. unfold rowValues in H.
  apply bind_Ok in H. destruct H as (ks & Ek & H).
  apply bind_Ok in H. destruct H as (os & Eo & H). inversion H; subst.
  rewrite length_app, (mapM_length _ _ _ _ _ Ek), (mapM_length _ _ _ _ _ Eo).
  rewrite length_seq. reflexivity.
Qed.

Lemma zipAdd_names : forall cols vals,
  map rc_name (zipAdd cols vals) = map rc_name cols.
Proof.
  intros cols. induction cols as [|rc t IH]; intros [|v vs]; simpl;
    try reflexivity. rewrite IH. reflexivity.
Qed.

(** The end of [writeRow], from a batch [rcs1] of the shape of the row's
    block: the values of the row are added, one to every column, and the
    batch is written when its bytes reach the limit. *)
Lemma append_rows : forall k rcs1 vl o1 b row bfs w' o',
  uniform k rcs1 ->
  map rc_name rcs1 = map bf_name bfs ++ map name (otherColumns b) ->
  (acc1 <- appendKeys b row (seq 0 (length bfs)) (rcs1, vl) ;;
   acc2 <- appendOthers b row (length bfs) (otherColumns b) 0 acc1 ;;
   let wctx2 := {| rcs := fst acc2; valuesLen := snd acc2 |} in
   if (valuesLen wctx2 >=? 1000000)%Z then Ok (wctx_flush wctx2 o1)
   else Ok (wctx2, o1)) = Ok (w', o') ->
  exists vals,
    rowValues b row bfs = Ok vals
    /\ (exists k', uniform k' (rcs w'))
    /\ map rc_name (rcs w') = map bf_name bfs ++ map name (otherColumns b)
    /\ rowsOut o' ++ blockRowsOut (rcs w')
       = rowsOut o1 ++ blockRowsOut rcs1
         ++ (if Nat.eqb (length vals) 0 then []
             else [combine (map bf_name bfs ++ map name (otherColumns b)) vals]).
Proof.
  intros k rcs1 vl o1 b row bfs w' o' Hu Hn H.
  apply bind_Ok in H. destruct H as (acc1 & E1 & H).
  apply bind_Ok in H. destruct H as (acc2 & E2 & H).
  apply appendKeys_spec in E1. destruct E1 as (ks & Eks & ->).
  apply appendOthers_spec in E2. destruct E2 as (os & Eos & ->).
  cbn [fst snd] in H.
  assert (Hlk : length ks = length bfs).
  { rewrite (mapM_length _ _ _ _ _ Eks). apply length_seq. }
  assert (Hlo : length os = length (otherColumns b))
    by (apply (mapM_length _ _ _ _ _ Eos)).
  assert (Hl1 : length rcs1 = length bfs + length (otherColumns b)).
  { rewrite <- (length_map rc_name), Hn, length_app, !length_map. reflexivity. }
  rewrite <- Hlk in H.
  rewrite (addFrom_keys_others rcs1 ks os) in H by lia.
  exists (ks ++ os).
  split; [unfold rowValues; rewrite Eks; cbn [bind]; rewrite Eos; reflexivity|].
  assert (Hlv : length (ks ++ os) = length rcs1)
    by (rewrite length_app; lia).
  set (cols := zipAdd rcs1 (ks ++ os)) in *.
  assert (Hrows : blockRowsOut cols
                  = blockRowsOut rcs1
                    ++ (if Nat.eqb (length (ks ++ os)) 0 then []
                        else [combine (map bf_name bfs ++ map name (otherColumns b))
                                (ks ++ os)])).
  { destruct (Nat.eq_dec (length rcs1) 0) as [Hz|Hz].
    - rewrite Hlv, Hz. cbn [Nat.eqb].
      destruct rcs1; [|discriminate]. unfold cols. reflexivity.
    - assert (Hne : rcs1 <> []) by (intros ->; apply Hz; reflexivity).
      unfold cols. rewrite (blockRowsOut_zipAdd k rcs1 (ks ++ os) Hu Hlv Hne).
      rewrite Hn. rewrite Hlv.
      destruct (length rcs1); [contradiction|]. reflexivity. }
  assert (Hcn : map rc_name cols = map bf_name bfs ++ map name (otherColumns b))
    by (unfold cols; rewrite zipAdd_names; exact Hn).
  assert (Hcu : uniform (S k) cols)
    by (unfold cols; apply uniform_zipAdd; assumption).
  cbn [valuesLen] in H.
  destruct (_ >=? 1000000)%Z in H.
  - pose proof (wctx_flush_rows
                  {| rcs := cols;
                     valuesLen := addBytes (addBytes vl ks) os |} o1) as [F1 F2].
    inversion H as [Hw]. rewrite Hw in F1, F2. cbn [fst snd rcs] in F1, F2.
    split.
    { unfold wctx_flush in Hw. cbn [rcs] in Hw.
      destruct (Nat.eqb (length cols) 0); inversion Hw; subst w' o'; cbn [rcs].
      - exists (S k). exact Hcu.
      - exists 0. apply Forall_forall. intros rc Hin.
        apply in_map_iff in Hin. destruct Hin as (rc0 & <- & _). reflexivity. }
    split.
    { unfold wctx_flush in Hw. cbn [rcs] in Hw.
      destruct (Nat.eqb (length cols) 0); inversion Hw; subst w' o'; cbn [rcs];
        [exact Hcn|]. rewrite map_map. exact Hcn. }
    rewrite F1, F2, app_nil_r, Hrows, app_assoc. reflexivity.
  - inversion H; subst w' o'. cbn [rcs].
    split; [exists (S k); exact Hcu|]. split; [exact Hcn|].
    rewrite Hrows. reflexivity.
Qed.

(** The batch of a write context: its columns hold as many values each, and
    start with the [by] fields. *)
Definition batchOk (bfs : list bySortField) (w : pipeSortWriteContext) : Prop :=
  (exists k, uniform k (rcs w))
  /\ (rcs w = []
      \/ map rc_name (firstn (length bfs) (rcs w)) = map bf_name bfs).

Lemma freshColumns_uniform : forall bfs b, uniform 0 (freshColumns bfs b).
Proof.
  intros bfs b. unfold freshColumns, uniform. apply Forall_app. split;
    apply Forall_forall; intros rc Hin; apply in_map_iff in Hin;
    destruct Hin as (x & <- & _); reflexivity.
Qed.

Lemma freshColumns_rows : forall bfs b, blockRowsOut (freshColumns bfs b) = [].
Proof.
  intros bfs b. unfold blockRowsOut.
  destruct (freshColumns bfs b) as [|rc t] eqn:E; [reflexivity|].
  pose proof (freshColumns_uniform bfs b) as Hu. rewrite E in Hu.
  inversion Hu as [|? ? Hrc _]; subst. cbn [rowCount]. rewrite Hrc. reflexivity.
Qed.

(** One call of [writeRow]: the rows in [ppBase] and in the batch, after it,
    are those before it and the row written, unless the row has no field. *)
Lemma writeRow_rows : forall w o shard i rr b w' o',
  nth_error (rowRefs shard) i = Some rr ->
  nth_error (blocks shard) (blockIdx rr) = Some b ->
  batchOk (byFields (ps shard)) w ->
  writeRow w o shard i = Ok (w', o') ->
  exists vals,
    rowValues b (rowIdx rr) (byFields (ps shard)) = Ok vals
    /\ batchOk (byFields (ps shard)) w'
    /\ rowsOut o' ++ blockRowsOut (rcs w')
       = (rowsOut o ++ blockRowsOut (rcs w))
         ++ (if Nat.eqb (length vals) 0 then []
             else [combine (map bf_name (byFields (ps shard))
                            ++ map name (otherColumns b)) vals]).
Proof.
  intros w o shard i rr b w' o' Err Eb [[k Hu] Hk] H.
  unfold writeRow in H. apply index_Ok in Err, Eb.
  rewrite Err in H. cbn [bind] in H. rewrite Eb in H. cbn [bind] in H.
  set (bfs := byFields (ps shard)) in *.
  assert (Hfin : forall k1 rcs1 vl o1,
            uniform k1 rcs1 ->
            map rc_name rcs1 = map bf_name bfs ++ map name (otherColumns b) ->
            (acc1 <- appendKeys b (rowIdx rr) (seq 0 (length bfs)) (rcs1, vl) ;;
             acc2 <- appendOthers b (rowIdx rr) (length bfs) (otherColumns b) 0 acc1 ;;
             let wctx2 := {| rcs := fst acc2; valuesLen := snd acc2 |} in
             if (valuesLen wctx2 >=? 1000000)%Z then Ok (wctx_flush wctx2 o1)
             else Ok (wctx2, o1)) = Ok (w', o') ->
            exists vals,
              rowValues b (rowIdx rr) bfs = Ok vals
              /\ batchOk bfs w'
              /\ rowsOut o' ++ blockRowsOut (rcs w')
                 = rowsOut o1 ++ blockRowsOut rcs1
                   ++ (if Nat.eqb (length vals) 0 then []
                       else [combine (map bf_name bfs ++ map name (otherColumns b))
                               vals])).
  { intros k1 rcs1 vl o1 Hu1 Hn1 H1.
    destruct (append_rows k1 rcs1 vl o1 b (rowIdx rr) bfs w' o' Hu1 Hn1 H1)
      as (vals & Ev & Hu' & Hn' & Hrows).
    exists vals. split; [exact Ev|]. split; [|exact Hrows].
    split; [exact Hu'|]. right.
    rewrite <- firstn_map, Hn', firstn_app, length_map, Nat.sub_diag.
    cbn [firstn]. rewrite app_nil_r.
    rewrite <- (length_map bf_name). apply firstn_all. }
  pose proof (areEqualColumns_spec (rcs w) bfs b) as Hsame.
  destruct (areEqualColumns (rcs w) bfs b) eqn:Eeq.
  - assert (Hs : sameShape (rcs w) bfs b) by (apply Hsame; reflexivity).
    destruct Hs as [Hl Hn].
    assert (Hnames : map rc_name (rcs w)
                     = map bf_name bfs ++ map name (otherColumns b)).
    { rewrite (firstn_skipn_names (rcs w) (length bfs)), Hn. f_equal.
      destruct Hk as [Hnil|Hk]; [|exact Hk].
      rewrite Hnil in Hl. simpl in Hl.
      assert (length bfs = 0) by lia.
      destruct bfs; [|discriminate]. rewrite Hnil. reflexivity. }
    destruct (Hfin k (rcs w) (valuesLen w) o Hu Hnames H)
      as (vals & Ev & Hb' & Hrows).
    exists vals. split; [exact Ev|]. split; [exact Hb'|].
    rewrite Hrows, app_assoc. reflexivity.
  - pose proof (wctx_flush_rows w o) as [F1 _].
    destruct (wctx_flush w o) as [w1 o1] eqn:Ef. cbn [fst snd] in F1.
    destruct (Hfin 0 (freshColumns bfs b) (valuesLen w1) o1
                (freshColumns_uniform bfs b) (freshColumns_names bfs b) H)
      as (vals & Ev & Hb' & Hrows).
    exists vals. split; [exact Ev|]. split; [exact Hb'|].
    rewrite Hrows, freshColumns_rows, F1. reflexivity.
Qed.

(** The fields of an ingested row: the names of the [by] fields and of the
    other columns of its block, each with the value of the row, as [writeRow]
    reads them from the block of the row. *)
Definition rowFieldsOf (bfs : list bySortField) (bs : list (list sortBlock))
  (row : nat * sortRowRef) : res (list (string * string)) :=
  bl <- index bs (fst row) ;;
  b <- index bl (blockIdx (snd row)) ;;
  vals <- rowValues b (rowIdx (snd row)) bfs ;;
  Ok (combine (map bf_name bfs ++ map name (otherColumns b)) vals).

Lemma rowFieldsOf_length : forall bfs bs row f,
  rowFieldsOf bfs bs row = Ok f -> length bfs <= length f.
Proof.
  intros bfs bs row f H. unfold rowFieldsOf in H.
  apply bind_Ok in H. destruct H as (bl & _ & H).
  apply bind_Ok in H. destruct H as (b & _ & H).
  apply bind_Ok in H. destruct H as (vals & Ev & H). inversion H; subst f.
  rewrite length_combine, length_app, !length_map,
    (rowValues_length _ _ _ _ Ev). lia.
Qed.

(** The calls of [writeRow] for the positions [l]: the rows in [ppBase] and in
    the batch, after them, are those before them and the rows at [l], in the
    order of [l], without the rows that have no field. *)
Lemma writeRows_rows : forall bfs ss l w o w' o',
  Forall (fun s => byFields (ps s) = bfs) ss ->
  batchOk bfs w ->
  writeRows ss l (w, o) = Ok (w', o') ->
  exists rows fields,
    mapM (rowAt ss) l = Ok rows
    /\ mapM (rowFieldsOf bfs (map blocks ss)) rows = Ok fields
    /\ batchOk bfs w'
    /\ rowsOut o' ++ blockRowsOut (rcs w')
       = (rowsOut o ++ blockRowsOut (rcs w)) ++ filter hasFields fields.
Proof.
  intros bfs ss l. induction l as [|a t IH]; intros w o w' o' Hps Hb H.
  - cbn [writeRows] in H. inversion H; subst w' o'.
    exists [], []. cbn [mapM filter]. rewrite app_nil_r. auto.
  - cbn [writeRows] in H.
    apply bind_Ok in H. destruct H as (s & Es & H).
    apply bind_Ok in H. destruct H as ([w1 o1] & E1 & H).
    cbn [fst snd] in E1.
    assert (Hs : byFields (ps s) = bfs).
    { apply index_Ok in Es.
      apply (proj1 (Forall_forall _ _) Hps s (nth_error_In _ _ Es)). }
    pose proof E1 as E1'. unfold writeRow in E1'.
    apply bind_Ok in E1'. destruct E1' as (rr & Err & E1').
    apply bind_Ok in E1'. destruct E1' as (b & Eb & _).
    rewrite <- Hs in Hb.
    destruct (writeRow_rows w o s (snd a) rr b w1 o1
                (proj1 (index_Ok _ _ _ _) Err) (proj1 (index_Ok _ _ _ _) Eb)
                Hb E1) as (vals & Ev & Hb1 & Hrows1).
    rewrite Hs in Hb1, Hrows1, Ev.
    destruct (IH w1 o1 w' o' Hps Hb1 H) as (rows & fields & Er & Ef & Hb' & Hrows).
    exists ((fst a, rr) :: rows),
      (combine (map bf_name bfs ++ map name (otherColumns b)) vals :: fields).
    split.
    { cbn [mapM]. unfold rowAt at 1. rewrite Es. cbn [bind]. rewrite Err.
      cbn [bind]. rewrite Er. reflexivity. }
    split.
    { cbn [mapM]. unfold rowFieldsOf at 1. cbn [fst snd].
      assert (Ebl : index (map blocks ss) (fst a) = Ok (blocks s)).
      { apply index_Ok. rewrite nth_error_map.
        apply index_Ok in Es. rewrite Es. reflexivity. }
      rewrite Ebl. cbn [bind]. rewrite Eb. cbn [bind]. rewrite Ev. cbn [bind].
      rewrite Ef. reflexivity. }
    split; [exact Hb'|].
    rewrite Hrows, Hrows1. rewrite <- !app_assoc. f_equal. f_equal.
    cbn [filter].
    assert (Hh : hasFields (combine (map bf_name bfs ++ map name (otherColumns b))
                              vals)
                 = negb (Nat.eqb (length vals) 0)).
    { unfold hasFields.
      rewrite length_combine, length_app, !length_map,
        (rowValues_length _ _ _ _ Ev), Nat.min_id. reflexivity. }
    rewrite Hh. destruct (Nat.eqb (length vals) 0); reflexivity.
Qed.

Lemma fields_all : forall bfs bs rows fields,
  bfs <> [] ->
  mapM (rowFieldsOf bfs bs) rows = Ok fields ->
  filter hasFields fields = fields.
Proof.
  intros bfs bs rows. induction rows as [|x t IH]; intros fields Hne H;
    cbn [mapM] in H.
  - inversion H. reflexivity.
  - apply bind_Ok in H. destruct H as (f & Ef & H).
    apply bind_Ok in H. destruct H as (fs & Efs & H). inversion H; subst fields.
    cbn [filter]. rewrite (IH fs Hne Efs).
    pose proof (rowFieldsOf_length _ _ _ _ Ef) as Hl.
    unfold hasFields. destruct (length f) as [|n] eqn:E; [|reflexivity].
    destruct bfs; [contradiction|]. simpl in Hl. lia.
Qed.

(** ** The claims on the rows emitted and on the result of [flush] *)

(** C1, amended. For a processor built by [newPipeProcessor] and [writeBlock],
    with global budget left at the entry of [flush], no stop observed on
    [stopCh], and a [sort.Sort] that meets its contract: [flush] returns nil;
    the rows it hands to [writeRow], in order, are a permutation of all the
    rows of all the ingested blocks; the blocks written to [ppBase] are those
    of these calls of [writeRow] followed by the last [wctx.flush]; read row
    by row, the blocks added to [ppBase] hold the fields of these rows, the
    [by] fields then the other columns of the row's block with the values of
    the row, in the order of the calls, without the rows that have no field
    at all, and with every row when the pipe has a [by] field; and, when the
    comparator is transitive on the ingested rows, no row written is smaller
    by [sortBlockLess] than the row written just before it. *)
Theorem flush_emits_sorted_permutation : forall p psp stopCh,
  sortContract ->
  reachable p psp ->
  (0 < psp_stateSizeBudget psp)%Z ->
  (forall k, stopCh k = false) ->
  exists r rows w o fields,
    flush stopCh psp = Ok r
    /\ f_err r = None
    /\ map blocks (shards (f_psp r)) = map blocks (shards psp)
    /\ mapM (rowAt (shards (f_psp r))) (f_written r) = Ok rows
    /\ Permutation rows (ingestedRows (shards psp) 0)
    /\ writeRows (shards (f_psp r)) (f_written r)
         ({| rcs := []; valuesLen := 0 |}, ppBase psp) = Ok (w, o)
    /\ ppBase (f_psp r) = snd (wctx_flush w o)
    /\ mapM (rowFieldsOf (byFields p) (map blocks (shards psp))) rows = Ok fields
    /\ rowsOut (ppBase (f_psp r))
       = rowsOut (ppBase psp) ++ filter hasFields fields
    /\ (byFields p <> [] -> filter hasFields fields = fields)
    /\ (transitiveRows (shards psp) ->
        forall k a b sA sB,
          nth_error (f_written r) k = Some a ->
          nth_error (f_written r) (S k) = Some b ->
          nth_error (shards (f_psp r)) (fst a) = Some sA ->
          nth_error (shards (f_psp r)) (fst b) = Some sB ->
          sortBlockLess sB (snd b) sA (snd a) = Ok false).
Proof.
  intros p psp stopCh Hc Hreach Hb Hstop.
  destruct (flush_spec p psp stopCh Hc Hreach Hb Hstop)
    as (r & rows & w & o & F1 & F2 & F3 & F4 & F5 & F6 & F7 & F8).
  destruct (flush_any_spec p psp stopCh Hc Hreach Hb)
    as (r' & _ & _ & _ & _ & G1 & _ & _ & Gps & _).
  assert (Er : r' = r) by congruence. subst r'.
  destruct (reachable_inv p psp Hreach) as ([Hwf _] & Hps).
  unfold wf_processor in Hwf.
  assert (Hbf : Forall (fun s => byFields (ps s) = byFields p) (shards (f_psp r))).
  { apply (proj1 (Forall_map ps (fun q => byFields q = byFields p) _)).
    rewrite Gps. apply Forall_map. apply Forall_forall. intros s Hs.
    destruct (proj1 (Forall_forall _ _) Hwf s Hs) as (A & _).
    rewrite A, Hps. reflexivity. }
  assert (Hb0 : batchOk (byFields p) {| rcs := []; valuesLen := 0 |}).
  { split; [exists 0; constructor|left; reflexivity]. }
  destruct (writeRows_rows (byFields p) _ _ _ _ _ _ Hbf Hb0 F6)
    as (rows' & fields & Er & Ef & _ & Hrows).
  assert (Erows : rows' = rows) by congruence. subst rows'.
  rewrite F3 in Ef.
  exists r, rows, w, o, fields.
  repeat (split; [assumption|]).
  split.
  { rewrite F7. rewrite (proj1 (wctx_flush_rows w o)), Hrows.
    cbn [rcs]. change (blockRowsOut []) with (@nil (list (string * string))).
    rewrite app_nil_r. reflexivity. }
  split; [intros Hne; apply (fields_all _ _ _ _ Hne Ef)|].
  intros Ht k a b sA sB Ha Hb' EA EB.
  pose proof (F8 Ht k a b Ha Hb') as G.
  unfold lePos, lessPos, index in G. rewrite EB, EA in G. exact G.
Qed.

(** C5. [flush] returns an error exactly when the global budget is not
    positive at its entry, whatever [stopCh] says; the error is the one
    sentence that names the printed sort clause and the megabytes of
    [maxStateSize]; with a positive budget and [stopCh] closed at the entry,
    [flush] returns nil with no row written; and with a positive budget, for a
    processor built by [newPipeProcessor] and [writeBlock] and a [sort.Sort]
    that meets its contract, [flush] returns, and returns nil, whatever
    [stopCh] answers at any of its polls: at the entry, after the sort, and
    before every step of the merge. *)
Theorem flush_error_iff_budget_exhausted : forall stopCh psp,
  ((psp_stateSizeBudget psp <= 0)%Z ->
   flush stopCh psp =
     Ok {| f_err := Some (flushError psp); f_psp := psp; f_written := [] |})
  /\ (forall r, flush stopCh psp = Ok r ->
        (f_err r <> None <-> (psp_stateSizeBudget psp <= 0)%Z)
        /\ (f_err r <> None -> f_err r = Some (flushError psp)))
  /\ ((0 < psp_stateSizeBudget psp)%Z -> stopCh 0 = true ->
      flush stopCh psp = Ok {| f_err := None; f_psp := psp; f_written := [] |})
  /\ flushError psp =
       ("cannot calculate [" ++ pipeSort_String (psp_ps psp)
        ++ "], since it requires more than "
        ++ formatInt (Z.quot (maxStateSize psp) 1048576)
        ++ "MB of memory")%string
  /\ (forall p,
        sortContract ->
        reachable p psp ->
        (0 < psp_stateSizeBudget psp)%Z ->
        exists r, flush stopCh psp = Ok r /\ f_err r = None).
Proof.
  intros stopCh psp.
  destruct (flush_error_cases stopCh psp) as (A & B & C & D).
  repeat (split; [assumption|]).
  intros p Hc Hreach Hb.
  destruct (flush_any_spec p psp stopCh Hc Hreach Hb)
    as (r & _ & _ & _ & _ & G1 & G2 & _).
  exists r. split; assumption.
Qed.

End PipeSort.

(** * Runs on concrete inputs *)

(** The pre-parsed arrays of a block depend on the parsers only through the
    values of its [by] columns. *)
Definition keyValues (b : blockResult) (bfs : list bySortField) : list string :=
  flat_map (fun bf =>
              let col := getColumnByName b (bf_name bf) in
              if isTime col then []
              else if isConst col then encodedValues col
              else getValues col b) bfs.

Section ParserExt.

Variables pU pIP pU' pIP' : string -> Z * bool.
Variables pF pF' : string -> float64 * bool.
Variable quote : string -> string.
Variable sizeBytes : blockResult -> Z.
Variables sizeof_blockResultColumn stateSizeBudgetChunk : Z.

Lemma collectByColumns_ext : forall b bfs shard,
  (forall v, In v (keyValues b bfs) ->
     parseInt64Value pU pIP v = parseInt64Value pU' pIP' v
     /\ parseFloat64Value pF v = parseFloat64Value pF' v) ->
  collectByColumns pU pIP pF shard b bfs
  = collectByColumns pU' pIP' pF' shard b bfs.
Proof.
  intros b bfs. induction bfs as [|bf rest IH]; intros shard H; [reflexivity|].
  cbn [collectByColumns].
  assert (Hrest : forall v, In v (keyValues b rest) ->
            parseInt64Value pU pIP v = parseInt64Value pU' pIP' v
            /\ parseFloat64Value pF v = parseFloat64Value pF' v).
  { intros v Hv. apply H. unfold keyValues. cbn [flat_map].
    apply in_or_app. right. exact Hv. }
  assert (Hhere : forall v,
            In v (let col := getColumnByName b (bf_name bf) in
                  if isTime col then []
                  else if isConst col then encodedValues col
                  else getValues col b) ->
            parseInt64Value pU pIP v = parseInt64Value pU' pIP' v
            /\ parseFloat64Value pF v = parseFloat64Value pF' v).
  { intros v Hv. apply H. unfold keyValues. cbn [flat_map].
    apply in_or_app. left. exact Hv. }
  cbv zeta in Hhere.
  destruct (isTime (getColumnByName b (bf_name bf))).
  - rewrite (IH shard Hrest). reflexivity.
  - unfold createInt64Values, createFloat64Values.
    destruct (isConst (getColumnByName b (bf_name bf)));
      rewrite (map_ext_in (parseInt64Value pU pIP) (parseInt64Value pU' pIP') _
                 (fun v Hv => proj1 (Hhere v Hv))),
              (map_ext_in (parseFloat64Value pF) (parseFloat64Value pF') _
                 (fun v Hv => proj2 (Hhere v Hv)));
      rewrite IH by exact Hrest; reflexivity.
Qed.

Lemma shard_writeBlock_ext : forall shard b,
  (forall v, In v (keyValues b (byFields (ps shard))) ->
     parseInt64Value pU pIP v = parseInt64Value pU' pIP' v
     /\ parseFloat64Value pF v = parseFloat64Value pF' v) ->
  shard_writeBlock pU pIP pF quote sizeBytes sizeof_blockResultColumn shard b
  = shard_writeBlock pU' pIP' pF' quote sizeBytes sizeof_blockResultColumn shard b.
Proof.
  intros shard b H. unfold shard_writeBlock.
  rewrite (collectByColumns_ext b (byFields (ps shard)) shard H). reflexivity.
Qed.

Lemma writeBlock_ext : forall psp workerID b,
  (forall shard, nth_error (shards psp) workerID = Some shard ->
   forall v, In v (keyValues b (byFields (ps shard))) ->
     parseInt64Value pU pIP v = parseInt64Value pU' pIP' v
     /\ parseFloat64Value pF v = parseFloat64Value pF' v) ->
  writeBlock pU pIP pF quote sizeBytes sizeof_blockResultColumn
    stateSizeBudgetChunk psp workerID b
  = writeBlock pU' pIP' pF' quote sizeBytes sizeof_blockResultColumn
      stateSizeBudgetChunk psp workerID b.
Proof.
  intros psp workerID b H. unfold writeBlock.
  destruct (Nat.eqb (length (timestamps b)) 0); [reflexivity|].
  unfold index. destruct (nth_error (shards psp) workerID) as [shard|] eqn:Es;
    [|reflexivity].
  cbn [bind].
  destruct (stealBudget stateSizeBudgetChunk
              (stealFuel stateSizeBudgetChunk (stateSizeBudget shard))
              (psp_stateSizeBudget psp) (cancelCalls psp) (stateSizeBudget shard))
    as [[[[g cancels] sb] go]| |]; cbn [bind]; try reflexivity.
  destruct go; [|reflexivity].
  rewrite (shard_writeBlock_ext (with_stateSizeBudget shard sb) b (H shard eq_refl)).
  reflexivity.
Qed.

End ParserExt.

(** The parameters of the concrete runs. *)
Module Run.

(** Modelled from the spec: [blockResult.sizeBytes] is declared outside
    [pipe_sort.go]; memory accounting is "based on sizeof-style estimates".
    The instance used on concrete inputs counts eight bytes per timestamp and
    the bytes of every value. *)
Definition sizeBytes (b : blockResult) : Z :=
  (8 * lenZ (timestamps b)
   + fold_right (fun col acc => bufLen (values col) + acc) 0 (columns b))%Z.

(** Modelled from the spec: [unsafe.Sizeof(blockResultColumn{})], a
    sizeof-style estimate of a struct declared outside [pipe_sort.go]. *)
Definition sizeof_blockResultColumn : Z := 64.

Definition isTokenChar (ch : ascii) : bool :=
  let n := nat_of_ascii ch in
  (Nat.leb 48 n && Nat.leb n 57) || (Nat.leb 65 n && Nat.leb n 90)
  || (Nat.leb 97 n && Nat.leb n 122) || Nat.eqb n 95.

Fixpoint allTokenChars (s : string) : bool :=
  match s with
  | EmptyString => true
  | String ch rest => isTokenChar ch && allTokenChars rest
  end.

(** Modelled from the spec: [quoteTokenIfNeeded] is declared outside
    [pipe_sort.go]; field names are printed "quoted when they contain
    non-identifier characters". *)
Definition quoteTokenIfNeeded (s : string) : string :=
  if allTokenChars s then s else SpecModel.quote s.

Definition newProcessor : pipeSort -> nat -> Z -> pipeSortProcessor :=
  newPipeProcessor SpecModel.stateSizeBudgetChunk.

Definition ingest
  : pipeSortProcessor -> nat -> blockResult -> res pipeSortProcessor :=
  writeBlock SpecModel.tryParseUint64 SpecModel.tryParseIPv4
    SpecModel.tryParseFloat64 SpecModel.quote sizeBytes sizeof_blockResultColumn
    SpecModel.stateSizeBudgetChunk.

Definition isReachable : pipeSort -> pipeSortProcessor -> Prop :=
  reachable SpecModel.tryParseUint64 SpecModel.tryParseIPv4
    SpecModel.tryParseFloat64 SpecModel.quote sizeBytes sizeof_blockResultColumn
    SpecModel.stateSizeBudgetChunk.

(** [flush] with the insertion sort in the place of [sort.Sort] on long
    shards. *)
Definition run_flush : (nat -> bool) -> pipeSortProcessor -> res flushResult :=
  flush insertionSort quoteTokenIfNeeded.

Definition orElse {A : Type} (r : res A) (d : A) : A :=
  match r with Ok a => a | _ => d end.

(** [sort by (n)]. *)
Definition psN : pipeSort :=
  {| byFields := [{| bf_name := "n"; bf_isDesc := false |}]; isDesc := false |}.

(** [sort by (n) desc]. *)
Definition psNdesc : pipeSort :=
  {| byFields := [{| bf_name := "n"; bf_isDesc := false |}]; isDesc := true |}.

Definition columnN (vs : list string) : blockResultColumn :=
  {| name := "n"; isConst := false; isTime := false; encodedValues := [];
     values := vs |}.

(** A block of one column [n] with the values [vs], one per row. *)
Definition blockN (vs : list string) : blockResult :=
  {| timestamps := map (fun _ => 0%Z) vs; columns := [columnN vs] |}.

(** A block of [k] rows whose column [n] is const with value [v]. *)
Definition blockConst (v : string) (k : nat) : blockResult :=
  {| timestamps := repeat 0%Z k;
     columns := [ {| name := "n"; isConst := true; isTime := false;
                     encodedValues := [v]; values := repeat v k |} ] |}.

Definition noStop (k : nat) : bool := false.

Definition stopped (k : nat) : bool := true.

(** One worker, the rows 9, foo and 2 in one block. *)
Definition psp_9_foo_2 : pipeSortProcessor :=
  orElse (ingest (newProcessor psN 1 1000000) 0 (blockN ["9"; "foo"; "2"]%string))
    (newProcessor psN 1 1000000).

(** Three workers, one row each. *)
Definition psp_three : pipeSortProcessor :=
  let p0 := newProcessor psN 3 10000000 in
  let p1 := orElse (ingest p0 0 (blockN ["1-"]%string)) p0 in
  let p2 := orElse (ingest p1 1 (blockN ["1.0"]%string)) p1 in
  orElse (ingest p2 2 (blockN ["1"]%string)) p2.

(** One worker under [desc], two blocks whose column [n] is const. *)
Definition psp_const : pipeSortProcessor :=
  let p0 := newProcessor psNdesc 1 1000000 in
  let p1 := orElse (ingest p0 0 (blockConst "a" 1)) p0 in
  orElse (ingest p1 0 (blockConst "b" 1)) p1.

(** One worker after a block of 2100 rows: the shard's budget is spent. *)
Definition psp_spent : pipeSortProcessor :=
  orElse (ingest (newProcessor psN 1 1000000) 0 (blockN (repeat "x"%string 2100)))
    (newProcessor psN 1 1000000).

Lemma wf_blockN : forall vs, wf_block (blockN vs).
Proof.
  intros vs. unfold wf_block, blockN. cbn [columns timestamps].
  constructor; [|constructor]. split.
  - cbn [values columnN]. rewrite length_map. reflexivity.
  - intros H. discriminate.
Qed.

Lemma wf_blockConst : forall v k, wf_block (blockConst v k).
Proof.
  intros v k. unfold wf_block, blockConst. cbn [columns timestamps].
  constructor; [|constructor]. split.
  - cbn [values]. rewrite !repeat_length. reflexivity.
  - intros _. reflexivity.
Qed.

Lemma reach_9_foo_2 : isReachable psN psp_9_foo_2.
Proof.
  apply (reach_writeBlock _ _ _ _ _ _ _ psN (newProcessor psN 1 1000000) 0
           (blockN ["9"; "foo"; "2"]%string) psp_9_foo_2);
    [apply reach_new | apply wf_blockN | vm_compute; reflexivity].
Qed.

Lemma reach_three : isReachable psN psp_three.
Proof.
  set (p0 := newProcessor psN 3 10000000).
  set (p1 := orElse (ingest p0 0 (blockN ["1-"]%string)) p0).
  set (p2 := orElse (ingest p1 1 (blockN ["1.0"]%string)) p1).
  assert (R0 : isReachable psN p0) by apply reach_new.
  assert (R1 : isReachable psN p1).
  { apply (reach_writeBlock _ _ _ _ _ _ _ psN p0 0 (blockN ["1-"]%string) p1);
      [exact R0 | apply wf_blockN | vm_compute; reflexivity]. }
  assert (R2 : isReachable psN p2).
  { apply (reach_writeBlock _ _ _ _ _ _ _ psN p1 1 (blockN ["1.0"]%string) p2);
      [exact R1 | apply wf_blockN | vm_compute; reflexivity]. }
  apply (reach_writeBlock _ _ _ _ _ _ _ psN p2 2 (blockN ["1"]%string) psp_three);
    [exact R2 | apply wf_blockN | vm_compute; reflexivity].
Qed.

Lemma reach_const : isReachable psNdesc psp_const.
Proof.
  set (p0 := newProcessor psNdesc 1 1000000).
  set (p1 := orElse (ingest p0 0 (blockConst "a" 1)) p0).
  assert (R0 : isReachable psNdesc p0) by apply reach_new.
  assert (R1 : isReachable psNdesc p1).
  { apply (reach_writeBlock _ _ _ _ _ _ _ psNdesc p0 0 (blockConst "a" 1) p1);
      [exact R0 | apply wf_blockConst | vm_compute; reflexivity]. }
  apply (reach_writeBlock _ _ _ _ _ _ _ psNdesc p1 0 (blockConst "b" 1) psp_const);
    [exact R1 | apply wf_blockConst | vm_compute; reflexivity].
Qed.

Lemma reach_spent : isReachable psN psp_spent.
Proof.
  apply (reach_writeBlock _ _ _ _ _ _ _ psN (newProcessor psN 1 1000000) 0
           (blockN (repeat "x"%string 2100)) psp_spent);
    [apply reach_new | apply wf_blockN | vm_compute; reflexivity].
Qed.

Lemma insertionSort_contract : sortContract insertionSort.
Proof.
  intros s Hs _. destruct (insertionSort_spec s Hs) as (l' & E & P & C).
  exists l'. auto.
Qed.

End Run.

(** ** The transitivity of the comparator on given rows, decided *)

Definition isFalse (r : res bool) : bool :=
  match r with
  | Ok false => true
  | _ => false
  end.

Definition transitiveRowsb (ss : list pipeSortProcessorShard) : bool :=
  let rows := rowsFrom ss 0 in
  forallb (fun a =>
    forallb (fun b =>
      forallb (fun x =>
        implb (isFalse (rowLess ss b a) && isFalse (rowLess ss x b))
              (isFalse (rowLess ss x a))) rows) rows) rows.

Lemma rowsFrom_In : forall ss k p s rr,
  nth_error ss p = Some s -> In rr (rowRefs s) -> In (k + p, rr) (rowsFrom ss k).
Proof.
  intros ss. induction ss as [|h t IH]; intros k [|p] s rr Es Hin;
    simpl in Es; try discriminate; cbn [rowsFrom]; apply in_or_app.
  - inversion Es; subst. left. rewrite Nat.add_0_r.
    apply in_map. exact Hin.
  - right. replace (k + S p) with (S k + p) by lia. eapply IH; eauto.
Qed.

Lemma isFalse_Ok : forall r, isFalse r = true <-> r = Ok false.
Proof.
  intros [[|]| |]; simpl; split; intros H; try discriminate; reflexivity.
Qed.

Lemma transitiveRowsb_sound : forall ss,
  transitiveRowsb ss = true -> transitiveRows ss.
Proof.
  intros ss H [pa ra] [pb rb] [px rx] (sa & Ea & Ia) (sb & Eb & Ib)
    (sx & Ex & Ix) Hab Hbx.
  cbn [fst snd] in *. unfold transitiveRowsb in H.
  pose proof (rowsFrom_In ss 0 pa sa ra Ea Ia) as Ja.
  pose proof (rowsFrom_In ss 0 pb sb rb Eb Ib) as Jb.
  pose proof (rowsFrom_In ss 0 px sx rx Ex Ix) as Jx.
  cbn [Nat.add] in Ja, Jb, Jx.
  pose proof (proj1 (forallb_forall _ _) H _ Ja) as H1. cbv beta in H1.
  pose proof (proj1 (forallb_forall _ _) H1 _ Jb) as H2. cbv beta in H2.
  pose proof (proj1 (forallb_forall _ _) H2 _ Jx) as H3. cbv beta in H3.
  apply isFalse_Ok.
  apply (proj2 (isFalse_Ok _)) in Hab, Hbx. rewrite Hab, Hbx in H3.
  exact H3.
Qed.

(** ** The three tiers, and the run of the rows 9, foo and 2 *)

(** C2. On a key column that is neither const nor time on either side, the
    comparator decides by the order of the pre-parsed int64 values exactly
    when both are non-zero, else by the order of the pre-parsed float64
    values exactly when neither is NaN, else by the order of the strings, in
    the direction of the key; a tie in the tier that applies passes to the
    next key. With parsers that read 9 and 2 as numbers and reject foo, the
    rows 9, foo and 2 under [sort by (n)] leave [flush] as 2, 9, foo. *)
Theorem numeric_tiers_then_string :
  (forall shardA iA shardB iB rrA rrB bA bB,
     nth_error (rowRefs shardA) iA = Some rrA ->
     nth_error (rowRefs shardB) iB = Some rrB ->
     nth_error (blocks shardA) (blockIdx rrA) = Some bA ->
     nth_error (blocks shardB) (blockIdx rrB) = Some bB ->
     sortBlockLess shardA iA shardB iB = lessFrom (ps shardA) bA rrA bB rrB 0)
  /\ (forall p bA rrA bB rrB idx cA cB desc uA uB fA fB sA sB,
        nth_error (byColumns bA) idx = Some cA ->
        nth_error (byColumns bB) idx = Some cB ->
        keyDesc p idx = Ok desc ->
        isConst (c cA) = false -> isConst (c cB) = false ->
        isTime (c cA) = false -> isTime (c cB) = false ->
        nth_error (i64Values cA) (rowIdx rrA) = Some uA ->
        nth_error (i64Values cB) (rowIdx rrB) = Some uB ->
        nth_error (f64Values cA) (rowIdx rrA) = Some fA ->
        nth_error (f64Values cB) (rowIdx rrB) = Some fB ->
        nth_error (values (c cA)) (rowIdx rrA) = Some sA ->
        nth_error (values (c cB)) (rowIdx rrB) = Some sB ->
        lessFrom p bA rrA bB rrB idx =
          match tierDecision desc uA uB fA fB sA sB with
          | Some b => Ok b
          | None => lessFrom p bA rrA bB rrB (S idx)
          end)
  /\ (forall (pU pIP : string -> Z * bool) (pF : string -> float64 * bool)
             (pdqsort_large : pipeSortProcessorShard -> res pipeSortProcessorShard)
             (quoteTokenIfNeeded : string -> string),
        pU "9"%string = (9%Z, true) ->
        pU "2"%string = (2%Z, true) ->
        snd (pU "foo"%string) = false ->
        fst (pIP "foo"%string) = 0%Z ->
        pF "9"%string = (f64_of_int 9, true) ->
        pF "2"%string = (f64_of_int 2, true) ->
        snd (pF "foo"%string) = false ->
        exists psp r,
          writeBlock pU pIP pF SpecModel.quote Run.sizeBytes
            Run.sizeof_blockResultColumn SpecModel.stateSizeBudgetChunk
            (Run.newProcessor Run.psN 1 1000000) 0
            (Run.blockN ["9"; "foo"; "2"]%string) = Ok psp
          /\ flush pdqsort_large quoteTokenIfNeeded Run.noStop psp = Ok r
          /\ f_err r = None
          /\ ppBase (f_psp r) =
               [(0, [ {| rc_name := "n";
                         rc_values := ["2"; "9"; "foo"]%string |} ])]).
Proof.
  split; [|split].
  - intros shardA iA shardB iB rrA rrB bA bB H1 H2 H3 H4.
    apply (sortBlockLess_lessFrom shardA iA shardB iB rrA rrB bA bB H1 H2 H3 H4).
  - intros p bA rrA bB rrB idx cA cB desc uA uB fA fB sA sB
      EA EB Ed H1 H2 H3 H4 H5 H6 H7 H8 H9 H10.
    apply (lessFrom_tiers p bA rrA bB rrB idx cA cB desc uA uB fA fB sA sB);
      assumption.
  - intros pU pIP pF pdq qtok H9 H2 Hfoo Hip Hf9 Hf2 Hf.
    exists Run.psp_9_foo_2. eexists. split; [|split; [|split]].
    + rewrite (writeBlock_ext pU pIP SpecModel.tryParseUint64
                 SpecModel.tryParseIPv4 pF SpecModel.tryParseFloat64).
      * vm_compute. reflexivity.
      * intros shard Es v Hv. vm_compute in Es. inversion Es; subst shard.
        clear Es. vm_compute in Hv.
        destruct Hv as [<-|[<-|[<-|[]]]];
          unfold parseInt64Value, parseFloat64Value, tryParseInt64;
          cbn [Ascii.eqb Bool.eqb negb].
        -- rewrite H9, Hf9. vm_compute. auto.
        -- destruct (pU "foo"%string) as [u ok]. cbn in Hfoo. subst ok.
           destruct (pIP "foo"%string) as [u2 ok2]. cbn in Hip. subst u2.
           destruct (pF "foo"%string) as [f ok3]. cbn in Hf. subst ok3.
           vm_compute. auto.
        -- rewrite H2, Hf2. vm_compute. auto.
    + vm_compute. reflexivity.
    + reflexivity.
    + reflexivity.
Qed.

(** ** The theorems at concrete inputs *)

Definition emptyShard : pipeSortProcessorShard :=
  {| ps := Run.psN; blocks := []; rowRefs := []; rowRefNext := 0;
     stateSizeBudget := 0 |}.

Definition shardAt (psp : pipeSortProcessor) (i : nat) : pipeSortProcessorShard :=
  nth i (shards psp) emptyShard.

Definition emptySortBlock : sortBlock :=
  {| br := Run.blockN []; byColumns := []; otherColumns := [] |}.

Definition blockAt (s : pipeSortProcessorShard) (i : nat) : sortBlock :=
  nth i (blocks s) emptySortBlock.

Definition keyAt (b : sortBlock) (i : nat) : sortBlockByColumn :=
  nth i (byColumns b)
    {| c := Run.columnN []; i64Values := []; f64Values := [] |}.

Lemma wf_shardAt : forall p psp i,
  Run.isReachable p psp -> i < length (shards psp) -> wf_shard (shardAt psp i).
Proof.
  intros p psp i Hr Hi.
  destruct (reachable_inv _ _ _ _ _ _ _ p psp Hr) as ([Hwf _] & _).
  unfold wf_processor in Hwf.
  assert (Hin : In (shardAt psp i) (shards psp)) by (apply nth_In; exact Hi).
  apply (proj1 (Forall_forall _ _) Hwf _ Hin).
Qed.

(** [sort by (_time) desc]. *)
Definition psTime : pipeSort :=
  {| byFields := [{| bf_name := "_time"; bf_isDesc := false |}]; isDesc := true |}.

(** A block of two rows with the timestamps 5 and 3, and its time column. *)
Definition blockTime : blockResult :=
  {| timestamps := [5%Z; 3%Z];
     columns := [ {| name := "_time"; isConst := false; isTime := true;
                     encodedValues := []; values := ["5"; "3"]%string |} ] |}.

(** One worker under [sort by (_time) desc], after the block [blockTime]: the
    key column of its block is the time column. *)
Definition psp_time : pipeSortProcessor :=
  Run.orElse (Run.ingest (Run.newProcessor psTime 1 1000000) 0 blockTime)
    (Run.newProcessor psTime 1 1000000).

Lemma wf_blockTime : wf_block blockTime.
Proof.
  unfold wf_block, blockTime. cbn [columns timestamps].
  constructor; [|constructor]. split; [reflexivity|discriminate].
Qed.

Lemma reach_time : Run.isReachable psTime psp_time.
Proof.
  apply (reach_writeBlock _ _ _ _ _ _ _ psTime (Run.newProcessor psTime 1 1000000)
           0 blockTime psp_time);
    [apply reach_new | apply wf_blockTime | vm_compute; reflexivity].
Qed.

(** [stopCh] closed from its poll [n] on. *)
Definition stopFrom (n k : nat) : bool := Nat.leb n k.

Lemma flush_emits_sorted_permutation_witness :
  transitiveRows (shards Run.psp_9_foo_2)
  /\ exists r rows w o fields,
       Run.run_flush Run.noStop Run.psp_9_foo_2 = Ok r
       /\ f_err r = None
       /\ map blocks (shards (f_psp r)) = map blocks (shards Run.psp_9_foo_2)
       /\ mapM (rowAt (shards (f_psp r))) (f_written r) = Ok rows
       /\ Permutation rows (ingestedRows (shards Run.psp_9_foo_2) 0)
       /\ writeRows (shards (f_psp r)) (f_written r)
            ({| rcs := []; valuesLen := 0 |}, ppBase Run.psp_9_foo_2) = Ok (w, o)
       /\ ppBase (f_psp r) = snd (wctx_flush w o)
       /\ mapM (rowFieldsOf (byFields Run.psN)
                  (map blocks (shards Run.psp_9_foo_2))) rows = Ok fields
       /\ rowsOut (ppBase (f_psp r))
          = rowsOut (ppBase Run.psp_9_foo_2) ++ filter hasFields fields
       /\ (byFields Run.psN <> [] -> filter hasFields fields = fields)
       /\ (transitiveRows (shards Run.psp_9_foo_2) ->
           forall k a b sA sB,
             nth_error (f_written r) k = Some a ->
             nth_error (f_written r) (S k) = Some b ->
             nth_error (shards (f_psp r)) (fst a) = Some sA ->
             nth_error (shards (f_psp r)) (fst b) = Some sB ->
             sortBlockLess sB (snd b) sA (snd a) = Ok false).
Proof.
  split.
  - apply transitiveRowsb_sound. vm_compute. reflexivity.
  - apply (flush_emits_sorted_permutation
             SpecModel.tryParseUint64 SpecModel.tryParseIPv4
             SpecModel.tryParseFloat64 SpecModel.quote Run.sizeBytes
             Run.sizeof_blockResultColumn SpecModel.stateSizeBudgetChunk
             insertionSort Run.quoteTokenIfNeeded Run.psN Run.psp_9_foo_2
             Run.noStop Run.insertionSort_contract Run.reach_9_foo_2).
    + vm_compute. reflexivity.
    + intros k. reflexivity.
Defined.

Lemma numeric_tiers_then_string_witness :
  lessFrom Run.psN (blockAt (shardAt Run.psp_9_foo_2 0) 0)
    {| blockIdx := 0; rowIdx := 0 |}
    (blockAt (shardAt Run.psp_9_foo_2 0) 0) {| blockIdx := 0; rowIdx := 2 |} 0
  = Ok false
  /\ lessFrom Run.psN (blockAt (shardAt Run.psp_9_foo_2 0) 0)
       {| blockIdx := 0; rowIdx := 2 |}
       (blockAt (shardAt Run.psp_9_foo_2 0) 0) {| blockIdx := 0; rowIdx := 1 |} 0
     = Ok true
  /\ exists psp r,
       Run.ingest (Run.newProcessor Run.psN 1 1000000) 0
         (Run.blockN ["9"; "foo"; "2"]%string) = Ok psp
       /\ Run.run_flush Run.noStop psp = Ok r
       /\ f_err r = None
       /\ ppBase (f_psp r) =
            [(0, [ {| rc_name := "n";
                      rc_values := ["2"; "9"; "foo"]%string |} ])].
Proof.
  destruct numeric_tiers_then_string as (_ & T & R).
  split; [|split].
  - rewrite (T Run.psN _ _ _ _ 0
               (keyAt (blockAt (shardAt Run.psp_9_foo_2 0) 0) 0)
               (keyAt (blockAt (shardAt Run.psp_9_foo_2 0) 0) 0)
               false 9%Z 2%Z (f64_of_int 9) (f64_of_int 2) "9"%string "2"%string);
      reflexivity.
  - rewrite (T Run.psN _ _ _ _ 0
               (keyAt (blockAt (shardAt Run.psp_9_foo_2 0) 0) 0)
               (keyAt (blockAt (shardAt Run.psp_9_foo_2 0) 0) 0)
               false 2%Z 0%Z (f64_of_int 2) nan "2"%string "foo"%string);
      reflexivity.
  - apply (R SpecModel.tryParseUint64 SpecModel.tryParseIPv4
             SpecModel.tryParseFloat64 insertionSort Run.quoteTokenIfNeeded);
      reflexivity.
Defined.

Lemma constColumns_compare_ascending_witness :
  keyDesc Run.psNdesc 0 = Ok true
  /\ sortBlockLess (shardAt Run.psp_const 0) 0 (shardAt Run.psp_const 0) 1
     = Ok true
  /\ sortBlockLess (shardAt Run.psp_const 0) 1 (shardAt Run.psp_const 0) 0
     = Ok false.
Proof.
  split; [reflexivity|]. split.
  - destruct (constColumns_compare_ascending
                (shardAt Run.psp_const 0) 0 (shardAt Run.psp_const 0) 1
                {| blockIdx := 0; rowIdx := 0 |} {| blockIdx := 1; rowIdx := 0 |}
                (blockAt (shardAt Run.psp_const 0) 0)
                (blockAt (shardAt Run.psp_const 0) 1)
                eq_refl eq_refl eq_refl eq_refl) as [E1 E2].
    rewrite E1.
    rewrite (E2 0 (keyAt (blockAt (shardAt Run.psp_const 0) 0) 0)
               (keyAt (blockAt (shardAt Run.psp_const 0) 1) 0)
               "a"%string "b"%string true); reflexivity.
  - destruct (constColumns_compare_ascending
                (shardAt Run.psp_const 0) 1 (shardAt Run.psp_const 0) 0
                {| blockIdx := 1; rowIdx := 0 |} {| blockIdx := 0; rowIdx := 0 |}
                (blockAt (shardAt Run.psp_const 0) 1)
                (blockAt (shardAt Run.psp_const 0) 0)
                eq_refl eq_refl eq_refl eq_refl) as [E1 E2].
    rewrite E1.
    rewrite (E2 0 (keyAt (blockAt (shardAt Run.psp_const 0) 1) 0)
               (keyAt (blockAt (shardAt Run.psp_const 0) 0) 0)
               "b"%string "a"%string true); reflexivity.
Defined.

Lemma writeBlock_steals_budget_witness :
  exists g cancels sb go,
    stealSpec SpecModel.stateSizeBudgetChunk
      (psp_stateSizeBudget Run.psp_spent) (cancelCalls Run.psp_spent)
      (stateSizeBudget (shardAt Run.psp_spent 0)) (g, cancels, sb, go)
    /\ (go = false ->
        Run.ingest Run.psp_spent 0 (Run.blockN ["y"]%string) =
          Ok (with_shards (with_budget Run.psp_spent g cancels)
                (set_nth (shards Run.psp_spent) 0
                   (with_stateSizeBudget (shardAt Run.psp_spent 0) sb))))
    /\ (go = true ->
        Run.ingest Run.psp_spent 0 (Run.blockN ["y"]%string) =
          (shard2 <- shard_writeBlock SpecModel.tryParseUint64
                       SpecModel.tryParseIPv4 SpecModel.tryParseFloat64
                       SpecModel.quote Run.sizeBytes Run.sizeof_blockResultColumn
                       (with_stateSizeBudget (shardAt Run.psp_spent 0) sb)
                       (Run.blockN ["y"]%string) ;;
           Ok (with_shards (with_budget Run.psp_spent g cancels)
                 (set_nth (shards Run.psp_spent) 0 shard2)))).
Proof.
  apply (writeBlock_steals_budget
           SpecModel.tryParseUint64 SpecModel.tryParseIPv4
           SpecModel.tryParseFloat64 SpecModel.quote Run.sizeBytes
           Run.sizeof_blockResultColumn SpecModel.stateSizeBudgetChunk
           Run.psp_spent 0 (Run.blockN ["y"]%string) (shardAt Run.psp_spent 0)).
  - unfold chunk_ok, SpecModel.stateSizeBudgetChunk. lia.
  - vm_compute. split; [discriminate|reflexivity].
  - vm_compute. split; [discriminate|reflexivity].
  - discriminate.
  - vm_compute. reflexivity.
  - vm_compute. reflexivity.
Defined.

Lemma flush_error_iff_budget_exhausted_witness :
  Run.run_flush Run.stopped (Run.newProcessor Run.psN 1 100000)
  = Ok {| f_err := Some (flushError Run.quoteTokenIfNeeded
                           (Run.newProcessor Run.psN 1 100000));
          f_psp := Run.newProcessor Run.psN 1 100000;
          f_written := [] |}
  /\ flushError Run.quoteTokenIfNeeded (Run.newProcessor Run.psN 1 100000)
     = "cannot calculate [sort by (n)], since it requires more than 0MB of memory"%string
  /\ Run.run_flush Run.stopped Run.psp_9_foo_2
     = Ok {| f_err := None; f_psp := Run.psp_9_foo_2; f_written := [] |}
  /\ (exists r, Run.run_flush (stopFrom 1) Run.psp_three = Ok r
                /\ f_err r = None /\ f_written r = [])
  /\ (exists r, Run.run_flush (stopFrom 2) Run.psp_three = Ok r
                /\ f_err r = None /\ f_written r = [(0, 0)]
                /\ ppBase (f_psp r) = []).
Proof.
  split; [|split; [|split; [|split]]].
  - apply (proj1 (flush_error_iff_budget_exhausted
                  SpecModel.tryParseUint64 SpecModel.tryParseIPv4
                  SpecModel.tryParseFloat64 SpecModel.quote Run.sizeBytes
                  Run.sizeof_blockResultColumn SpecModel.stateSizeBudgetChunk
                  insertionSort
                    Run.quoteTokenIfNeeded Run.stopped
                    (Run.newProcessor Run.psN 1 100000))).
    vm_compute. discriminate.
  - rewrite (proj1 (proj2 (proj2 (proj2
               (flush_error_iff_budget_exhausted
                  SpecModel.tryParseUint64 SpecModel.tryParseIPv4
                  SpecModel.tryParseFloat64 SpecModel.quote Run.sizeBytes
                  Run.sizeof_blockResultColumn SpecModel.stateSizeBudgetChunk
                  insertionSort
                  Run.quoteTokenIfNeeded Run.stopped
                  (Run.newProcessor Run.psN 1 100000)))))).
    vm_compute. reflexivity.
  - apply (proj1 (proj2 (proj2
             (flush_error_iff_budget_exhausted
                  SpecModel.tryParseUint64 SpecModel.tryParseIPv4
                  SpecModel.tryParseFloat64 SpecModel.quote Run.sizeBytes
                  Run.sizeof_blockResultColumn SpecModel.stateSizeBudgetChunk
                  insertionSort
                Run.quoteTokenIfNeeded Run.stopped Run.psp_9_foo_2)))).
    + vm_compute. reflexivity.
    + reflexivity.
  - destruct (proj2 (proj2 (proj2 (proj2
                (flush_error_iff_budget_exhausted
                  SpecModel.tryParseUint64 SpecModel.tryParseIPv4
                  SpecModel.tryParseFloat64 SpecModel.quote Run.sizeBytes
                  Run.sizeof_blockResultColumn SpecModel.stateSizeBudgetChunk
                  insertionSort
                   Run.quoteTokenIfNeeded (stopFrom 1) Run.psp_three))))
                Run.psN Run.insertionSort_contract Run.reach_three)
      as (r & E & N); [vm_compute; reflexivity|].
    exists r. split; [exact E|]. split; [exact N|].
    vm_compute in E. injection E as <-. reflexivity.
  - destruct (proj2 (proj2 (proj2 (proj2
                (flush_error_iff_budget_exhausted
                  SpecModel.tryParseUint64 SpecModel.tryParseIPv4
                  SpecModel.tryParseFloat64 SpecModel.quote Run.sizeBytes
                  Run.sizeof_blockResultColumn SpecModel.stateSizeBudgetChunk
                  insertionSort
                   Run.quoteTokenIfNeeded (stopFrom 2) Run.psp_three))))
                Run.psN Run.insertionSort_contract Run.reach_three)
      as (r & E & N); [vm_compute; reflexivity|].
    exists r. split; [exact E|]. split; [exact N|].
    vm_compute in E. injection E as <-. split; reflexivity.
Defined.

Lemma tryParseInt64_signed_range_witness :
  tryParseInt64 SpecModel.tryParseUint64 "-42"
  = ((- 42)%Z, true)
  /\ tryParseInt64 SpecModel.tryParseUint64 "-9223372036854775808"
     = ((- 9223372036854775808)%Z, true)
  /\ tryParseInt64 SpecModel.tryParseUint64 "9223372036854775808"
     = (0%Z, false).
Proof.
  destruct (tryParseInt64_signed_range SpecModel.tryParseUint64)
    as (_ & Hcases & Hedge).
  split.
  - rewrite (Hcases "-"%char "42"%string 42%Z true); [reflexivity|reflexivity|lia].
  - apply Hedge. reflexivity.
Defined.


Lemma emptyBlock_dropped_emptyFlush_nil_witness :
  Run.ingest Run.psp_spent 0 (Run.blockN []) = Ok Run.psp_spent
  /\ exists r,
       Run.run_flush Run.noStop (Run.newProcessor Run.psN 2 1000000) = Ok r
       /\ f_err r = None
       /\ ppBase (f_psp r) = ppBase (Run.newProcessor Run.psN 2 1000000)
       /\ f_written r = [].
Proof.
  destruct (emptyBlock_dropped_emptyFlush_nil
              SpecModel.tryParseUint64 SpecModel.tryParseIPv4
              SpecModel.tryParseFloat64 SpecModel.quote Run.sizeBytes
              Run.sizeof_blockResultColumn SpecModel.stateSizeBudgetChunk
              insertionSort Run.quoteTokenIfNeeded) as [Hdrop Hflush].
  split.
  - apply Hdrop. reflexivity.
  - apply Hflush.
    + repeat constructor.
    + vm_compute. reflexivity.
Defined.

Lemma timeColumns_never_indexed_witness :
  isTime (c (keyAt (blockAt (shardAt psp_time 0) 0) 0)) = true
  /\ i64Values (keyAt (blockAt (shardAt psp_time 0) 0) 0) = []
  /\ f64Values (keyAt (blockAt (shardAt psp_time 0) 0) 0) = []
  /\ Forall timeColumnsNil (shards psp_time)
  /\ lessAtKey true
       (blockAt (shardAt psp_time 0) 0) (keyAt (blockAt (shardAt psp_time 0) 0) 0)
       {| blockIdx := 0; rowIdx := 0 |}
       (blockAt (shardAt psp_time 0) 0) (keyAt (blockAt (shardAt psp_time 0) 0) 0)
       {| blockIdx := 0; rowIdx := 1 |}
     = lessAtKey true
         (blockAt (shardAt psp_time 0) 0)
         {| c := c (keyAt (blockAt (shardAt psp_time 0) 0) 0);
            i64Values := [7%Z]; f64Values := [] |}
         {| blockIdx := 0; rowIdx := 0 |}
         (blockAt (shardAt psp_time 0) 0)
         {| c := c (keyAt (blockAt (shardAt psp_time 0) 0) 0);
            i64Values := []; f64Values := [] |}
         {| blockIdx := 0; rowIdx := 1 |}
  /\ sortBlockLess (shardAt psp_time 0) 0 (shardAt psp_time 0) 1 = Ok true
  /\ exists r,
       sortBlockLess (shardAt psp_time 0) 1 (shardAt psp_time 0) 0 = Ok r.
Proof.
  destruct (timeColumns_never_indexed
              SpecModel.tryParseUint64 SpecModel.tryParseIPv4
              SpecModel.tryParseFloat64 SpecModel.quote Run.sizeBytes
              Run.sizeof_blockResultColumn SpecModel.stateSizeBudgetChunk
              psTime psp_time reach_time) as (Hnil & Hindep & Htotal).
  split; [reflexivity|]. split; [reflexivity|]. split; [reflexivity|].
  split; [exact Hnil|]. split.
  - apply (Hindep true
             (blockAt (shardAt psp_time 0) 0)
             (keyAt (blockAt (shardAt psp_time 0) 0) 0)
             {| blockIdx := 0; rowIdx := 0 |}
             (blockAt (shardAt psp_time 0) 0)
             (keyAt (blockAt (shardAt psp_time 0) 0) 0)
             {| blockIdx := 0; rowIdx := 1 |} [7%Z] [] [] []).
    reflexivity.
  - split; [reflexivity|].
    apply (Htotal 0 0 (shardAt psp_time 0) (shardAt psp_time 0) 1 0);
      vm_compute; first [reflexivity | lia].
Defined.

Lemma sortBlockLess_asymmetric_witness :
  sortBlockLess (shardAt Run.psp_three 2) 0 (shardAt Run.psp_three 0) 0 = Ok true
  /\ sortBlockLess (shardAt Run.psp_three 0) 0 (shardAt Run.psp_three 2) 0
     <> Ok true
  /\ sortBlockLess (shardAt Run.psp_three 0) 0 (shardAt Run.psp_three 0) 0
     = Ok false.
Proof.
  destruct (sortBlockLess_asymmetric
              (shardAt Run.psp_three 2) 0 (shardAt Run.psp_three 0) 0 eq_refl)
    as (Hasym & _).
  destruct (sortBlockLess_asymmetric
              (shardAt Run.psp_three 0) 0 (shardAt Run.psp_three 0) 0 eq_refl)
    as (_ & _ & Hirr).
  assert (E : sortBlockLess (shardAt Run.psp_three 2) 0
                (shardAt Run.psp_three 0) 0 = Ok true) by reflexivity.
  split; [exact E|]. split.
  - intros H. exact (Hasym E H).
  - apply Hirr.
    + apply (wf_shardAt Run.psN Run.psp_three 0 Run.reach_three).
      vm_compute. lia.
    + vm_compute. lia.
Defined.

(** ** Where the claims as worded fail *)

(** [sort] with no [by] field. *)
Definition psAll : pipeSort := {| byFields := []; isDesc := false |}.

(** A block of two rows that has no column. *)
Definition blockBare : blockResult :=
  {| timestamps := [1%Z; 2%Z]; columns := [] |}.

Definition psp_bare : pipeSortProcessor :=
  Run.orElse (Run.ingest (Run.newProcessor psAll 1 1000000) 0 blockBare)
    (Run.newProcessor psAll 1 1000000).

(** [flush] returns nil on a closed [stopCh] with three rows held and none
    written; three shards holding 1-, 1.0 and 1 leave [flush] as 1-, 1,
    1.0, with 1 written just after 1- although it is smaller; and the two rows
    of a block without columns, under a pipe without [by] fields, are handed
    to [writeRow] and no block is written for them. *)
Lemma flush_stopped_or_three_shards_unsorted :
  Run.run_flush Run.stopped Run.psp_9_foo_2
  = Ok {| f_err := None; f_psp := Run.psp_9_foo_2; f_written := [] |}
  /\ ingestedRows (shards Run.psp_9_foo_2) 0
     = [(0, {| blockIdx := 0; rowIdx := 0 |});
        (0, {| blockIdx := 0; rowIdx := 1 |});
        (0, {| blockIdx := 0; rowIdx := 2 |})]
  /\ (exists r,
       Run.run_flush Run.noStop Run.psp_three = Ok r
       /\ f_err r = None
       /\ f_written r = [(0, 0); (2, 0); (1, 0)]
       /\ ppBase (f_psp r) =
            [(0, [ {| rc_name := "n";
                      rc_values := ["1-"; "1"; "1.0"]%string |} ])]
       /\ sortBlockLess (shardAt (f_psp r) 2) 0 (shardAt (f_psp r) 0) 0
          = Ok true)
  /\ ingestedRows (shards psp_bare) 0
     = [(0, {| blockIdx := 0; rowIdx := 0 |});
        (0, {| blockIdx := 0; rowIdx := 1 |})]
  /\ exists r,
       Run.run_flush Run.noStop psp_bare = Ok r
       /\ f_err r = None
       /\ f_written r = [(0, 0); (0, 1)]
       /\ ppBase (f_psp r) = [].
Proof.
  split; [reflexivity|]. split; [reflexivity|]. split.
  - eexists. split; [vm_compute; reflexivity|].
    repeat split; reflexivity.
  - split; [reflexivity|].
    eexists. split; [vm_compute; reflexivity|].
    repeat split; reflexivity.
Qed.

(** A [writeBlock] call with an empty block on a shard whose budget is
    negative takes nothing from the global budget. *)
Lemma writeBlock_empty_block_steals_nothing :
  Run.isReachable Run.psN Run.psp_spent
  /\ (stateSizeBudget (shardAt Run.psp_spent 0) < 0)%Z
  /\ Run.ingest Run.psp_spent 0 (Run.blockN []) = Ok Run.psp_spent.
Proof.
  split; [exact Run.reach_spent|]. split; [vm_compute|]; reflexivity.
Qed.


(** With no block ingested and no global budget left by the chunks of the
    shards, [flush] returns the error. *)
Lemma flush_empty_input_over_budget :
  shards (Run.newProcessor Run.psN 1 100000)
  = [ {| ps := Run.psN; blocks := []; rowRefs := []; rowRefNext := 0;
         stateSizeBudget := 65536 |} ]
  /\ Run.run_flush Run.noStop (Run.newProcessor Run.psN 1 100000)
     = Ok {| f_err := Some "cannot calculate [sort by (n)], since it requires more than 0MB of memory"%string;
             f_psp := Run.newProcessor Run.psN 1 100000;
             f_written := [] |}.
Proof.
  split; vm_compute; reflexivity.
Qed.

(** ** The further properties at concrete inputs *)

Lemma desc_reverses_comparator_witness :
  sortBlockLess (with_ps (shardAt Run.psp_9_foo_2 0) (flipDesc Run.psN)) 0
                (with_ps (shardAt Run.psp_9_foo_2 0) (flipDesc Run.psN)) 2
  = Ok true
  /\ sortBlockLess (shardAt Run.psp_9_foo_2 0) 0 (shardAt Run.psp_9_foo_2 0) 2
     = Ok false.
Proof.
  split; [|reflexivity].
  change Run.psN with (ps (shardAt Run.psp_9_foo_2 0)).
  rewrite (desc_reverses_comparator
             (shardAt Run.psp_9_foo_2 0) 0 (shardAt Run.psp_9_foo_2 0) 2
             {| blockIdx := 0; rowIdx := 0 |} {| blockIdx := 0; rowIdx := 2 |}
             (blockAt (shardAt Run.psp_9_foo_2 0) 0)
             (blockAt (shardAt Run.psp_9_foo_2 0) 0)
             eq_refl eq_refl eq_refl eq_refl eq_refl eq_refl).
  - reflexivity.
  - intros [|i] cA cB HA HB.
    + vm_compute in HA, HB. inversion HA; inversion HB; subst.
      split; reflexivity.
    + vm_compute in HA. destruct i; discriminate.
Defined.


Lemma reachable_shards_hold_rows_witness :
  ppBase Run.psp_three = []
  /\ psp_ps Run.psp_three = Run.psN
  /\ Forall (fun s =>
               ps s = Run.psN
               /\ rowRefNext s = 0
               /\ rowRefs s = blockRows (blocks s) 0
               /\ Forall (fun sb => timestamps (br sb) <> []) (blocks s))
       (shards Run.psp_three).
Proof.
  apply (reachable_shards_hold_rows
           SpecModel.tryParseUint64 SpecModel.tryParseIPv4
           SpecModel.tryParseFloat64 SpecModel.quote Run.sizeBytes
           Run.sizeof_blockResultColumn SpecModel.stateSizeBudgetChunk
           Run.psN Run.psp_three Run.reach_three).
Defined.

Lemma writeBlock_returns_witness :
  exists psp',
    Run.ingest Run.psp_three 1 (Run.blockN ["8"]%string) = Ok psp'
    /\ Run.isReachable Run.psN psp'.
Proof.
  apply (writeBlock_returns
           SpecModel.tryParseUint64 SpecModel.tryParseIPv4
           SpecModel.tryParseFloat64 SpecModel.quote Run.sizeBytes
           Run.sizeof_blockResultColumn SpecModel.stateSizeBudgetChunk
           Run.psN Run.psp_three 1 (Run.blockN ["8"]%string)).
  - unfold chunk_ok, SpecModel.stateSizeBudgetChunk. lia.
  - exact Run.reach_three.
  - apply Run.wf_blockN.
  - vm_compute. lia.
Defined.

Lemma stealBudget_chunks_witness :
  exists (k : nat) g' cancels' sb' go,
    stealBudget SpecModel.stateSizeBudgetChunk
      (stealFuel SpecModel.stateSizeBudgetChunk (- 100000)) 100000 0 (- 100000)
    = Ok (g', cancels', sb', go)
    /\ sb' = (- 100000 + Z.of_nat k * SpecModel.stateSizeBudgetChunk)%Z
    /\ (go = true ->
        (0 <= sb')%Z
        /\ (0 < k -> (sb' < SpecModel.stateSizeBudgetChunk)%Z /\ (0 <= g')%Z)
        /\ g' = (100000 - Z.of_nat k * SpecModel.stateSizeBudgetChunk)%Z
        /\ cancels' = 0)
    /\ (go = false ->
        (sb' < 0)%Z
        /\ g' = (100000 - (Z.of_nat k + 1) * SpecModel.stateSizeBudgetChunk)%Z
        /\ (g' < 0)%Z
        /\ (0 < k -> (0 <= 100000 - Z.of_nat k * SpecModel.stateSizeBudgetChunk)%Z)
        /\ cancels' =
             if (0 <=? 100000 - Z.of_nat k * SpecModel.stateSizeBudgetChunk)%Z
             then 1 else 0).
Proof.
  apply (stealBudget_chunks SpecModel.stateSizeBudgetChunk 100000 0 (- 100000));
    unfold chunk_ok, int64_range, SpecModel.stateSizeBudgetChunk; lia.
Defined.

Lemma shard_Swap_exchanges_witness :
  exists shard',
    shard_Swap (shardAt Run.psp_9_foo_2 0) 0 2 = Ok shard'
    /\ rowRefs shard' =
         [ {| blockIdx := 0; rowIdx := 2 |}; {| blockIdx := 0; rowIdx := 1 |};
           {| blockIdx := 0; rowIdx := 0 |} ]
    /\ shard_Swap shard' 0 2 = Ok (shardAt Run.psp_9_foo_2 0)
    /\ shard_Less shard' 0 2 = shard_Less (shardAt Run.psp_9_foo_2 0) 2 0.
Proof.
  destruct (proj1 (shard_Swap_exchanges (shardAt Run.psp_9_foo_2 0) 0 2))
    as (shard' & E & _ & _ & _ & _ & _ & _ & Hback & Hless).
  - vm_compute. lia.
  - vm_compute. lia.
  - exists shard'. split; [exact E|]. split; [|split; assumption].
    vm_compute in E. inversion E. reflexivity.
Defined.



